(** * Shallow embedding of the finite-volume solver drivers

    Sources embedded here:
    - [src/src/util/util.h]: [Util::compare], [Util::Option],
      [Util::BoolOption], [Util::Parameters], [Util::ParamList] (the older
      [src/util/util.h] has the same [compare] and [Option::getID]);
    - [src/solvers/solver/solver.cpp]: [main], [piso], [diffusion],
      [transport], [potential], [Mesh::calc_walldist];
    - [src/src/util/util.h] again, for the vector helpers ([equal], the
      stream operators of [std::vector]), and [src/turbulence/ke/ke.h]
      ([KE_Model::calcEddyMu], [KE_Model::calcX]), in Part VII.

    Conventions.  [Scalar] (a C++ floating-point type) is idealised as a real
    number, so every statement below is an exact-arithmetic statement.  [Int]
    is the library's unsigned counter type; it is embedded as [nat] (no
    statement below depends on wrap-around).  The field, matrix and operator
    library ([field.h], [tensor.h], [solve.h], ...) is not part of the
    embedded sources: its operations are parameters, collected in the class
    [FVLib]; what section 4.3 of the specification says of its matrices is
    modelled in [MatrixModel] and [EquationModel]. *)

From Stdlib Require Import Reals Lra Lia List Bool Arith ZArith.
From Stdlib Require Import Strings.String Strings.Ascii Numbers.DecimalString.
From Stdlib Require Import Numbers.DecimalNat Logic.FunctionalExtensionality.
Import ListNotations.

Definition Int := nat.
Definition Scalar := R.

(** The tensor types of [tensor.h] (not among the embedded sources), as
    tuples of their components. *)
Record Vector := mkVector { vx : Scalar; vy : Scalar; vz : Scalar }.
Definition STensor : Type := Scalar * Scalar * Scalar * Scalar * Scalar * Scalar.
Definition Tensor : Type := Vector * Vector * Vector.

(* ================================================================== *)
(** * Part I: strings, options and parameter lists ([util.h])          *)
(* ================================================================== *)

Module Util.

Local Open Scope string_scope.

(** [toupper] of the C library in the "C" locale: the 26 lower-case letters
    are moved to upper case, every other character is unchanged. *)
Definition toupper (c : ascii) : ascii :=
  let n := nat_of_ascii c in
  if Nat.leb 97 n && Nat.leb n 122 then ascii_of_nat (n - 32) else c.

(** [std::transform(t.begin(), t.end(), t.begin(), f)] on a string. *)
Fixpoint transform (f : ascii -> ascii) (s : string) : string :=
  match s with
  | EmptyString => EmptyString
  | String c s' => String (f c) (transform f s')
  end.

(** [Util::compare]: 0 when the upper-cased strings agree, 1 otherwise. *)
Definition compare (s1 s2 : string) : Z :=
  let t1 := transform toupper s1 in
  let t2 := transform toupper s2 in
  if String.eqb t1 t2 then 0%Z else 1%Z.

(** What the program writes to [std::cout], one entry per insertion. *)
Definition cout := List.list string.

(** [std::endl]. *)
Definition endl : string := String (ascii_of_nat 10) EmptyString.

(** [Util::Option]: [val] is the integer the option points at, [list] the
    enumerator names. *)
Record Option := mkOption { val : Int; list : List.list string }.

(** The loop of [Option::getID], started at index [i]. *)
Fixpoint getID_from (l : List.list string) (str : string) (i : Int) : option Int :=
  match l with
  | [] => None
  | x :: l' => if Z.eqb (compare x str) 0 then Some i
               else getID_from l' str (S i)
  end.

(** [Option::getID]: the index of the first enumerator that compares equal;
    when there is none a diagnostic is printed and 0 is returned. *)
Definition getID (p : Option) (str : string) : Int * cout :=
  match getID_from (list p) str 0 with
  | Some i => (i, [])
  | None => (0, ["Unknown parameter : "; str; endl])
  end.

(** An input stream, as the sequence of its whitespace-separated tokens. *)
Definition istream := List.list string.

(** [operator >>] for a [std::string]: the next token (empty at end of input). *)
Definition read_token (inp : istream) : string * istream :=
  match inp with
  | [] => ("", [])
  | t :: inp' => (t, inp')
  end.

(** [operator >> (istream&, Option&)]. *)
Definition Option_extract (inp : istream) (p : Option) : Option * istream * cout :=
  let '(str, inp') := read_token inp in
  let '(id, out) := getID p str in
  (mkOption id (list p), inp', out).

(** [operator << (ostream&, const Option&)]: [p.list[*(p.val)]]. *)
Definition Option_show (p : Option) : string := nth (val p) (list p) "".

(** [Util::BoolOption]. *)
Definition BoolOption (v : Int) : Option := mkOption v ["NO"; "YES"].

(** Stream extraction and insertion of a parameter type. *)
Class Streamable (T : Type) := {
  extract : istream -> T -> T * istream * cout;
  show : T -> string
}.

#[export] Instance Streamable_Option : Streamable Option :=
  {| extract := Option_extract; show := Option_show |}.

(** [is >> str] into an enrolled [std::string]: at the end of the input
    nothing is extracted and the string keeps its value. *)
#[export] Instance Streamable_string : Streamable string :=
  {| extract := fun inp old =>
       match inp with
       | [] => (old, [], [])
       | t :: inp' => (t, inp', [])
       end;
     show := fun s => s |}.

(** [Util::Parameters<T>]: the map from keys to enrolled addresses, as the
    association of each key with the value stored at its address. *)
Definition Parameters (T : Type) := List.list (string * T).

Fixpoint find {T} (l : Parameters T) (str : string) : option T :=
  match l with
  | [] => None
  | (k, v) :: l' => if String.eqb k str then Some v else find l' str
  end.

Fixpoint store {T} (l : Parameters T) (str : string) (v : T) : Parameters T :=
  match l with
  | [] => []
  | (k, w) :: l' => if String.eqb k str then (k, v) :: l'
                    else (k, w) :: store l' str v
  end.

(** [Parameters<T>::enroll]. *)
Definition Parameters_enroll {T} (l : Parameters T) (str : string) (addr : T)
  : Parameters T :=
  match find l str with
  | Some _ => store l str addr
  | None => (str, addr) :: l
  end.

(** [Parameters<T>::read]. *)
Definition Parameters_read {T} `{Streamable T}
    (l : Parameters T) (str : string) (inp : istream) (out : bool)
  : bool * Parameters T * istream * cout :=
  match find l str with
  | Some v =>
      let '(v', inp', o) := extract inp v in
      (true, store l str v', inp', (o ++ (if out then [show v'] else []))%list)
  | None => (false, l, inp, [])
  end.


(** [Util::ParamList]: a name and one [Parameters<T>] member per parameter
    type (the [addParam] macro). *)
Record ParamList := mkParamList {
  name : string;
  params_Int : Parameters (Int);
  params_Scalar : Parameters (Scalar);
  params_Vector : Parameters (Vector);
  params_STensor : Parameters (STensor);
  params_Tensor : Parameters (Tensor);
  params_string : Parameters (string);
  params_Option : Parameters (Option);
  params_vec_int : Parameters (List.list Int);
  params_vec_string : Parameters (List.list string);
  params_vec_scalar : Parameters (List.list Scalar);
  params_vec_vector : Parameters (List.list Vector)
}.

(** Assignment to one member of a [ParamList]. *)
Definition set_Int (pl : ParamList) (l : Parameters (Int)) : ParamList :=
  mkParamList (name pl) (l) (params_Scalar pl) (params_Vector pl)
    (params_STensor pl) (params_Tensor pl) (params_string pl)
    (params_Option pl) (params_vec_int pl) (params_vec_string pl)
    (params_vec_scalar pl) (params_vec_vector pl).
Definition set_Scalar (pl : ParamList) (l : Parameters (Scalar)) : ParamList :=
  mkParamList (name pl) (params_Int pl) (l) (params_Vector pl)
    (params_STensor pl) (params_Tensor pl) (params_string pl)
    (params_Option pl) (params_vec_int pl) (params_vec_string pl)
    (params_vec_scalar pl) (params_vec_vector pl).
Definition set_Vector (pl : ParamList) (l : Parameters (Vector)) : ParamList :=
  mkParamList (name pl) (params_Int pl) (params_Scalar pl) (l)
    (params_STensor pl) (params_Tensor pl) (params_string pl)
    (params_Option pl) (params_vec_int pl) (params_vec_string pl)
    (params_vec_scalar pl) (params_vec_vector pl).
Definition set_STensor (pl : ParamList) (l : Parameters (STensor)) : ParamList :=
  mkParamList (name pl) (params_Int pl) (params_Scalar pl) (params_Vector pl)
    (l) (params_Tensor pl) (params_string pl) (params_Option pl)
    (params_vec_int pl) (params_vec_string pl) (params_vec_scalar pl)
    (params_vec_vector pl).
Definition set_Tensor (pl : ParamList) (l : Parameters (Tensor)) : ParamList :=
  mkParamList (name pl) (params_Int pl) (params_Scalar pl) (params_Vector pl)
    (params_STensor pl) (l) (params_string pl) (params_Option pl)
    (params_vec_int pl) (params_vec_string pl) (params_vec_scalar pl)
    (params_vec_vector pl).
Definition set_string (pl : ParamList) (l : Parameters (string)) : ParamList :=
  mkParamList (name pl) (params_Int pl) (params_Scalar pl) (params_Vector pl)
    (params_STensor pl) (params_Tensor pl) (l) (params_Option pl)
    (params_vec_int pl) (params_vec_string pl) (params_vec_scalar pl)
    (params_vec_vector pl).
Definition set_Option (pl : ParamList) (l : Parameters (Option)) : ParamList :=
  mkParamList (name pl) (params_Int pl) (params_Scalar pl) (params_Vector pl)
    (params_STensor pl) (params_Tensor pl) (params_string pl) (l)
    (params_vec_int pl) (params_vec_string pl) (params_vec_scalar pl)
    (params_vec_vector pl).
Definition set_vec_int (pl : ParamList) (l : Parameters (List.list Int)) : ParamList :=
  mkParamList (name pl) (params_Int pl) (params_Scalar pl) (params_Vector pl)
    (params_STensor pl) (params_Tensor pl) (params_string pl)
    (params_Option pl) (l) (params_vec_string pl) (params_vec_scalar pl)
    (params_vec_vector pl).
Definition set_vec_string (pl : ParamList) (l : Parameters (List.list string)) : ParamList :=
  mkParamList (name pl) (params_Int pl) (params_Scalar pl) (params_Vector pl)
    (params_STensor pl) (params_Tensor pl) (params_string pl)
    (params_Option pl) (params_vec_int pl) (l) (params_vec_scalar pl)
    (params_vec_vector pl).
Definition set_vec_scalar (pl : ParamList) (l : Parameters (List.list Scalar)) : ParamList :=
  mkParamList (name pl) (params_Int pl) (params_Scalar pl) (params_Vector pl)
    (params_STensor pl) (params_Tensor pl) (params_string pl)
    (params_Option pl) (params_vec_int pl) (params_vec_string pl) (l)
    (params_vec_vector pl).
Definition set_vec_vector (pl : ParamList) (l : Parameters (List.list Vector)) : ParamList :=
  mkParamList (name pl) (params_Int pl) (params_Scalar pl) (params_Vector pl)
    (params_STensor pl) (params_Tensor pl) (params_string pl)
    (params_Option pl) (params_vec_int pl) (params_vec_string pl)
    (params_vec_scalar pl) (l).

Section ParamListRead.

(** Extraction and insertion for the numeric and tensor types come from the
    standard library and [tensor.h]; they are parameters here. *)
Context {SInt : Streamable Int} {SScalar : Streamable Scalar}
        {SVector : Streamable Vector} {SSTensor : Streamable STensor}
        {STensor' : Streamable Tensor}
        {Svec_int : Streamable (List.list Int)}
        {Svec_string : Streamable (List.list string)}
        {Svec_scalar : Streamable (List.list Scalar)}
        {Svec_vector : Streamable (List.list Vector)}.

(** [ParamList::read(is, str, out)]: the first member that knows the key
    reads its value; when none does, [UNKNOWN] is printed if [out] is set,
    and the call returns normally. *)
Definition ParamList_read (pl : ParamList) (inp : istream) (str : string)
    (out : bool) : ParamList * istream * cout :=
  match Parameters_read (params_Int pl) str inp out with
  | (true, l, inp', o) => (set_Int pl l, inp', o)
  | (false, _, _, _) =>
  match Parameters_read (params_string pl) str inp out with
  | (true, l, inp', o) => (set_string pl l, inp', o)
  | (false, _, _, _) =>
  match Parameters_read (params_Option pl) str inp out with
  | (true, l, inp', o) => (set_Option pl l, inp', o)
  | (false, _, _, _) =>
  match Parameters_read (params_Scalar pl) str inp out with
  | (true, l, inp', o) => (set_Scalar pl l, inp', o)
  | (false, _, _, _) =>
  match Parameters_read (params_Vector pl) str inp out with
  | (true, l, inp', o) => (set_Vector pl l, inp', o)
  | (false, _, _, _) =>
  match Parameters_read (params_Tensor pl) str inp out with
  | (true, l, inp', o) => (set_Tensor pl l, inp', o)
  | (false, _, _, _) =>
  match Parameters_read (params_STensor pl) str inp out with
  | (true, l, inp', o) => (set_STensor pl l, inp', o)
  | (false, _, _, _) =>
  match Parameters_read (params_vec_int pl) str inp out with
  | (true, l, inp', o) => (set_vec_int pl l, inp', o)
  | (false, _, _, _) =>
  match Parameters_read (params_vec_scalar pl) str inp out with
  | (true, l, inp', o) => (set_vec_scalar pl l, inp', o)
  | (false, _, _, _) =>
  match Parameters_read (params_vec_vector pl) str inp out with
  | (true, l, inp', o) => (set_vec_vector pl l, inp', o)
  | (false, _, _, _) =>
  match Parameters_read (params_vec_string pl) str inp out with
  | (true, l, inp', o) => (set_vec_string pl l, inp', o)
  | (false, _, _, _) =>
  (pl, inp, if out then ["UNKNOWN"] else [])
  end
  end
  end
  end
  end
  end
  end
  end
  end
  end
  end.

End ParamListRead.

End Util.

(* ================================================================== *)
(** * Part II: the application entry point ([solver.cpp], [main])      *)
(* ================================================================== *)

Module Main.

Import Util.
Local Open Scope string_scope.

Inductive SolverCall := Piso | Diffusion | Transport | Potential.

(** What [main] sees of its environment: the message-passing object, the
    file system behind [System::cd], and the two strings that
    [params.read(input)] stored in [sname] and [Mesh::gMeshName]. *)
Record Process := mkProcess {
  n_hosts : Int;
  host_id : Int;
  cd : string -> bool;
  sname : string;
  gMeshName : string
}.

(** What [main] did: its return value, the final mesh name, whether the mesh
    was read, and the solver it called. *)
Record Outcome := mkOutcome {
  ret : Z;
  meshName : string;
  meshRead : bool;
  solver : option SolverCall
}.

(** The [if]/[else if] chain that calls the solver. *)
Definition call_solver (sname : string) : option SolverCall :=
  if Z.eqb (compare sname "piso") 0 then Some Piso
  else if Z.eqb (compare sname "diffusion") 0 then Some Diffusion
  else if Z.eqb (compare sname "transport") 0 then Some Transport
  else if Z.eqb (compare sname "potential") 0 then Some Potential
  else None.

(** [s << Mesh::gMeshName << mp.host_id]. *)
Definition rank_mesh_name (pr : Process) : string :=
  gMeshName pr ++ NilEmpty.string_of_uint (Nat.to_uint (host_id pr)).

Definition main (pr : Process) : Outcome :=
  if Nat.ltb 1 (n_hosts pr) then
    if negb (cd pr (rank_mesh_name pr)) then
      mkOutcome 1 (rank_mesh_name pr) false None
    else
      mkOutcome 0 (rank_mesh_name pr) true (call_solver (sname pr))
  else
    mkOutcome 0 (gMeshName pr) true (call_solver (sname pr)).

End Main.

(* ================================================================== *)
(** * Predicates used in the statements about [util.h]                 *)
(* ================================================================== *)

Module UtilSpec.

Import Util.
Local Open Scope string_scope.

(** Two characters are the same letter up to case. *)
Definition is_letter (c : ascii) : Prop :=
  let n := nat_of_ascii c in (65 <= n <= 90)%nat \/ (97 <= n <= 122)%nat.

Definition case_variant (c1 c2 : ascii) : Prop :=
  c1 = c2 \/
  (is_letter c1 /\ is_letter c2 /\
   (nat_of_ascii c1 = nat_of_ascii c2 + 32 \/
    nat_of_ascii c2 = nat_of_ascii c1 + 32)%nat).

(** Two strings differ only in letter case. *)
Inductive differ_only_in_case : string -> string -> Prop :=
| doc_nil : differ_only_in_case "" ""
| doc_cons c1 c2 s1 s2 :
    case_variant c1 c2 -> differ_only_in_case s1 s2 ->
    differ_only_in_case (String c1 s1) (String c2 s2).

(** The keys enrolled in a parameter list, over all its members. *)
Definition enrolled_keys (pl : ParamList) : List.list string :=
  (map fst (params_Int pl) ++ map fst (params_string pl) ++
   map fst (params_Option pl) ++ map fst (params_Scalar pl) ++
   map fst (params_Vector pl) ++ map fst (params_Tensor pl) ++
   map fst (params_STensor pl) ++ map fst (params_vec_int pl) ++
   map fst (params_vec_scalar pl) ++ map fst (params_vec_vector pl) ++
   map fst (params_vec_string pl))%list.

(** The solver names [main] knows. *)
Definition solver_names : List.list string :=
  ["piso"; "diffusion"; "transport"; "potential"].

(** The option behind the [turbulence_model] key of [piso], with its initial
    value [KE]. *)
Definition turbulence_option : Option :=
  mkOption 2
    ["NONE"; "MIXING_LENGTH"; "KE"; "RNG_KE"; "REALIZABLE_KE"; "KW"; "LES"].

(** The characters at which [is >> str] stops: the blank and the control
    characters from the tabulator to the carriage return. *)
Definition is_blank (c : ascii) : bool :=
  let n := nat_of_ascii c in
  Nat.eqb n 32 || (Nat.leb 9 n && Nat.leb n 13).

Fixpoint blank_free (s : string) : bool :=
  match s with
  | EmptyString => true
  | String c s' => negb (is_blank c) && blank_free s'
  end.

(** A text that [is >> str] reads as a whole: it is not empty and holds
    none of the characters above. *)
Definition is_token (s : string) : Prop :=
  s <> "" /\ blank_free s = true.

(** The tokens a reader finds in a text: [word] collects the characters of
    the token being read. *)
Definition close_word (word : string) : istream :=
  match word with
  | EmptyString => []
  | _ => [word]
  end.

Fixpoint tokens_from (s word : string) : istream :=
  match s with
  | EmptyString => close_word word
  | String c s' =>
      if is_blank c then (close_word word ++ tokens_from s' "")%list
      else tokens_from s' (word ++ String c "")
  end.

(** The stream in which the text [s], as [os << s] writes it, is followed,
    after white space, by the tokens [inp]. *)
Definition written (s : string) (inp : istream) : istream :=
  (tokens_from s "" ++ inp)%list.

(** A stand-in for the extraction of a type whose reader is outside the
    embedded sources: it consumes one token and leaves the value alone. *)
Definition skip_one (T : Type) : Streamable T :=
  {| extract := fun inp v => (v, tl inp, []); show := fun _ => "" |}.

(** The parameter list of [main] after its two [enroll] calls and
    [GENERAL::enroll]. *)
Definition general_params : ParamList :=
  mkParamList "general" []
    [("rho", 1%R); ("viscosity", (1 / 100000)%R);
     ("conductivity", (1 / 10000)%R)]
    [("gravity", (mkVector 0 0 (- 981 / 100))%R)] [] []
    [("mesh", ""); ("solver", "")] [] [] [] [] [].

End UtilSpec.

(* ================================================================== *)
(** * Part III: fields, matrices and the operator library              *)
(* ================================================================== *)

Local Open Scope R_scope.

(** Modelled from the spec: [tensor.h] is not among the sources.  Arithmetic
    on tensors is component by component (section 4.1), [&] is the inner
    product and [mag] the Euclidean norm. *)
Class Elem (T : Type) := {
  tzero : T;
  tadd : T -> T -> T;
  tsub : T -> T -> T;
  tneg : T -> T;
  tmul : T -> T -> T;
  tscale : Scalar -> T -> T;
  tdivs : T -> Scalar -> T;
  tsqrt : T -> T
}.

#[export] Instance Elem_Scalar : Elem Scalar :=
  {| tzero := 0; tadd := Rplus; tsub := Rminus; tneg := Ropp; tmul := Rmult;
     tscale := Rmult; tdivs := Rdiv; tsqrt := sqrt |}.

Definition vmap (f : Scalar -> Scalar) (v : Vector) : Vector :=
  mkVector (f (vx v)) (f (vy v)) (f (vz v)).

Definition vmap2 (f : Scalar -> Scalar -> Scalar) (v w : Vector) : Vector :=
  mkVector (f (vx v) (vx w)) (f (vy v) (vy w)) (f (vz v) (vz w)).

#[export] Instance Elem_Vector : Elem Vector :=
  {| tzero := mkVector 0 0 0; tadd := vmap2 Rplus; tsub := vmap2 Rminus; tneg := vmap Ropp;
     tmul := vmap2 Rmult;
     tscale := fun a => vmap (Rmult a);
     tdivs := fun v a => vmap (fun x => x / a) v;
     tsqrt := vmap sqrt |}.

(** [v & w] and [mag(v)]. *)
Definition dot (v w : Vector) : Scalar :=
  vx v * vx w + vy v * vy w + vz v * vz w.
Definition mag (v : Vector) : Scalar := sqrt (dot v v).

(** Modelled from the spec: [field.h] is not among the sources.  A field is
    an array of values indexed by cell (or face), ghost cells after internal
    cells; every arithmetic operator on fields acts element by element
    (section 4.1). *)
Definition MeshField (T : Type) : Type := Int -> T.
Definition ScalarCellField := MeshField Scalar.
Definition VectorCellField := MeshField Vector.
Definition ScalarFacetField := MeshField Scalar.
Definition IntVector := list Int.

Module Field.
Section Pointwise.
Context {T : Type} {E : Elem T}.

(** A field with the same value everywhere ([F = Scalar(1)]). *)
Definition const (a : T) : MeshField T := fun _ => a.
(** [f + g], [f - g], [-f], [f * g] on fields of one element type. *)
Definition add (f g : MeshField T) : MeshField T := fun i => tadd (f i) (g i).
Definition sub (f g : MeshField T) : MeshField T := fun i => tsub (f i) (g i).
Definition neg (f : MeshField T) : MeshField T := fun i => tneg (f i).
Definition mul (f g : MeshField T) : MeshField T := fun i => tmul (f i) (g i).
(** [a * f] and [f / a] for a scalar [a]. *)
Definition scale (a : Scalar) (f : MeshField T) : MeshField T :=
  fun i => tscale a (f i).
Definition divs (f : MeshField T) (a : Scalar) : MeshField T :=
  fun i => tdivs (f i) a.
(** [f * s] for a scalar field [s]. *)
Definition muls (f : MeshField T) (s : ScalarCellField) : MeshField T :=
  fun i => tscale (s i) (f i).
(** [sqrt(f)]. *)
Definition sqrt (f : MeshField T) : MeshField T := fun i => tsqrt (f i).

End Pointwise.

(** [a / s] for a scalar [a] and a scalar field [s]. *)
Definition inv (a : Scalar) (s : ScalarCellField) : ScalarCellField :=
  fun i => a / s i.
(** [v & w] and [mag(v)] on vector fields. *)
Definition dot (v w : VectorCellField) : ScalarCellField :=
  fun i => dot (v i) (w i).
Definition mag (v : VectorCellField) : ScalarCellField := fun i => mag (v i).

End Field.

(** [MeshMatrix<T>] (section 3 of the specification; [solver.cpp] reads
    [M.ap] and assigns [M.Su]): the diagonal, two off-diagonal coefficients
    per internal face, the explicit source, and the symmetry flags. *)
Record MeshMatrix (T : Type) := mkMeshMatrix {
  ap : ScalarCellField;
  an : Int -> Scalar * Scalar;
  Su : MeshField T;
  flags : Int
}.
Arguments mkMeshMatrix {T}.
Arguments ap {T}.
Arguments an {T}.
Arguments Su {T}.
Arguments flags {T}.

(** [M.Su = f]. *)
Definition set_Su {T} (M : MeshMatrix T) (f : MeshField T) : MeshMatrix T :=
  mkMeshMatrix (ap M) (an M) f (flags M).

Definition ScalarMeshMatrix := MeshMatrix Scalar.
Definition VectorMeshMatrix := MeshMatrix Vector.

(** [BCondition<T>]: field name, patch name, kind, value and the face
    indices cached by [init_indices]. *)
Record BCondition (T : Type) := mkBCondition {
  fName : string;
  bname : string;
  cname : string;
  value : T;
  fIndex : IntVector
}.
Arguments mkBCondition {T}.
Arguments fName {T}.
Arguments bname {T}.
Arguments cname {T}.
Arguments value {T}.
Arguments fIndex {T}.

(** An entry of [AllBConditions] (a [BasicBCondition*]). *)
Inductive BasicBCondition :=
| ScalarBC (bc : BCondition Scalar)
| VectorBC (bc : BCondition Vector).

(** The process-wide registry [AllBConditions]. *)
Definition Registry := list BasicBCondition.

(** [Mesh::gBoundaries], in iteration order. *)
Definition Boundaries := list (string * IntVector).

(** The operator library ([field.h], [solve.h], [turbulence.h], the mesh
    globals).  None of it is among the embedded sources, so every operation
    the drivers call is a parameter.  Operations read the registry of
    boundary conditions, which is passed explicitly; an operation that works
    on the field a matrix was built for ([getRHS], [Relax], [Solve]) gets
    the current value of that field as an argument. *)
Class FVLib := {
  (** [Turbulence_Model] and its two methods *)
  Turbulence_Model : Type;
  addTurbulentStress :
    Turbulence_Model -> VectorCellField -> ScalarFacetField ->
    VectorMeshMatrix -> VectorMeshMatrix;
  turb_solve :
    Registry -> Turbulence_Model -> VectorCellField -> ScalarFacetField ->
    Turbulence_Model;
  (** [equal(Scalar, Scalar)] *)
  equal : Scalar -> Scalar -> bool;
  (** [Mesh::cV], [Mesh::gBCellsStart], [MP::host_id] *)
  cV : ScalarCellField;
  gBCellsStart : Int;
  host_id : Int;
  (** explicit operators *)
  gradV : Registry -> ScalarCellField -> VectorCellField;
  grad : Registry -> ScalarCellField -> VectorCellField;
  flx : Registry -> VectorCellField -> ScalarFacetField;
  div : Registry -> VectorCellField -> ScalarCellField;
  (** implicit operators: [div(phi,F,mu)], [lap(phi,mu)] with a face or a
      cell coefficient, [ddt(phi,rho)] *)
  divm : forall T, Registry -> MeshField T -> ScalarFacetField ->
                   ScalarFacetField -> MeshMatrix T;
  lap : forall T, Registry -> MeshField T -> ScalarFacetField -> MeshMatrix T;
  lapc : forall T, Registry -> MeshField T -> ScalarCellField -> MeshMatrix T;
  ddt : forall T, Registry -> MeshField T -> Scalar -> MeshMatrix T;
  (** matrix algebra: [-M], [M1 += M2], [M1 - M2], [M *= a], [M * f],
      [M == f], [M += f], [M.Relax(a)], [getRHS(M)] *)
  mneg : forall T, MeshMatrix T -> MeshMatrix T;
  madd : forall T, MeshMatrix T -> MeshMatrix T -> MeshMatrix T;
  msub : forall T, MeshMatrix T -> MeshMatrix T -> MeshMatrix T;
  mscale : forall T, MeshMatrix T -> Scalar -> MeshMatrix T;
  mapply : forall T, MeshMatrix T -> MeshField T -> MeshField T;
  meq : forall T, MeshMatrix T -> MeshField T -> MeshMatrix T;
  maddf : forall T, MeshMatrix T -> MeshField T -> MeshMatrix T;
  mRelax : forall T, MeshMatrix T -> Scalar -> MeshField T -> MeshMatrix T;
  getRHS : forall T, MeshMatrix T -> MeshField T -> MeshField T;
  (** [Solve(M)]: the new value of the field the matrix was built for *)
  Solve : forall T, Registry -> MeshMatrix T -> MeshField T -> MeshField T;
  (** [f.Relax(old, a)], [updateExplicitBCs(f, a, b)],
      [f.FillBoundaryValues()], [bc->init_indices()] *)
  fRelax : forall T, MeshField T -> MeshField T -> Scalar -> MeshField T;
  updateExplicitBCs : forall T, Registry -> MeshField T -> bool -> bool ->
                                MeshField T;
  FillBoundaryValues : forall T, Registry -> MeshField T -> MeshField T;
  init_indices : forall T, Boundaries -> BCondition T -> BCondition T;
  (** [Mesh::findNearest(v)] *)
  findNearest : Vector -> Int
}.
Arguments divm {_ T}.
Arguments lap {_ T}.
Arguments lapc {_ T}.
Arguments ddt {_ T}.
Arguments mneg {_ T}.
Arguments madd {_ T}.
Arguments msub {_ T}.
Arguments mscale {_ T}.
Arguments mapply {_ T}.
Arguments meq {_ T}.
Arguments maddf {_ T}.
Arguments mRelax {_ T}.
Arguments getRHS {_ T}.
Arguments Solve {_ T}.
Arguments fRelax {_ T}.
Arguments updateExplicitBCs {_ T}.
Arguments FillBoundaryValues {_ T}.
Arguments init_indices {_ T}.

(** The [Controls] namespace. *)
Module Controls.
Inductive State := STEADY | TRANSIENT.
Definition State_eqb (a b : State) : bool :=
  match a, b with
  | STEADY, STEADY | TRANSIENT, TRANSIENT => true
  | _, _ => false
  end.
Record t := mk {
  start_step : Int;
  end_step : Int;
  write_interval : Int;
  dt : Scalar;
  state : State;
  time_scheme_factor : Scalar
}.
End Controls.

(** [for(Int k = 0; k < n; k++) body]: the body does not read [k]. *)
Fixpoint repeat_n {S : Type} (n : nat) (body : S -> S) (s : S) : S :=
  match n with
  | O => s
  | S k => repeat_n k body (body s)
  end.

(** [for(Int i = start; i <= last; i++) body(i)], as [count] passes from
    [i] on. *)
Fixpoint for_from {S : Type} (count : nat) (i : Int) (body : Int -> S -> S)
    (s : S) : S :=
  match count with
  | O => s
  | S k => for_from k (Datatypes.S i) body (body i s)
  end.

Definition for_range {S : Type} (start last : Int) (body : Int -> S -> S)
    (s : S) : S :=
  for_from (last + 1 - start) start body s.

(** What a driver writes: console lines of [MP::printH], and the calls of
    [Mesh::write_fields] and [Util::write_vtk] with the fields as they are
    at the call. *)
Inductive Output (Snapshot : Type) :=
| PrintStep (i : Int)
| PrintTime (t : Scalar)
| WriteFields (step : Int) (fields : Snapshot)
| WriteVtk (step : Int) (fields : Snapshot).
Arguments PrintStep {Snapshot}.
Arguments PrintTime {Snapshot}.
Arguments WriteFields {Snapshot}.
Arguments WriteVtk {Snapshot}.

(* ================================================================== *)
(** * Part IV: the drivers of [solver.cpp]                             *)
(* ================================================================== *)

(** ** [piso] *)

Module Piso.

(** The solver-specific parameters after [params.read(input)], with [rho]
    and [viscosity] of [GENERAL]. *)
Record Params := mkParams {
  rho : Scalar;
  viscosity : Scalar;
  velocity_UR : Scalar;
  pressure_UR : Scalar;
  n_PISO : Int;
  n_DEFERRED : Int;
  n_ORTHO : Int;
  LESaverage : Int
}.

(** The fields a write call sees. *)
Record Snapshot := mkSnapshot {
  sU : VectorCellField;
  sp : ScalarCellField;
  sUavg : VectorCellField;
  sUstd : VectorCellField;
  spavg : ScalarCellField;
  spstd : ScalarCellField
}.

Section Driver.

Context {L : FVLib}.

(** The variables of [piso] that change in the time loop, the registry of
    boundary conditions, and what has been written so far (console and
    files in [out], the probe files in [oUi] and [opi]). *)
Record State := mkState {
  U : VectorCellField;
  p : ScalarCellField;
  gP : VectorCellField;
  F : ScalarFacetField;
  turb : Turbulence_Model;
  Uavg : VectorCellField;
  Ustd : VectorCellField;
  pavg : ScalarCellField;
  pstd : ScalarCellField;
  step : Int;
  out : list (Output Snapshot);
  oUi : list (Int * list Vector);
  opi : list (Int * list Scalar)
}.

Definition set_U (s : State) (x : VectorCellField) : State :=
  mkState x (p s) (gP s) (F s) (turb s) (Uavg s) (Ustd s) (pavg s) (pstd s)
          (step s) (out s) (oUi s) (opi s).
Definition set_p (s : State) (x : ScalarCellField) : State :=
  mkState (U s) x (gP s) (F s) (turb s) (Uavg s) (Ustd s) (pavg s) (pstd s)
          (step s) (out s) (oUi s) (opi s).
Definition set_gP (s : State) (x : VectorCellField) : State :=
  mkState (U s) (p s) x (F s) (turb s) (Uavg s) (Ustd s) (pavg s) (pstd s)
          (step s) (out s) (oUi s) (opi s).
Definition set_F (s : State) (x : ScalarFacetField) : State :=
  mkState (U s) (p s) (gP s) x (turb s) (Uavg s) (Ustd s) (pavg s) (pstd s)
          (step s) (out s) (oUi s) (opi s).
Definition set_turb (s : State) (x : Turbulence_Model) : State :=
  mkState (U s) (p s) (gP s) (F s) x (Uavg s) (Ustd s) (pavg s) (pstd s)
          (step s) (out s) (oUi s) (opi s).
Definition set_avg (s : State) (ua us : VectorCellField)
    (pa ps : ScalarCellField) : State :=
  mkState (U s) (p s) (gP s) (F s) (turb s) ua us pa ps
          (step s) (out s) (oUi s) (opi s).
Definition set_step (s : State) (x : Int) : State :=
  mkState (U s) (p s) (gP s) (F s) (turb s) (Uavg s) (Ustd s) (pavg s) (pstd s)
          x (out s) (oUi s) (opi s).
Definition emit (s : State) (o : list (Output Snapshot)) : State :=
  mkState (U s) (p s) (gP s) (F s) (turb s) (Uavg s) (Ustd s) (pavg s) (pstd s)
          (step s) (out s ++ o) (oUi s) (opi s).
Definition set_probes (s : State) (u : list (Int * list Vector))
    (q : list (Int * list Scalar)) : State :=
  mkState (U s) (p s) (gP s) (F s) (turb s) (Uavg s) (Ustd s) (pavg s) (pstd s)
          (step s) (out s) u q.

Definition snapshot (s : State) : Snapshot :=
  mkSnapshot (U s) (p s) (Uavg s) (Ustd s) (pavg s) (pstd s).

(** [Mesh::write_fields(step); Util::write_vtk(step);] *)
Definition write (s : State) : State :=
  emit s [WriteFields (step s) (snapshot s); WriteVtk (step s) (snapshot s)].

Variable bcs : Registry.
Variable prm : Params.
Variable ctl : Controls.t.
Variable probe_points : IntVector.

(** The locals fixed before the time loop: [time_factor], [Steady], and
    [n_DEFERRED] after [if(Steady) n_DEFERRED = 0;]. *)
Definition time_factor : Scalar := Controls.time_scheme_factor ctl.
Definition Steady : bool :=
  Controls.State_eqb (Controls.state ctl) Controls.STEADY.
Definition n_DEFERRED' : Int := if Steady then 0%nat else n_DEFERRED prm.

(** The pressure equation of one non-orthogonal pass:
    [Solve((lap(p, rho * api * Mesh::cV) += div(rho * U)))]. *)
Definition pressure_pass (api : ScalarCellField) (Ua : VectorCellField)
    (p : ScalarCellField) : ScalarCellField :=
  Solve bcs
    (maddf (lapc bcs p (Field.mul (Field.scale (rho prm) api) cV))
           (div bcs (Field.scale (rho prm) Ua)))
    p.

(** [U = getRHS(M) * api; updateExplicitBCs(U,true);] *)
Definition tentative_velocity (M : VectorMeshMatrix) (api : ScalarCellField)
    (s : State) : VectorCellField :=
  updateExplicitBCs bcs (Field.muls (getRHS M (U s)) api) true false.

(** "solve pressure poisson equation to satisfy continuity": [po = p] when
    steady, the [k] loop, and [p.Relax(po,pressure_UR)] when steady. *)
Definition pressure_solution (api : ScalarCellField) (Ua : VectorCellField)
    (s : State) : ScalarCellField :=
  let po := p s in
  let p1 := repeat_n (S (n_ORTHO prm)) (pressure_pass api Ua) (p s) in
  if Steady then fRelax p1 po (pressure_UR prm) else p1.

(** [U -= gP * api;] *)
Definition velocity_correction (U gP : VectorCellField)
    (api : ScalarCellField) : VectorCellField :=
  Field.sub U (Field.muls gP api).

(** One pass of the PISO loop (the body of the [j] loop). *)
Definition piso_pass (M : VectorMeshMatrix) (api : ScalarCellField)
    (s : State) : State :=
  let Ua := tentative_velocity M api s in
  let p' := pressure_solution api Ua s in
  (* gP = -gradV(p); *)
  let gP' := Field.neg (gradV bcs p') in
  (* U -= gP * api; updateExplicitBCs(U,true); *)
  let U' := updateExplicitBCs bcs (velocity_correction Ua gP' api)
                              true false in
  set_gP (set_p (set_U s U') p') gP'.

(** The Crank-Nicolson block:
    [if(!equal(time_factor,1)) { po = M * U; M *= time_factor;
                                 M.Su -= (1 - time_factor) * po; }] *)
Definition crank_nicolson {T} {E : Elem T} (M : MeshMatrix T)
    (phi : MeshField T) : MeshMatrix T :=
  if negb (equal time_factor 1) then
    let po := mapply M phi in
    let M' := mscale M time_factor in
    set_Su M' (Field.sub (Su M') (Field.scale (1 - time_factor) po))
  else M.

(** The momentum matrix: convection and diffusion, turbulent stress, then
    relaxation (steady) or Crank-Nicolson and the time derivative. *)
Definition momentum_matrix (s : State) : VectorMeshMatrix :=
  let mu : ScalarFacetField := Field.const (rho prm * viscosity prm) in
  let M := divm bcs (U s) (F s) mu in
  let M := addTurbulentStress (turb s) (U s) (F s) M in
  if Steady then mRelax M (velocity_UR prm) (U s)
  else madd (crank_nicolson M (U s)) (ddt bcs (U s) (rho prm)).

(** "Momentum and pressure solution": the block inside the [n] loop. *)
Definition momentum_and_pressure (s : State) : State :=
  let M := momentum_matrix s in
  (* Solve(M == gP); *)
  let s1 := set_U s (Solve bcs (meq M (gP s)) (U s)) in
  (* api = 1 / M.ap *)
  let api := Field.inv 1 (ap M) in
  repeat_n (n_PISO prm) (piso_pass M api) s1.

(** The body of the deferred-correction loop. *)
Definition deferred_body (s : State) : State :=
  let s1 := momentum_and_pressure s in
  (* updateExplicitBCs(U,true,true); F = flx(rho * U); turb->solve(); *)
  let U' := updateExplicitBCs bcs (U s1) true true in
  let F' := flx bcs (Field.scale (rho prm) U') in
  set_turb (set_F (set_U s1 U') F') (turb_solve bcs (turb s1) U' F').

(** [if(LESaverage) { Uavg += U; pavg += p; Ustd += U*U; pstd += p*p; }] *)
Definition les_accumulate (s : State) : State :=
  if Nat.eqb (LESaverage prm) 0 then s
  else set_avg s (Field.add (Uavg s) (U s))
                 (Field.add (Ustd s) (Field.mul (U s) (U s)))
                 (Field.add (pavg s) (p s))
                 (Field.add (pstd s) (Field.mul (p s) (p s))).

(** The probe files: one line per step. *)
Definition probe_lines (i : Int) (s : State) : State :=
  match probe_points with
  | [] => s
  | _ => set_probes s
           (oUi s ++ [(i, map (U s) probe_points)])
           (opi s ++ [(i, map (p s) probe_points)])
  end.

(** The LES branch of a write: mean and deviation are put into the four
    fields, written, and the sums are put back. *)
Definition les_checkpoint (i : Int) (s : State) : State :=
  let Ua := Uavg s in
  let Us := Ustd s in
  let pa := pavg s in
  let ps := pstd s in
  let n : Scalar := INR i in
  (* Uavg /= n; pavg /= n; *)
  let Uavg1 := Field.divs (Uavg s) n in
  let pavg1 := Field.divs (pavg s) n in
  (* Ustd += Uavg * (n * Uavg - 2 * Ua); same for p *)
  let Ustd1 := Field.add (Ustd s)
                 (Field.mul Uavg1
                    (Field.sub (Field.scale n Uavg1) (Field.scale 2 Ua))) in
  let pstd1 := Field.add (pstd s)
                 (Field.mul pavg1
                    (Field.sub (Field.scale n pavg1) (Field.scale 2 pa))) in
  (* Ustd = sqrt(Ustd / n); pstd = sqrt(pstd / n); *)
  let Ustd2 := Field.sqrt (Field.divs Ustd1 n) in
  let pstd2 := Field.sqrt (Field.divs pstd1 n) in
  let s1 := write (set_avg s Uavg1 Ustd2 pavg1 pstd2) in
  (* Uavg = Ua; Ustd = Us; pavg = pa; pstd = ps; *)
  set_avg s1 Ua Us pa ps.

(** "write result to file". *)
Definition write_result (i : Int) (s : State) : State :=
  if Nat.eqb (i mod Controls.write_interval ctl) 0 then
    let s1 := set_step s (i / Controls.write_interval ctl)%nat in
    if Nat.eqb (LESaverage prm) 0 then write s1 else les_checkpoint i s1
  else s.

(** "Print step". *)
Definition print_step (i : Int) (s : State) : State :=
  if Nat.eqb host_id 0 then
    emit s [if Steady then PrintStep i
            else PrintTime (INR i * Controls.dt ctl)]
  else s.

(** The body of the time loop. *)
Definition time_step (i : Int) (s : State) : State :=
  let s := print_step i s in
  let s := repeat_n (S n_DEFERRED') deferred_body s in
  let s := les_accumulate s in
  let s := probe_lines i s in
  write_result i s.

(** [piso], from "Read at selected start time step" on; [s0] holds the
    fields as [Mesh::read_fields(step)] left them.  The call of
    [Mesh::calc_walldist] that two turbulence models ask for is embedded on
    its own below; [bcs] is the registry after it, and what that call
    writes is not in [out]: [PisoDriver.piso] has the run with the call in
    its place. *)
Definition piso (s0 : State) : State :=
  let step := (Controls.start_step ctl / Controls.write_interval ctl)%nat in
  let start := (Controls.write_interval ctl * step + 1)%nat in
  (* VectorCellField gP = -gradV(p); F = flx(rho * U); *)
  (* Mesh::read_fields(step); Util::write_vtk(step); *)
  let s := set_step s0 step in
  let s := emit s [WriteVtk step (snapshot s)] in
  let s := set_gP s (Field.neg (gradV bcs (p s))) in
  let s := set_F s (flx bcs (Field.scale (rho prm) (U s))) in
  for_range start (Controls.end_step ctl) time_step s.

End Driver.

End Piso.

(** ** [diffusion] and [transport] *)

Module Scalar_Transport.

(** The parameters of both drivers after [Util::read_params(input)]. *)
Record Params := mkParams {
  rho : Scalar;
  DT : Scalar;
  t_UR : Scalar;
  n_DEFERRED : Int
}.

(** The fields a write call sees ([U] only in [transport]). *)
Record Snapshot := mkSnapshot {
  sT : ScalarCellField;
  sU : option VectorCellField
}.

Record State := mkState {
  T : ScalarCellField;
  F : ScalarFacetField;
  step : Int;
  out : list (Output Snapshot)
}.

Definition set_T (s : State) (x : ScalarCellField) : State :=
  mkState x (F s) (step s) (out s).
Definition set_F (s : State) (x : ScalarFacetField) : State :=
  mkState (T s) x (step s) (out s).
Definition set_step (s : State) (x : Int) : State :=
  mkState (T s) (F s) x (out s).
Definition emit (s : State) (o : list (Output Snapshot)) : State :=
  mkState (T s) (F s) (step s) (out s ++ o).

Section Driver.

Context {L : FVLib}.

Variable bcs : Registry.
Variable prm : Params.
Variable ctl : Controls.t.

Definition time_factor : Scalar := Controls.time_scheme_factor ctl.
Definition Steady : bool :=
  Controls.State_eqb (Controls.state ctl) Controls.STEADY.
Definition n_DEFERRED' : Int := if Steady then 0%nat else n_DEFERRED prm.

(** The Crank-Nicolson block, as it is written in both drivers. *)
Definition crank_nicolson (M : ScalarMeshMatrix) (T : ScalarCellField)
  : ScalarMeshMatrix :=
  if negb (equal time_factor 1) then
    let po := mapply M T in
    let M' := mscale M time_factor in
    set_Su M' (Field.sub (Su M') (Field.scale (1 - time_factor) po))
  else M.

(** [if(Steady) M.Relax(t_UR); else { Crank-Nicolson; M += ddt(T,rho); }] *)
Definition relax_or_time (M : ScalarMeshMatrix) (T : ScalarCellField)
  : ScalarMeshMatrix :=
  if Steady then mRelax M (t_UR prm) T
  else madd (crank_nicolson M T) (ddt bcs T (rho prm)).

Definition print_step (i : Int) (s : State) : State :=
  if Nat.eqb host_id 0 then
    emit s [if Steady then PrintStep i
            else PrintTime (INR i * Controls.dt ctl)]
  else s.

Definition write_result (snap : State -> Snapshot) (i : Int) (s : State)
  : State :=
  if Nat.eqb (i mod Controls.write_interval ctl) 0 then
    let s1 := set_step s (i / Controls.write_interval ctl)%nat in
    emit s1 [WriteFields (step s1) (snap s1); WriteVtk (step s1) (snap s1)]
  else s.

(** *** [diffusion] *)

Definition diffusion_snapshot (s : State) : Snapshot := mkSnapshot (T s) None.

(** The body of the [n] loop: [M = -lap(T,mu); ...; Solve(M);] *)
Definition diffusion_body (mu : ScalarFacetField) (s : State) : State :=
  let M := mneg (lap bcs (T s) mu) in
  let M := relax_or_time M (T s) in
  set_T s (Solve bcs M (T s)).

Definition diffusion_time_step (mu : ScalarFacetField) (i : Int) (s : State)
  : State :=
  let s := print_step i s in
  let s := repeat_n (S n_DEFERRED') (diffusion_body mu) s in
  write_result diffusion_snapshot i s.

Definition diffusion (s0 : State) : State :=
  let step := (Controls.start_step ctl / Controls.write_interval ctl)%nat in
  let start := (Controls.write_interval ctl * step + 1)%nat in
  let s := set_step s0 step in
  let s := emit s [WriteVtk step (diffusion_snapshot s)] in
  let mu : ScalarFacetField := Field.const (rho prm * DT prm) in
  for_range start (Controls.end_step ctl) (diffusion_time_step mu) s.

(** *** [transport] *)

Variable U : VectorCellField.

Definition transport_snapshot (s : State) : Snapshot :=
  mkSnapshot (T s) (Some U).

(** The body of the [n] loop:
    [F = flx(rho * U); M = div(T,F,mu) - lap(T,mu); ...; Solve(M);] *)
Definition transport_body (mu : ScalarFacetField) (s : State) : State :=
  let s := set_F s (flx bcs (Field.scale (rho prm) U)) in
  let M := msub (divm bcs (T s) (F s) mu) (lap bcs (T s) mu) in
  let M := relax_or_time M (T s) in
  set_T s (Solve bcs M (T s)).

Definition transport_time_step (mu : ScalarFacetField) (i : Int) (s : State)
  : State :=
  let s := print_step i s in
  let s := repeat_n (S n_DEFERRED') (transport_body mu) s in
  write_result transport_snapshot i s.

Definition transport (s0 : State) : State :=
  let step := (Controls.start_step ctl / Controls.write_interval ctl)%nat in
  let start := (Controls.write_interval ctl * step + 1)%nat in
  let s := set_step s0 step in
  let s := emit s [WriteVtk step (transport_snapshot s)] in
  let mu : ScalarFacetField := Field.const (rho prm * DT prm) in
  for_range start (Controls.end_step ctl) (transport_time_step mu) s.

End Driver.

End Scalar_Transport.

(** ** [potential] *)

Module Potential.

Record Snapshot := mkSnapshot {
  sU : VectorCellField;
  sp : ScalarCellField
}.

Record State := mkState {
  U : VectorCellField;
  p : ScalarCellField;
  out : list (Output Snapshot)
}.

Section Driver.

Context {L : FVLib}.

Variable bcs : Registry.
Variable ctl : Controls.t.
Variable n_ORTHO : Int.

(** "set internal field to zero": the cells below [Mesh::gBCellsStart]. *)
Definition zero_internal {T} (zero : T) (f : MeshField T) : MeshField T :=
  fun i => if Nat.ltb i gBCellsStart then zero else f i.

(** The velocity and the pressure the potential equation starts from. *)
Definition initial_U (s0 : State) : VectorCellField :=
  updateExplicitBCs bcs (zero_internal (mkVector 0 0 0) (U s0)) true false.
Definition initial_p (s0 : State) : ScalarCellField :=
  updateExplicitBCs bcs (zero_internal 0 (p s0)) true false.

(** One pass of the [k] loop: [Solve(lap(p,one) == divU);] *)
Definition potential_pass (divU : ScalarCellField) (p : ScalarCellField)
  : ScalarCellField :=
  let one : ScalarFacetField := Field.const 1 in
  Solve bcs (meq (lap bcs p one) divU) p.

Definition potential (s0 : State) : State :=
  let step := (Controls.start_step ctl / Controls.write_interval ctl)%nat in
  let U0 := initial_U s0 in
  let p0 := initial_p s0 in
  (* divU = div(U); the k loop *)
  let divU := div bcs U0 in
  let p1 := repeat_n (S n_ORTHO) (potential_pass divU) p0 in
  (* U -= grad(p); updateExplicitBCs(U,true); *)
  let U1 := updateExplicitBCs bcs (Field.sub U0 (grad bcs p1)) true false in
  mkState U1 p1
    (out s0 ++ [WriteFields step (mkSnapshot U1 p1);
                WriteVtk step (mkSnapshot U1 p1)]).

End Driver.

End Potential.

(** ** [Mesh::calc_walldist] *)

Module Walldist.

Local Open Scope string_scope.

(** [bname.find("WALL") != std::string::npos] *)
Definition find (s pattern : string) : option nat := String.index 0 pattern s.
Definition is_wall (bname : string) : bool :=
  match find bname "WALL" with
  | Some _ => true
  | None => false
  end.

Record Result := mkResult {
  AllBConditions : Registry;
  phi : ScalarCellField;
  yWall : ScalarCellField;
  out : list (Output ScalarCellField)
}.

Section Driver.

Context {L : FVLib}.

(** The boundary condition made for one patch. *)
Definition wall_bc (gBoundaries : Boundaries) (phi_fName : string)
    (bname : string) : BCondition Scalar :=
  let bc :=
    if is_wall bname
    then mkBCondition phi_fName bname "DIRICHLET" 0%R []
    else mkBCondition phi_fName bname "NEUMANN" 0%R [] in
  init_indices gBoundaries bc.

(** The loop over [gBoundaries]: one [push_back] per patch. *)
Definition add_wall_bcs (gBoundaries : Boundaries) (phi_fName : string)
    (bcs : Registry) : Registry :=
  fold_left
    (fun acc it =>
       (acc ++ [ScalarBC (wall_bc gBoundaries phi_fName (fst it))])%list)
    gBoundaries bcs.

(** [phi_fName] is the name of the local field [phi]. *)
Definition calc_walldist (gBoundaries : Boundaries) (phi_fName : string)
    (bcs0 : Registry) (step : Int) : Result :=
  let bcs := add_wall_bcs gBoundaries phi_fName bcs0 in
  (* phi = Scalar(0); updateExplicitBCs(phi,true,true); *)
  let phi0 := updateExplicitBCs bcs (Field.const 0%R) true true in
  (* Solve(lap(phi,one) == -cV); *)
  let one : ScalarFacetField := Field.const 1%R in
  let phi1 := Solve bcs (meq (lap bcs phi0 one) (Field.neg cV)) phi0 in
  (* g = grad(phi); g.FillBoundaryValues(); *)
  let g := FillBoundaryValues bcs (grad bcs phi1) in
  (* yWall = sqrt((g & g) + 2 * phi) - mag(g); *)
  let yWall :=
    Field.sub (Field.sqrt (Field.add (Field.dot g g) (Field.scale 2%R phi1)))
              (Field.mag g) in
  mkResult bcs phi1 yWall [WriteFields step yWall; WriteVtk step yWall].

End Driver.

End Walldist.

(* ================================================================== *)
(** * Part V: the matrix algebra of section 4.3                        *)
(* ================================================================== *)

Module MatrixModel.

(** Modelled from the spec: the mesh adjacency ([mesh.h] is not among the
    sources).  Each internal face has one owner and one neighbour cell
    (section 3); the faces are listed in index order. *)
Record Face := mkFace { owner : Int; neighbor : Int }.
Definition Mesh := list Face.

Section Algebra.

Context {T : Type} {E : Elem T}.
Variable mesh : Mesh.

(** Modelled from the spec: the product of the off-diagonals with a field
    ([field.h] is not among the sources).  Face [f] carries two coefficients
    (section 3), one for the row of its owner and one for the row of its
    neighbour; each multiplies the value in the cell across the face. *)
Fixpoint off_diag_from (faces : list Face) (f : Int) (M : MeshMatrix T)
    (phi : MeshField T) (c : Int) : T :=
  match faces with
  | [] => tzero
  | fc :: rest =>
      let r := off_diag_from rest (S f) M phi c in
      let r := if Nat.eqb (owner fc) c
               then tadd r (tscale (snd (an M f)) (phi (neighbor fc)))
               else r in
      if Nat.eqb (neighbor fc) c
      then tadd r (tscale (fst (an M f)) (phi (owner fc)))
      else r
  end.

Definition off_diag (M : MeshMatrix T) (phi : MeshField T) : MeshField T :=
  off_diag_from mesh 0%nat M phi.

(** Modelled from the spec: [getRHS(M) = Su + off_diag * phi_current]
    (section 4.3; [field.h] is not among the sources). *)
Definition getRHS (M : MeshMatrix T) (phi : MeshField T) : MeshField T :=
  fun c => tadd (Su M c) (off_diag M phi c).

(** Modelled from the spec: the matrix-free product [M * field] of section
    4.3 ([field.h] is not among the sources), with the sign convention
    [A phi = Su] under which [getRHS(M) / ap] is the value of the cell:
    [A phi = ap * phi - off_diag * phi]. *)
Definition apply (M : MeshMatrix T) (phi : MeshField T) : MeshField T :=
  fun c => tsub (tscale (ap M c) (phi c)) (off_diag M phi c).

(** Modelled from the spec: [M.Relax(alpha)] of section 4.3 ([field.h] is
    not among the sources): "divide diagonal by alpha, add
    (1 - alpha)/alpha * ap_old * phi_current to Su". *)
Definition Relax (M : MeshMatrix T) (alpha : Scalar) (phi : MeshField T)
  : MeshMatrix T :=
  mkMeshMatrix
    (fun c => ap M c / alpha)
    (an M)
    (fun c => tadd (Su M c) (tscale ((1 - alpha) / alpha * ap M c) (phi c)))
    (flags M).

(** [phi] satisfies [A phi = Su]. *)
Definition fixed_point (M : MeshMatrix T) (phi : MeshField T) : Prop :=
  forall c, apply M phi c = Su M c.

End Algebra.

End MatrixModel.

(** ** The source operators of section 4.3 and the pressure equation *)

Module EquationModel.

Section Sources.

Context {T : Type} {E : Elem T}.

(** Modelled from the spec: [M += f] for a matrix and a cell field, the
    [M +- field_source] of section 4.3 ([field.h] is not among the
    sources): the field joins the explicit source [Su]; diagonal and
    off-diagonals stay. *)
Definition add_source (M : MeshMatrix T) (f : MeshField T) : MeshMatrix T :=
  set_Su M (Field.add (Su M) f).


End Sources.

End EquationModel.

(** The pressure part of a PISO pass with the [+=] of line 291 modelled as
    above; everything else is the pass of [Piso]. *)
Module PisoModel.

Section Driver.

Context {L : FVLib}.
Variables (bcs : Registry) (prm : Piso.Params) (ctl : Controls.t).

(** [lap(p, rho * api * Mesh::cV) += div(rho * U)] *)
Definition pressure_system (api : ScalarCellField) (Ua : VectorCellField)
    (p : ScalarCellField) : ScalarMeshMatrix :=
  EquationModel.add_source
    (lapc bcs p (Field.mul (Field.scale (Piso.rho prm) api) cV))
    (div bcs (Field.scale (Piso.rho prm) Ua)).

(** [Solve((lap(p, rho * api * Mesh::cV) += div(rho * U)))] *)
Definition pressure_pass (api : ScalarCellField) (Ua : VectorCellField)
    (p : ScalarCellField) : ScalarCellField :=
  Solve bcs (pressure_system api Ua p) p.

(** "solve pressure poisson equation to satisfy continuity": [po = p] when
    steady, the [k] loop, and [p.Relax(po,pressure_UR)] when steady. *)
Definition pressure_solution (api : ScalarCellField) (Ua : VectorCellField)
    (s : Piso.State) : ScalarCellField :=
  let po := Piso.p s in
  let p1 := repeat_n (S (Piso.n_ORTHO prm)) (pressure_pass api Ua)
                     (Piso.p s) in
  if Piso.Steady ctl then fRelax p1 po (Piso.pressure_UR prm) else p1.

(** One pass of the PISO loop (the body of the [j] loop). *)
Definition piso_pass (M : VectorMeshMatrix) (api : ScalarCellField)
    (s : Piso.State) : Piso.State :=
  let Ua := Piso.tentative_velocity bcs M api s in
  let p' := pressure_solution api Ua s in
  (* gP = -gradV(p); *)
  let gP' := Field.neg (gradV bcs p') in
  (* U -= gP * api; updateExplicitBCs(U,true); *)
  let U' := updateExplicitBCs bcs (Piso.velocity_correction Ua gP' api)
                              true false in
  Piso.set_gP (Piso.set_p (Piso.set_U s U') p') gP'.

End Driver.

End PisoModel.

(* ================================================================== *)
(** * Part VI: formulas and sample data used in the statements         *)
(* ================================================================== *)

Module Stats.

(** The deviation as [piso] computes it from the number of steps and the
    sums of the values and of their squares. *)
Definition deviation (n sum sumsq : Scalar) : Scalar :=
  let mean := sum / n in
  sqrt ((sumsq - 2 * mean * sum + n * (mean * mean)) / n).

(** The closed form: root of the mean square minus the squared mean. *)
Definition closed_form (n sum sumsq : Scalar) : Scalar :=
  let mean := sum / n in
  sqrt (sumsq / n - mean * mean).

Definition vdeviation (n : Scalar) (sum sumsq : Vector) : Vector :=
  vmap2 (deviation n) sum sumsq.
Definition vclosed_form (n : Scalar) (sum sumsq : Vector) : Vector :=
  vmap2 (closed_form n) sum sumsq.

End Stats.

Module Sample.

(** [equal] as exact equality of real numbers. *)
Definition Req_bool (a b : Scalar) : bool :=
  if Req_dec_T a b then true else false.

(** A one-dimensional stand-in for the operator library, for evaluating
    the drivers: the gradient of [p] is [(p,0,0)], the divergence of [U] is
    its first component, every assembled matrix has unit diagonal and the
    field as source, [M == f] and [M += f] put [f] into the source, and
    [Solve] returns the source; the other operations change nothing. *)
Definition unit_matrix {T} (phi : MeshField T) : MeshMatrix T :=
  mkMeshMatrix (Field.const 1) (fun _ => (0, 0)) phi 0%nat.

#[local] Instance lib : FVLib := {|
  Turbulence_Model := unit;
  addTurbulentStress := fun _ _ _ M => M;
  turb_solve := fun _ t _ _ => t;
  equal := Req_bool;
  cV := Field.const 1;
  gBCellsStart := 1%nat;
  host_id := 0%nat;
  gradV := fun _ p c => mkVector (p c) 0 0;
  grad := fun _ p c => mkVector (p c) 0 0;
  flx := fun _ U f => vx (U f);
  div := fun _ U c => vx (U c);
  divm := fun T _ phi _ _ => unit_matrix phi;
  lap := fun T _ phi _ => unit_matrix phi;
  lapc := fun T _ phi _ => unit_matrix phi;
  ddt := fun T _ phi _ => unit_matrix phi;
  mneg := fun T M => M;
  madd := fun T M _ => M;
  msub := fun T M _ => M;
  mscale := fun T M _ => M;
  mapply := fun T _ f => f;
  meq := fun T M f => set_Su M f;
  maddf := fun T M f => set_Su M f;
  mRelax := fun T M _ _ => M;
  getRHS := fun T M _ => Su M;
  Solve := fun T _ M _ => Su M;
  fRelax := fun T f _ _ => f;
  updateExplicitBCs := fun T _ f _ _ => f;
  FillBoundaryValues := fun T _ f => f;
  init_indices := fun T _ bc => bc;
  findNearest := fun _ => 0%nat
|}.

(** Steady and transient controls: steps 1 to 2, a write at every step. *)
Definition steady : Controls.t :=
  Controls.mk 0%nat 2%nat 1%nat (1 / 10) Controls.STEADY 1.
Definition transient (theta : Scalar) : Controls.t :=
  Controls.mk 0%nat 2%nat 1%nat (1 / 10) Controls.TRANSIENT theta.

(** [piso] parameters: the defaults of the source, with [n_DEFERRED],
    [n_ORTHO] and [les_average] given. *)
Definition piso_params (n_DEFERRED n_ORTHO LESaverage : Int) : Piso.Params :=
  Piso.mkParams 1 (1 / 100000) (8 / 10) (5 / 10) 1%nat n_DEFERRED n_ORTHO
                LESaverage.

(** A [piso] state: velocity [(3,0,0)], pressure [2], empty sums. *)
Definition piso_state : Piso.State :=
  Piso.mkState (Field.const (mkVector 3 0 0)) (Field.const 2)
    (Field.const (mkVector 0 0 0)) (Field.const 0) tt
    (Field.const (mkVector 0 0 0)) (Field.const (mkVector 0 0 0))
    (Field.const 0) (Field.const 0) 0%nat [] [] [].

Definition scalar_params (n_DEFERRED : Int) : Scalar_Transport.Params :=
  Scalar_Transport.mkParams 1 1 1 n_DEFERRED.

Definition scalar_state : Scalar_Transport.State :=
  Scalar_Transport.mkState (Field.const 1) (Field.const 0) 0%nat [].

(** Two cells joined by one face; the matrix [2 -1; -1 2] with source 1,
    which the field [1] solves. *)
Definition two_cells : MatrixModel.Mesh := [MatrixModel.mkFace 0%nat 1%nat].
Definition two_cell_matrix : MeshMatrix Scalar :=
  mkMeshMatrix (fun c => if Nat.ltb c 2 then 2 else 1) (fun _ => (1, 1))
               (Field.const 1) 0%nat.

End Sample.

Module DriverSpec.

(** The Crank-Nicolson rewrite of section 4.2 for a factor [theta]:
    [M <- theta M], then [Su <- Su - (1 - theta) (M phi)], where the product
    is taken with the assembled matrix and the current field. *)
Definition crank_nicolson_rewrite {L : FVLib} {T} {E : Elem T}
    (theta : Scalar) (M : MeshMatrix T) (phi : MeshField T) : MeshMatrix T :=
  let M' := mscale M theta in
  set_Su M' (fun c => tsub (Su M' c) (tscale (1 - theta) (mapply M phi c))).

(** [equal] decides equality of scalars (the exact-arithmetic reading of
    the library's comparison). *)
Definition equal_is_exact {L : FVLib} : Prop :=
  forall a b, equal a b = true <-> a = b.

(** The configuration with another value of [n_DEFERRED]. *)
Definition piso_with_n_DEFERRED (prm : Piso.Params) (n : Int) : Piso.Params :=
  Piso.mkParams (Piso.rho prm) (Piso.viscosity prm) (Piso.velocity_UR prm)
    (Piso.pressure_UR prm) (Piso.n_PISO prm) n (Piso.n_ORTHO prm)
    (Piso.LESaverage prm).

Definition scalar_with_n_DEFERRED (prm : Scalar_Transport.Params) (n : Int)
  : Scalar_Transport.Params :=
  Scalar_Transport.mkParams (Scalar_Transport.rho prm)
    (Scalar_Transport.DT prm) (Scalar_Transport.t_UR prm) n.

(** Two [piso] states with the same running sums and the same output. *)
Definition same_sums {L : FVLib} (s s' : Piso.State) : Prop :=
  Piso.Uavg s' = Piso.Uavg s /\ Piso.Ustd s' = Piso.Ustd s /\
  Piso.pavg s' = Piso.pavg s /\ Piso.pstd s' = Piso.pstd s /\
  Piso.out s' = Piso.out s.

(** The state of [piso] in time step [i] when the deferred-correction loop
    has finished. *)
Definition piso_after_solves {L : FVLib} (bcs : Registry) (prm : Piso.Params)
    (ctl : Controls.t) (i : Int) (s : Piso.State) : Piso.State :=
  repeat_n (S (Piso.n_DEFERRED' prm ctl)) (Piso.deferred_body bcs prm ctl)
           (Piso.print_step ctl i s).

(** A patch name contains [WALL]. *)
Definition contains_WALL (bname : string) : Prop :=
  exists m : nat, substring m 4 bname = "WALL"%string.

End DriverSpec.

(* ================================================================== *)
(** * Part VII: the rest of [util.h] and of the drivers' set-up         *)
(* ================================================================== *)

(** ** The vector helpers of [util.h] *)

Module VectorUtil.

Import Util.
Local Open Scope string_scope.
Local Close Scope R_scope.

Section Equal.

Context {T : Type}.
(** [operator ==] of the element type. *)
Variable eqb : T -> T -> bool.

(** The inner loop of [equal]: the value of [j] when the loop is left,
    counting from [j]. *)
Fixpoint inner_loop (x : T) (v2 : List.list T) (j : nat) : nat :=
  match v2 with
  | [] => j
  | y :: v2' => if eqb x y then j else inner_loop x v2' (S j)
  end.

(** [equal(v1, v2)]: for each element of [v1] the inner loop must stop
    before the end of [v2]. *)
Fixpoint equal (v1 v2 : List.list T) : bool :=
  match v1 with
  | [] => true
  | x :: v1' =>
      if Nat.eqb (inner_loop x v2 0) (List.length v2) then false
      else equal v1' v2
  end.

End Equal.

(** Insertion into and extraction from a stream of whitespace-separated
    tokens, and the value a [resize] fills in. *)
Class TokenIO (T : Type) := {
  put : T -> istream;
  get : istream -> T -> T * istream;
  fresh : T
}.

(** [is >> symbol] for a [char]: one character is taken off the stream. *)
Definition skip_char (inp : istream) : istream :=
  match inp with
  | [] => []
  | EmptyString :: inp' => inp'
  | String _ EmptyString :: inp' => inp'
  | String _ t :: inp' => t :: inp'
  end.

Section IO.

Context {T : Type} {IOT : TokenIO T} {IOInt : TokenIO Int}.

(** [operator << (ostream&, const std::vector<T>&)]: the size, an opening
    brace, the elements and a closing brace, each followed by [endl]. *)
Definition vector_put (p : List.list T) : istream :=
  (put (List.length p) ++ ["{"] ++ flat_map put p ++ ["}"])%list.

(** [p.resize(size)]. *)
Definition resize (p : List.list T) (size : nat) : List.list T :=
  (firstn size p ++ repeat fresh (size - List.length p))%list.

(** The loop [for(i = 0; i < size; i++) is >> p[i];]. *)
Fixpoint get_elements (p : List.list T) (inp : istream)
  : List.list T * istream :=
  match p with
  | [] => ([], inp)
  | x :: p' =>
      let '(x', inp1) := get inp x in
      let '(r, inp2) := get_elements p' inp1 in
      (x' :: r, inp2)
  end.

(** [operator >> (istream&, std::vector<T>&)]. *)
Definition vector_get (inp : istream) (p : List.list T)
  : List.list T * istream :=
  let '(size, inp1) := get inp (fresh : Int) in
  let inp2 := skip_char inp1 in
  let '(p', inp3) := get_elements (resize p size) inp2 in
  (p', skip_char inp3).

End IO.

(** The characters ['0'] to ['9']. *)
Definition is_digit (c : ascii) : bool :=
  let n := nat_of_ascii c in Nat.leb 48 n && Nat.leb n 57.

(** The leading digits of a token, and what follows them. *)
Fixpoint digits_prefix (s : string) : string * string :=
  match s with
  | EmptyString => (EmptyString, EmptyString)
  | String c s' =>
      if is_digit c
      then let '(d, r) := digits_prefix s' in (String c d, r)
      else (EmptyString, s)
  end.

(** Unsigned integers in decimal.  [os << n] writes the digits of [n];
    [is >> n] takes the digits the next token starts with and leaves the
    rest of the token on the stream.  At the end of the input nothing is
    read and [n] keeps its value; at a token that starts with no digit the
    extraction fails: [n] becomes [0] and the stream, which answers no
    further extraction, is left as at its end.  A leading sign and a value
    beyond the range of [Int] are not modelled. *)
Definition decimal_IO : TokenIO Int :=
  {| put := fun n => [NilEmpty.string_of_uint (Nat.to_uint n)];
     get := fun inp old =>
       match inp with
       | [] => (old, [])
       | t :: inp' =>
           match digits_prefix t with
           | (EmptyString, _) => (0, [])
           | (d, r) =>
               (match NilEmpty.uint_of_string d with
                | Some u => Nat.of_uint u
                | None => 0
                end,
                match r with
                | EmptyString => inp'
                | _ => r :: inp'
                end)
           end
       end;
     fresh := 0 |}.

End VectorUtil.

(** ** The set-up of [piso]: options and the choice of the turbulence model *)

Module PisoSetup.

Import Util.
Local Open Scope string_scope.
Local Close Scope R_scope.

(** The classes the [switch] on [turb_model] constructs. *)
Inductive ModelClass :=
| Turbulence_Model_class
| MixingLength_Model
| KE_Model
| RNG_KE_Model
| REALIZABLE_KE_Model
| KW_Model
| LES_Model.

(** [enum TurbModel {NONE,MIXING_LENGTH,KE,RNG_KE,REALIZABLE_KE,KW,LES}]
    as the integers the option stores, and the [switch]: the class that is
    constructed and the value of [needWallDist]. *)
Definition select_model (turb_model : Int) : ModelClass * bool :=
  match turb_model with
  | 2%nat => (KE_Model, false)
  | 1%nat => (MixingLength_Model, true)
  | 3%nat => (RNG_KE_Model, false)
  | 4%nat => (REALIZABLE_KE_Model, false)
  | 5%nat => (KW_Model, false)
  | 6%nat => (LES_Model, true)
  | _ => (Turbulence_Model_class, false)
  end.

(** The two options of [piso] with their initial values ([turb_model = KE],
    [LESaverage = 0]), the values after a [turbulence_model] and a
    [les_average] token have been extracted, and what is printed. *)
Definition turbulence_model_option : Option :=
  mkOption 2
    ["NONE"; "MIXING_LENGTH"; "KE"; "RNG_KE"; "REALIZABLE_KE"; "KW"; "LES"].
Definition les_average_option : Option := BoolOption 0.

(** The [enroll] overloads of [ParamList] that [solver.cpp] uses (the
    [addParam] macro): each goes to the member of its type. *)
Definition enroll_Int (pl : ParamList) (str : string) (addr : Int) :=
  set_Int pl (Parameters_enroll (params_Int pl) str addr).
Definition enroll_Scalar (pl : ParamList) (str : string) (addr : Scalar) :=
  set_Scalar pl (Parameters_enroll (params_Scalar pl) str addr).
Definition enroll_Vector (pl : ParamList) (str : string) (addr : Vector) :=
  set_Vector pl (Parameters_enroll (params_Vector pl) str addr).
Definition enroll_string (pl : ParamList) (str : string) (addr : string) :=
  set_string pl (Parameters_enroll (params_string pl) str addr).
Definition enroll_Option (pl : ParamList) (str : string) (addr : Option) :=
  set_Option pl (Parameters_enroll (params_Option pl) str addr).

(** [Util::ParamList params(n)] before any [enroll]. *)
Definition new_ParamList (n : string) : ParamList :=
  mkParamList n [] [] [] [] [] [] [] [] [] [] [].

(** The parameter list of [piso] when [params.read(input)] is called. *)
Definition piso_ParamList : ParamList :=
  let params := new_ParamList "piso" in
  let params := enroll_Scalar params "velocity_UR" (8 / 10)%R in
  let params := enroll_Scalar params "pressure_UR" (5 / 10)%R in
  let params := enroll_Int params "n_PISO" 1 in
  let params := enroll_Int params "n_ORTHO" 0 in
  let params := enroll_Int params "n_DEFERRED" 0 in
  let params := enroll_Option params "turbulence_model"
                              turbulence_model_option in
  enroll_Option params "les_average" les_average_option.

Definition read_turbulence_model (token : string) : Int * cout :=
  let '(o, _, out) := Option_extract [token] turbulence_model_option in
  (val o, out).

Definition read_les_average (token : string) : Int * cout :=
  let '(o, _, out) := Option_extract [token] les_average_option in
  (val o, out).

End PisoSetup.

(** ** [ke.h] *)

Module KE.

Local Open Scope R_scope.

(** [KE_Model::calcEddyMu]: [eddy_mu = (rho * Cmu * k * k) / x], on the
    fields [k] and [x] of the model, element by element. *)
Definition calcEddyMu (rho Cmu : Scalar) (k x : ScalarCellField)
  : ScalarCellField :=
  fun c => rho * Cmu * k c * k c / x c.

(** [KE_Model::calcX]: [pow(ustar,3) / (kappa * y)]. *)
Definition calcX (ustar kappa y : Scalar) : Scalar :=
  ustar ^ 3 / (kappa * y).

End KE.

(** ** A second stand-in for the operator library *)

Module Sample2.

(** The sample library with a linear solver that does no iteration:
    [Solve] returns the field it was started from. *)
#[local] Instance lib : FVLib := {|
  Turbulence_Model := @Turbulence_Model Sample.lib;
  addTurbulentStress := @addTurbulentStress Sample.lib;
  turb_solve := @turb_solve Sample.lib;
  equal := @equal Sample.lib;
  cV := @cV Sample.lib;
  gBCellsStart := @gBCellsStart Sample.lib;
  host_id := @host_id Sample.lib;
  gradV := @gradV Sample.lib;
  grad := @grad Sample.lib;
  flx := @flx Sample.lib;
  div := @div Sample.lib;
  divm := @divm Sample.lib;
  lap := @lap Sample.lib;
  lapc := @lapc Sample.lib;
  ddt := @ddt Sample.lib;
  mneg := @mneg Sample.lib;
  madd := @madd Sample.lib;
  msub := @msub Sample.lib;
  mscale := @mscale Sample.lib;
  mapply := @mapply Sample.lib;
  meq := @meq Sample.lib;
  maddf := @maddf Sample.lib;
  mRelax := @mRelax Sample.lib;
  getRHS := @getRHS Sample.lib;
  Solve := fun T _ _ f => f;
  fRelax := @fRelax Sample.lib;
  updateExplicitBCs := @updateExplicitBCs Sample.lib;
  FillBoundaryValues := @FillBoundaryValues Sample.lib;
  init_indices := @init_indices Sample.lib;
  findNearest := @findNearest Sample.lib
|}.

End Sample2.

(** ** What the statements about the drivers' output use *)

Module OutputSpec.

Local Close Scope R_scope.

(** The step numbers of the [Mesh::write_fields] calls, in order. *)
Fixpoint written_steps {S : Type} (out : list (Output S)) : list Int :=
  match out with
  | [] => []
  | WriteFields step _ :: out' => step :: written_steps out'
  | _ :: out' => written_steps out'
  end.

(** The checkpoint a step with number [i] writes, for a write interval
    [w]: none, or the one with number [i / w]. *)
Definition checkpoint_of (w i : nat) : list nat :=
  if Nat.eqb (i mod w) 0 then [i / w] else [].

(** In a [piso] state the pressure-gradient field and the mass flux are
    those of the pressure and the velocity of the state. *)
Definition gP_and_F_consistent {L : FVLib} (bcs : Registry)
    (prm : Piso.Params) (s : Piso.State) : Prop :=
  Piso.gP s = Field.neg (gradV bcs (Piso.p s)) /\
  Piso.F s = flx bcs (Field.scale (Piso.rho prm) (Piso.U s)).

End OutputSpec.

(** ** [piso] together with its call of [Mesh::calc_walldist] *)

Module PisoDriver.

Local Close Scope R_scope.

(** What the file-writing calls of a [piso] run put out, in the order of
    the calls: those of [piso] itself and those inside
    [Mesh::calc_walldist]. *)
Inductive Written :=
| ByPiso (o : Output Piso.Snapshot)
| ByWalldist (o : Output ScalarCellField).

(** The step numbers of all [Mesh::write_fields] calls, in order. *)
Definition write_fields_steps (log : list Written) : list Int :=
  flat_map (fun w => match w with
                     | ByPiso o => OutputSpec.written_steps [o]
                     | ByWalldist o => OutputSpec.written_steps [o]
                     end) log.

Section Driver.

Context {L : FVLib}.

(** The registry at the end, everything written, and the state after the
    time loop, whose [Piso.out] holds what the time loop itself wrote. *)
Record Run := mkRun {
  AllBConditions : Registry;
  log : list Written;
  final : Piso.State
}.

Definition fresh_log (s : Piso.State) : Piso.State :=
  Piso.mkState (Piso.U s) (Piso.p s) (Piso.gP s) (Piso.F s) (Piso.turb s)
    (Piso.Uavg s) (Piso.Ustd s) (Piso.pavg s) (Piso.pstd s) (Piso.step s)
    [] (Piso.oUi s) (Piso.opi s).

(** The state [s] with the lines [l] written before its own. *)
Definition with_log (l : list (Output Piso.Snapshot)) (s : Piso.State)
  : Piso.State :=
  Piso.mkState (Piso.U s) (Piso.p s) (Piso.gP s) (Piso.F s) (Piso.turb s)
    (Piso.Uavg s) (Piso.Ustd s) (Piso.pavg s) (Piso.pstd s) (Piso.step s)
    (l ++ Piso.out s) (Piso.oUi s) (Piso.opi s).

(** [piso] from "Read at selected start time step" on, for the value
    [turb_model] of the [turbulence_model] option.  [gBoundaries] and
    [phi_fName] are what [Mesh::calc_walldist] works on, [bcs0] is
    [AllBConditions] at the call; [s0] holds the fields as
    [Mesh::read_fields(step)] left them. *)
Definition piso (turb_model : Int) (gBoundaries : Boundaries)
    (phi_fName : string) (bcs0 : Registry) (prm : Piso.Params)
    (ctl : Controls.t) (probe_points : IntVector) (s0 : Piso.State) : Run :=
  (* the switch over turb_model *)
  let needWallDist := snd (PisoSetup.select_model turb_model) in
  let step := (Controls.start_step ctl / Controls.write_interval ctl)%nat in
  let start := (Controls.write_interval ctl * step + 1)%nat in
  (* Mesh::read_fields(step); Util::write_vtk(step); *)
  let s := Piso.set_step s0 step in
  let s := Piso.emit s [WriteVtk step (Piso.snapshot s)] in
  let log0 := map ByPiso (Piso.out s) in
  (* if(needWallDist) Mesh::calc_walldist(step); the two MP::print
     lines around the call go to the console only *)
  let wd :=
    if needWallDist
    then Some (Walldist.calc_walldist gBoundaries phi_fName bcs0 step)
    else None in
  let bcs :=
    match wd with
    | Some r => Walldist.AllBConditions r
    | None => bcs0
    end in
  let log1 :=
    match wd with
    | Some r => map ByWalldist (Walldist.out r)
    | None => []
    end in
  (* VectorCellField gP = -gradV(p); F = flx(rho * U); *)
  let s := Piso.set_gP s (Field.neg (gradV bcs (Piso.p s))) in
  let s := Piso.set_F s (flx bcs (Field.scale (Piso.rho prm) (Piso.U s))) in
  (* the time loop *)
  let s := for_range start (Controls.end_step ctl)
             (Piso.time_step bcs prm ctl probe_points) (fresh_log s) in
  mkRun bcs (log0 ++ log1 ++ map ByPiso (Piso.out s)) s.

End Driver.

End PisoDriver.
(* ================================================================== *)
(** * Theorems                                                         *)
(* ================================================================== *)

Close Scope R_scope.

Module UtilFacts.

Import Util UtilSpec.
Local Open Scope string_scope.

Lemma toupper_of_lower c :
  (97 <= nat_of_ascii c <= 122)%nat ->
  toupper c = ascii_of_nat (nat_of_ascii c - 32).
Proof.
  intros [H1 H2]. unfold toupper.
  apply Nat.leb_le in H1. apply Nat.leb_le in H2.
  now rewrite H1, H2.
Qed.

Lemma toupper_of_other c :
  (nat_of_ascii c < 97)%nat \/ (122 < nat_of_ascii c)%nat -> toupper c = c.
Proof.
  intros H. unfold toupper.
  destruct (Nat.leb 97 (nat_of_ascii c)) eqn:E1; simpl; [|reflexivity].
  destruct (Nat.leb (nat_of_ascii c) 122) eqn:E2; [|reflexivity].
  apply Nat.leb_le in E1. apply Nat.leb_le in E2. lia.
Qed.

Lemma toupper_pair c1 c2 :
  is_letter c1 -> is_letter c2 ->
  (nat_of_ascii c1 = nat_of_ascii c2 + 32)%nat ->
  toupper c1 = toupper c2.
Proof.
  intros L1 L2 E.
  assert (H1 : (97 <= nat_of_ascii c1 <= 122)%nat)
    by (unfold is_letter in *; cbv zeta in *; lia).
  assert (H2 : (nat_of_ascii c2 < 97)%nat)
    by (unfold is_letter in *; cbv zeta in *; lia).
  rewrite (toupper_of_lower c1 H1), (toupper_of_other c2) by (left; exact H2).
  replace (nat_of_ascii c1 - 32)%nat with (nat_of_ascii c2) by lia.
  apply ascii_nat_embedding.
Qed.

Lemma toupper_case_variant c1 c2 :
  case_variant c1 c2 -> toupper c1 = toupper c2.
Proof.
  intros [-> | (L1 & L2 & [E | E])]; [reflexivity | |].
  - now apply toupper_pair.
  - symmetry. now apply toupper_pair.
Qed.

Lemma transform_differ_only_in_case s1 s2 :
  differ_only_in_case s1 s2 ->
  transform toupper s1 = transform toupper s2.
Proof.
  induction 1 as [| c1 c2 s1 s2 Hc _ IH]; simpl; [reflexivity|].
  now rewrite (toupper_case_variant _ _ Hc), IH.
Qed.

Lemma compare_differ_only_in_case s1 s2 x :
  differ_only_in_case s1 s2 ->
  compare x s1 = compare x s2 /\ compare s1 x = compare s2 x.
Proof.
  intros H. unfold compare.
  now rewrite (transform_differ_only_in_case _ _ H).
Qed.

Lemma getID_from_differ_only_in_case l s1 s2 i :
  differ_only_in_case s1 s2 -> getID_from l s1 i = getID_from l s2 i.
Proof.
  intros H. revert i.
  induction l as [| x l IH]; intros i; simpl; [reflexivity|].
  destruct (compare_differ_only_in_case _ _ x H) as [-> _].
  now rewrite IH.
Qed.

Lemma compare_zero_iff s1 s2 :
  compare s1 s2 = 0%Z <-> transform toupper s1 = transform toupper s2.
Proof.
  unfold compare.
  destruct (String.eqb_spec (transform toupper s1) (transform toupper s2));
    split; intros; congruence || discriminate.
Qed.

Lemma getID_from_sound l str i j :
  getID_from l str i = Some j ->
  (i <= j)%nat /\
  exists e, nth_error l (j - i) = Some e /\
            transform toupper e = transform toupper str.
Proof.
  revert i. induction l as [| x l IH]; intros i; simpl; [discriminate|].
  destruct (Z.eqb_spec (compare x str) 0) as [E | E].
  - intros [= <-]. split; [lia|]. rewrite Nat.sub_diag. exists x.
    split; [reflexivity | now apply compare_zero_iff].
  - intros H. destruct (IH _ H) as (Hle & e & Hn & He).
    split; [lia|]. exists e. split; [|exact He].
    replace (j - i)%nat with (S (j - S i)) by lia. exact Hn.
Qed.

Lemma getID_from_complete l str i e :
  In e l -> transform toupper e = transform toupper str ->
  exists j, getID_from l str i = Some j.
Proof.
  revert i. induction l as [| x l IH]; intros i; simpl; [contradiction|].
  intros [-> | Hin] He.
  - apply compare_zero_iff in He. rewrite He. simpl. now exists i.
  - destruct (Z.eqb (compare x str) 0); [now exists i | now apply IH].
Qed.

Lemma getID_from_none l str i :
  (forall e, In e l -> transform toupper e <> transform toupper str) ->
  getID_from l str i = None.
Proof.
  revert i. induction l as [| x l IH]; intros i H; simpl; [reflexivity|].
  destruct (Z.eqb_spec (compare x str) 0) as [E | E].
  - apply compare_zero_iff in E. exfalso. apply (H x); [now left | exact E].
  - apply IH. intros e He. apply H. now right.
Qed.

Lemma find_not_enrolled {T} (l : Parameters T) str :
  ~ In str (map fst l) -> find l str = None.
Proof.
  induction l as [| [k v] l IH]; simpl; [reflexivity|].
  intros H. destruct (String.eqb_spec k str) as [-> | _].
  - exfalso. apply H. now left.
  - apply IH. intros Hin. apply H. now right.
Qed.

Lemma Parameters_read_not_enrolled {T} `{Streamable T}
    (l : Parameters T) str inp out :
  ~ In str (map fst l) -> Parameters_read l str inp out = (false, l, inp, []).
Proof.
  intros Hn. unfold Parameters_read. now rewrite find_not_enrolled by exact Hn.
Qed.

End UtilFacts.

Section ConfigurationErrors.

Import Util UtilSpec UtilFacts.
Local Open Scope string_scope.

Context {SInt : Streamable Int} {SScalar : Streamable Scalar}
        {SVector : Streamable Vector} {SSTensor : Streamable STensor}
        {STensor' : Streamable Tensor}
        {Svec_int : Streamable (List.list Int)}
        {Svec_string : Streamable (List.list string)}
        {Svec_scalar : Streamable (List.list Scalar)}
        {Svec_vector : Streamable (List.list Vector)}.

Lemma ParamList_read_unknown_key pl inp key out :
  ~ In key (enrolled_keys pl) ->
  ParamList_read pl inp key out = (pl, inp, if out then ["UNKNOWN"] else []).
Proof.
  unfold enrolled_keys. intros H.
  repeat rewrite in_app_iff in H.
  unfold ParamList_read.
  repeat (rewrite Parameters_read_not_enrolled by tauto).
  reflexivity.
Qed.

Lemma call_solver_unknown s :
  (forall n, In n solver_names -> compare s n <> 0%Z) ->
  Main.call_solver s = None.
Proof.
  intros H. unfold Main.call_solver.
  assert (E : forall n, In n solver_names -> Z.eqb (compare s n) 0 = false)
    by (intros n Hn; apply Z.eqb_neq; now apply H).
  rewrite !E by (unfold solver_names; simpl; tauto).
  reflexivity.
Qed.

Lemma main_ret pr :
  Main.ret (Main.main pr) =
  if Nat.ltb 1 (Main.n_hosts pr) && negb (Main.cd pr (Main.rank_mesh_name pr))
  then 1%Z else 0%Z.
Proof.
  unfold Main.main.
  destruct (Nat.ltb 1 (Main.n_hosts pr)); simpl; [|reflexivity].
  now destruct (Main.cd pr (Main.rank_mesh_name pr)).
Qed.

Lemma main_solver_unknown pr :
  Main.call_solver (Main.sname pr) = None -> Main.solver (Main.main pr) = None.
Proof.
  intros H. unfold Main.main.
  destruct (Nat.ltb 1 (Main.n_hosts pr)); simpl; [|exact H].
  now destruct (Main.cd pr (Main.rank_mesh_name pr)).
Qed.

(** C1 (amended).  A configuration error is not fatal in the code.  An
    enumeration string that matches no enumerator makes [Option::getID] print
    the one-line diagnostic [Unknown parameter : <str>] and return enumerator
    0, and the extraction goes on with the rest of the stream; a key that no
    member of the parameter list knows makes [ParamList::read] print
    [UNKNOWN] (when echoing) and return with the list and the stream
    untouched; a [solver] value that is none of piso, diffusion, transport,
    potential makes [main] call no solver.  [main] returns 1 exactly when it
    runs on several hosts and cannot change into the per-rank mesh directory,
    and 0 otherwise. *)
Theorem C1_configuration_errors_are_not_fatal
    (pr : Main.Process) (p : Option) (pl : ParamList)
    (str key : string) (inp : istream) (out : bool) :
  (forall e, In e (Util.list p) ->
             transform toupper e <> transform toupper str) ->
  ~ In key (enrolled_keys pl) ->
  (forall n, In n solver_names -> compare (Main.sname pr) n <> 0%Z) ->
  getID p str = (0, ["Unknown parameter : "; str; endl]) /\
  Option_extract (str :: inp) p =
    (mkOption 0 (Util.list p), inp, ["Unknown parameter : "; str; endl]) /\
  ParamList_read pl inp key out = (pl, inp, if out then ["UNKNOWN"] else []) /\
  Main.solver (Main.main pr) = None /\
  Main.ret (Main.main pr) =
    (if Nat.ltb 1 (Main.n_hosts pr) &&
        negb (Main.cd pr (Main.rank_mesh_name pr))
     then 1%Z else 0%Z).
Proof.
  intros Henum Hkey Hsolver.
  assert (G : getID p str = (0, ["Unknown parameter : "; str; endl])).
  { unfold getID. now rewrite getID_from_none. }
  split; [exact G|]. split.
  { unfold Option_extract. simpl. now rewrite G. }
  split; [now apply ParamList_read_unknown_key|].
  split; [|apply main_ret].
  apply main_solver_unknown. now apply call_solver_unknown.
Qed.

End ConfigurationErrors.

(** C2.  Enumerations are matched case-insensitively: two strings that
    differ only in letter case select the same enumerator of every option
    (with the same stored value after extraction), and the same solver in
    [main]; and a string that differs only in case from an enumerator name
    selects an enumerator of that upper-cased name, without diagnostic. *)
Theorem C2_enumerations_match_case_insensitively
    (p : Util.Option) (s1 s2 : string) (inp : Util.istream) :
  UtilSpec.differ_only_in_case s1 s2 ->
  fst (Util.getID p s1) = fst (Util.getID p s2) /\
  fst (fst (Util.Option_extract (s1 :: inp) p)) =
    fst (fst (Util.Option_extract (s2 :: inp) p)) /\
  Main.call_solver s1 = Main.call_solver s2 /\
  (forall e, In e (Util.list p) -> UtilSpec.differ_only_in_case e s1 ->
     exists i e',
       Util.getID p s1 = (i, []) /\ nth_error (Util.list p) i = Some e' /\
       Util.transform Util.toupper e' = Util.transform Util.toupper s1).
Proof.
  intros H.
  assert (G : Util.getID p s1 = (fst (Util.getID p s2), snd (Util.getID p s1))).
  { unfold Util.getID.
    rewrite (UtilFacts.getID_from_differ_only_in_case (Util.list p) _ _ 0 H).
    now destruct (Util.getID_from (Util.list p) s2 0). }
  split; [now rewrite G|]. split.
  { unfold Util.Option_extract. simpl. rewrite G.
    now destruct (Util.getID p s2). }
  split.
  { unfold Main.call_solver.
    now rewrite !(proj2 (UtilFacts.compare_differ_only_in_case _ _ _ H)). }
  intros e Hin He.
  apply UtilFacts.transform_differ_only_in_case in He.
  destruct (UtilFacts.getID_from_complete (Util.list p) s1 0 e Hin He) as [j Hj].
  destruct (UtilFacts.getID_from_sound _ _ _ _ Hj) as (_ & e' & Hn & He').
  rewrite Nat.sub_0_r in Hn.
  exists j, e'. unfold Util.getID. rewrite Hj. now repeat split.
Qed.

(** C1, witness: the three hypotheses hold for the enumeration value [SST]
    of [turbulence_model], the key [velocity] and the solver name [simple]. *)
Lemma C1_configuration_errors_are_not_fatal_witness :
  let pr := Main.mkProcess 1 0 (fun _ => true) "simple" "grid" in
  Util.getID UtilSpec.turbulence_option "SST" =
    (0, ["Unknown parameter : "; "SST"; Util.endl])%string /\
  Main.solver (Main.main pr) = None /\
  Main.ret (Main.main pr) = 0%Z.
Proof.
  intros pr.
  destruct (@C1_configuration_errors_are_not_fatal
              (UtilSpec.skip_one _) (UtilSpec.skip_one _) (UtilSpec.skip_one _)
              (UtilSpec.skip_one _) (UtilSpec.skip_one _) (UtilSpec.skip_one _)
              (UtilSpec.skip_one _) (UtilSpec.skip_one _) (UtilSpec.skip_one _)
              pr UtilSpec.turbulence_option UtilSpec.general_params
              "SST"%string "velocity"%string [] true)
    as (G & _ & _ & S & R).
  - intros e He. simpl in He.
    repeat (destruct He as [<- | He]; [vm_compute; discriminate|]).
    contradiction.
  - vm_compute. intros H.
    repeat (destruct H as [H | H]; [discriminate H|]). contradiction.
  - intros n Hn. simpl in Hn.
    repeat (destruct Hn as [<- | Hn]; [vm_compute; discriminate|]).
    contradiction.
  - repeat split; assumption.
Defined.

(** C1, counterexample: with the solver name [simple] (none of the four) and
    the unknown enumeration value [SST], nothing is fatal: the diagnostic is
    printed, enumerator 0 is selected, no solver is called, and [main]
    returns 0, not 1. *)
Lemma C1_counterexample :
  let pr := Main.mkProcess 1 0 (fun _ => true) "simple" "grid" in
  (forall n, In n UtilSpec.solver_names ->
             Util.compare (Main.sname pr) n <> 0%Z) /\
  Main.main pr = Main.mkOutcome 0 "grid" true None /\
  Main.ret (Main.main pr) <> 1%Z /\
  Util.Option_extract ["SST"; "les_average"; "NO"]%string
      UtilSpec.turbulence_option =
    (Util.mkOption 0 (Util.list UtilSpec.turbulence_option),
     ["les_average"; "NO"],
     ["Unknown parameter : "; "SST"; Util.endl])%string.
Proof.
  intros pr. split; [|split; [|split]].
  - intros n Hn. simpl in Hn.
    repeat (destruct Hn as [<- | Hn]; [vm_compute; discriminate|]).
    contradiction.
  - reflexivity.
  - vm_compute. discriminate.
  - reflexivity.
Qed.

(** C2, witness: [les] and [LeS] differ only in letter case. *)
Lemma C2_enumerations_match_case_insensitively_witness :
  fst (Util.getID UtilSpec.turbulence_option "les") =
  fst (Util.getID UtilSpec.turbulence_option "LeS") /\
  Main.call_solver "piso" = Main.call_solver "PiSo".
Proof.
  assert (V : forall c : ascii, UtilSpec.case_variant c c) by (intros c; now left).
  assert (H1 : UtilSpec.differ_only_in_case "les" "LeS").
  { constructor; [right; vm_compute; lia|].
    constructor; [apply V|].
    constructor; [right; vm_compute; lia|].
    constructor. }
  assert (H2 : UtilSpec.differ_only_in_case "piso" "PiSo").
  { constructor; [right; vm_compute; lia|].
    constructor; [apply V|].
    constructor; [right; vm_compute; lia|].
    constructor; [apply V|]. constructor. }
  split.
  - exact (proj1 (C2_enumerations_match_case_insensitively
                    UtilSpec.turbulence_option "les" "LeS" [] H1)).
  - exact (proj1 (proj2 (proj2 (C2_enumerations_match_case_insensitively
                    UtilSpec.turbulence_option "piso" "PiSo" [] H2)))).
Defined.

(* ------------------------------------------------------------------ *)
(** ** Under-relaxation (section 4.3)                                  *)
(* ------------------------------------------------------------------ *)

Module RelaxFacts.

Import MatrixModel.
Local Open Scope R_scope.

(** [Relax] leaves the off-diagonal product alone. *)
Lemma off_diag_from_Relax {T} {E : Elem T} faces f (M : MeshMatrix T)
    alpha phi psi c :
  off_diag_from faces f (Relax M alpha phi) psi c =
  off_diag_from faces f M psi c.
Proof.
  revert f. induction faces as [| fc rest IH]; intros f; simpl;
    [reflexivity | now rewrite IH].
Qed.

Lemma apply_Relax_scalar mesh (M : MeshMatrix Scalar) alpha phi c :
  alpha <> 0 ->
  apply mesh (Relax M alpha phi) phi c - Su (Relax M alpha phi) c =
  apply mesh M phi c - Su M c.
Proof.
  intros Ha. unfold apply, off_diag. rewrite off_diag_from_Relax.
  simpl. field. exact Ha.
Qed.

Lemma vector_eq (v w : Vector) :
  v = w <-> vx v = vx w /\ vy v = vy w /\ vz v = vz w.
Proof.
  split; [now intros -> |].
  destruct v, w; simpl. intros (-> & -> & ->). reflexivity.
Qed.

Lemma fixed_point_Relax_scalar mesh (M : MeshMatrix Scalar) alpha phi :
  alpha <> 0 ->
  fixed_point mesh M phi <-> fixed_point mesh (Relax M alpha phi) phi.
Proof.
  intros Ha. unfold fixed_point.
  split; intros H c; specialize (H c);
    pose proof (apply_Relax_scalar mesh M alpha phi c Ha) as E; lra.
Qed.

Lemma fixed_point_Relax_vector mesh (M : MeshMatrix Vector) alpha phi :
  alpha <> 0 ->
  fixed_point mesh M phi <-> fixed_point mesh (Relax M alpha phi) phi.
Proof.
  intros Ha. unfold fixed_point.
  split; intros H c; specialize (H c); revert H;
    unfold apply, off_diag; rewrite off_diag_from_Relax; simpl;
    destruct (off_diag_from mesh 0%nat M phi c) as [o1 o2 o3];
    destruct (phi c) as [x y z]; destruct (Su M c) as [s1 s2 s3];
    unfold vmap2, vmap; simpl; rewrite !vector_eq; simpl;
    intros (H1 & H2 & H3).
  - assert (K : forall a o s u : R,
               a * u - o = s ->
               a / alpha * u - o = s + (1 - alpha) / alpha * a * u).
    { intros a o s u K. rewrite <- K. field. exact Ha. }
    repeat split; now apply K.
  - assert (K : forall a o s u : R,
               a / alpha * u - o = s + (1 - alpha) / alpha * a * u ->
               a * u - o = s).
    { intros a o s u K.
      replace (a * u - o) with
        (a / alpha * u - o - (1 - alpha) / alpha * a * u) by (field; exact Ha).
      lra. }
    repeat split; now apply K.
Qed.

End RelaxFacts.

(** C8.  Under-relaxation consistency, for the matrix algebra of section
    4.3: for a relaxation factor [0 < alpha <= 1], a field [phi] satisfies
    [A phi = Su] exactly when it satisfies the system relaxed around it,
    [M.Relax(alpha)] with [phi] as current value; this holds for scalar and
    for vector fields.  In particular the fixed point is left unchanged. *)
Theorem C8_relax_keeps_the_fixed_point
    (mesh : MatrixModel.Mesh) (alpha : Scalar) :
  (0 < alpha <= 1)%R ->
  (forall (M : MeshMatrix Scalar) (phi : MeshField Scalar),
      MatrixModel.fixed_point mesh M phi ->
      MatrixModel.fixed_point mesh (MatrixModel.Relax M alpha phi) phi) /\
  (forall (M : MeshMatrix Vector) (phi : MeshField Vector),
      MatrixModel.fixed_point mesh M phi ->
      MatrixModel.fixed_point mesh (MatrixModel.Relax M alpha phi) phi) /\
  (forall (M : MeshMatrix Scalar) (phi : MeshField Scalar),
      MatrixModel.fixed_point mesh (MatrixModel.Relax M alpha phi) phi ->
      MatrixModel.fixed_point mesh M phi).
Proof.
  intros [Ha _].
  assert (Hn : alpha <> 0%R) by (apply Rgt_not_eq; exact Ha).
  repeat split.
  - intros M phi. apply RelaxFacts.fixed_point_Relax_scalar. exact Hn.
  - intros M phi. apply RelaxFacts.fixed_point_Relax_vector. exact Hn.
  - intros M phi. apply RelaxFacts.fixed_point_Relax_scalar. exact Hn.
Qed.

(** C8, witness: the two-cell matrix with diagonal 2, off-diagonals 1 and
    source 1 is solved by the field 1, before and after [Relax(1/2)]. *)
Lemma C8_relax_keeps_the_fixed_point_witness :
  MatrixModel.fixed_point Sample.two_cells
    (MatrixModel.Relax Sample.two_cell_matrix (1 / 2)%R (Field.const 1%R))
    (Field.const 1%R).
Proof.
  apply (proj1 (C8_relax_keeps_the_fixed_point Sample.two_cells (1 / 2)%R
                  ltac:(lra))).
  intros c. unfold MatrixModel.apply, MatrixModel.off_diag. simpl.
  destruct c as [| [| c]]; simpl; unfold Field.const; lra.
Defined.

(* ------------------------------------------------------------------ *)
(** ** Loops                                                           *)
(* ------------------------------------------------------------------ *)

Lemma repeat_n_S_r {S : Type} (n : nat) (f : S -> S) (s : S) :
  repeat_n (Datatypes.S n) f s = f (repeat_n n f s).
Proof.
  revert s. induction n as [| n IH]; intros s; [reflexivity|].
  change (repeat_n (Datatypes.S (Datatypes.S n)) f s)
    with (repeat_n (Datatypes.S n) f (f s)).
  rewrite IH. reflexivity.
Qed.

Lemma repeat_n_invariant {S : Type} (P : S -> Prop) (f : S -> S) :
  (forall s, P s -> P (f s)) ->
  forall n s, P s -> P (repeat_n n f s).
Proof.
  intros Hf n. induction n as [| n IH]; intros s Hs; simpl; auto.
Qed.

Lemma for_from_ext {S : Type} (f g : Int -> S -> S) :
  (forall i s, f i s = g i s) ->
  forall count i s, for_from count i f s = for_from count i g s.
Proof.
  intros H count. induction count as [| k IH]; intros i s; simpl;
    [reflexivity | now rewrite H, IH].
Qed.

Lemma for_from_invariant {S : Type} (P : S -> Prop) (f : Int -> S -> S)
    (start : Int) :
  (forall i s, start <= i -> P s -> P (f i s)) ->
  forall count i s, start <= i -> P s -> P (for_from count i f s).
Proof.
  intros Hf count. induction count as [| k IH]; intros i s Hi Hs; simpl.
  - exact Hs.
  - apply IH; [lia | now apply Hf].
Qed.

(** Every pass of the time loop of [piso] has a step number of at least 1:
    what one pass keeps, the run keeps. *)
Lemma piso_run_invariant {L : FVLib} (bcs : Registry) (prm : Piso.Params)
    (ctl : Controls.t) (pp : IntVector) (P : Piso.State -> Prop) :
  (forall i s, 1 <= i -> P s -> P (Piso.time_step bcs prm ctl pp i s)) ->
  forall s0,
    (forall s, Piso.U s = Piso.U s0 -> Piso.p s = Piso.p s0 ->
               Piso.Uavg s = Piso.Uavg s0 -> Piso.Ustd s = Piso.Ustd s0 ->
               Piso.pavg s = Piso.pavg s0 -> Piso.pstd s = Piso.pstd s0 ->
               P s) ->
    P (Piso.piso bcs prm ctl pp s0).
Proof.
  intros Hstep s0 H0. unfold Piso.piso, for_range.
  apply (for_from_invariant P _ 1).
  - exact Hstep.
  - lia.
  - now apply H0.
Qed.

(* ------------------------------------------------------------------ *)
(** ** The PISO corrector                                              *)
(* ------------------------------------------------------------------ *)

Section PisoCorrector.

Local Open Scope R_scope.

Context {L : FVLib}.
Variables (bcs : Registry) (prm : Piso.Params) (ctl : Controls.t).




(** The passes of the pressure loop as [piso] writes them, with the
    library's own [+=]: the tentative velocity is [getRHS(M) * api] with the
    explicit boundary conditions applied; the pressure is then solved
    [n_ORTHO + 1] times, each pass joining [lap(p, rho * api * cV)] at the
    latest pressure and [div(rho * U_a)] with [+=]; in the steady case the
    result is relaxed towards the pressure from before the loop. *)
Lemma piso_pass_pressure_passes
    (M : VectorMeshMatrix) (api : ScalarCellField) (s : Piso.State) :
  let Ua := Piso.tentative_velocity bcs M api s in
  let pk := fun k => repeat_n k (Piso.pressure_pass bcs prm api Ua)
                              (Piso.p s) in
  Ua = updateExplicitBCs bcs
         (fun c => tscale (api c) (getRHS M (Piso.U s) c)) true false /\
  pk 0%nat = Piso.p s /\
  (forall k,
      pk (S k) =
      Solve bcs
        (maddf (lapc bcs (pk k) (fun c => Piso.rho prm * api c * cV c))
               (div bcs (fun c => tscale (Piso.rho prm) (Ua c))))
        (pk k)) /\
  Piso.p (Piso.piso_pass bcs prm ctl M api s) =
    match Controls.state ctl with
    | Controls.STEADY =>
        fRelax (pk (S (Piso.n_ORTHO prm))) (Piso.p s) (Piso.pressure_UR prm)
    | Controls.TRANSIENT => pk (S (Piso.n_ORTHO prm))
    end.
Proof.
  intros Ua pk.
  split; [reflexivity|]. split; [reflexivity|]. split.
  - intros k. unfold pk. rewrite repeat_n_S_r. reflexivity.
  - unfold Piso.piso_pass, Piso.pressure_solution, Piso.Steady. simpl.
    now destruct (Controls.state ctl).
Qed.

End PisoCorrector.

Section PressureEquation.

Context {L : FVLib}.
Variables (bcs : Registry) (prm : Piso.Params) (ctl : Controls.t).
Variable mesh : MatrixModel.Mesh.




End PressureEquation.

Section PisoSample.

Local Open Scope R_scope.

(** C3, at a sample input: with tentative velocity [(1,0,0)], [api = 1] and
    a pressure whose gradient is [(1,0,0)], the pass leaves the velocity
    [(2,0,0)], where [U_a + gP * api] is [(0,0,0)]. *)
Lemma C3_velocity_correction_sample :
  let M := Sample.unit_matrix (Field.const (mkVector 1 0 0)) in
  let api : ScalarCellField := Field.const 1%R in
  let prm := Sample.piso_params 0%nat 0%nat 0%nat in
  let s' := Piso.piso_pass (L := Sample.lib) [] prm (Sample.transient 1)
                           M api Sample.piso_state in
  let Ua := Piso.tentative_velocity (L := Sample.lib) [] M api
                                    Sample.piso_state in
  Ua 0%nat = mkVector 1 0 0 /\
  Piso.gP s' 0%nat = mkVector (-1) 0 0 /\
  Piso.U s' 0%nat = mkVector 2 0 0 /\
  tadd (Ua 0%nat) (tscale (api 0%nat) (Piso.gP s' 0%nat)) = mkVector 0 0 0.
Proof.
  cbv zeta. unfold Piso.piso_pass, Piso.tentative_velocity,
    Piso.pressure_solution, Piso.velocity_correction, Piso.pressure_pass.
  simpl. unfold Field.muls, Field.neg, Field.sub, Field.scale, Field.const.
  simpl. unfold vmap, vmap2. simpl.
  repeat split; apply RelaxFacts.vector_eq; simpl; repeat split; lra.
Qed.

End PisoSample.

(* ------------------------------------------------------------------ *)
(** ** The time scheme and the deferred-correction loop                *)
(* ------------------------------------------------------------------ *)

Section TimeScheme.

Local Open Scope R_scope.

Context {L : FVLib}.
Variables (bcs : Registry) (ctl : Controls.t).

Import DriverSpec.

Lemma piso_crank_nicolson_rewrites {T} {E : Elem T}
    (M : MeshMatrix T) (phi : MeshField T) :
  equal_is_exact -> Controls.time_scheme_factor ctl <> 1 ->
  Piso.crank_nicolson ctl M phi =
  DriverSpec.crank_nicolson_rewrite (Controls.time_scheme_factor ctl) M phi.
Proof.
  intros Hex Hne. unfold Piso.crank_nicolson, Piso.time_factor.
  destruct (equal (Controls.time_scheme_factor ctl) 1) eqn:E1.
  - apply Hex in E1. contradiction.
  - reflexivity.
Qed.

Lemma piso_crank_nicolson_skips {T} {E : Elem T}
    (M : MeshMatrix T) (phi : MeshField T) :
  equal_is_exact -> Controls.time_scheme_factor ctl = 1 ->
  Piso.crank_nicolson ctl M phi = M.
Proof.
  intros Hex He. unfold Piso.crank_nicolson, Piso.time_factor.
  rewrite He. now rewrite (proj2 (Hex 1 1) eq_refl).
Qed.

Lemma scalar_crank_nicolson_rewrites (M : ScalarMeshMatrix) T :
  equal_is_exact -> Controls.time_scheme_factor ctl <> 1 ->
  Scalar_Transport.crank_nicolson ctl M T =
  DriverSpec.crank_nicolson_rewrite (Controls.time_scheme_factor ctl) M T.
Proof.
  intros Hex Hne.
  unfold Scalar_Transport.crank_nicolson, Scalar_Transport.time_factor.
  destruct (equal (Controls.time_scheme_factor ctl) 1) eqn:E1.
  - apply Hex in E1. contradiction.
  - reflexivity.
Qed.

Lemma scalar_crank_nicolson_skips (M : ScalarMeshMatrix) T :
  equal_is_exact -> Controls.time_scheme_factor ctl = 1 ->
  Scalar_Transport.crank_nicolson ctl M T = M.
Proof.
  intros Hex He.
  unfold Scalar_Transport.crank_nicolson, Scalar_Transport.time_factor.
  rewrite He. now rewrite (proj2 (Hex 1 1) eq_refl).
Qed.

Lemma transient_not_steady :
  Controls.state ctl = Controls.TRANSIENT ->
  Piso.Steady ctl = false /\ Scalar_Transport.Steady ctl = false.
Proof.
  intros H. unfold Piso.Steady, Scalar_Transport.Steady. now rewrite H.
Qed.

Lemma steady_is_steady :
  Controls.state ctl = Controls.STEADY ->
  Piso.Steady ctl = true /\ Scalar_Transport.Steady ctl = true.
Proof.
  intros H. unfold Piso.Steady, Scalar_Transport.Steady. now rewrite H.
Qed.

End TimeScheme.

(** C5.  In a transient solve of [piso], [diffusion] and [transport] with a
    time-scheme factor [theta < 1], the assembled matrix [M] is replaced by
    [theta M] with the source decreased by [(1 - theta) (M phi)], [phi] the
    current field, before [ddt] is added; with [theta = 1] the assembled
    matrix goes into the sum with [ddt] as it is.  ([equal] is read as
    exact equality of scalars.) *)
Theorem C5_crank_nicolson_rewrite {L : FVLib}
    (bcs : Registry) (ctl : Controls.t)
    (pprm : Piso.Params) (sprm : Scalar_Transport.Params)
    (ps : Piso.State) (ss : Scalar_Transport.State)
    (Ut : VectorCellField) (mu : ScalarFacetField) :
  DriverSpec.equal_is_exact ->
  Controls.state ctl = Controls.TRANSIENT ->
  let theta := Controls.time_scheme_factor ctl in
  let Mp :=
    addTurbulentStress (Piso.turb ps) (Piso.U ps) (Piso.F ps)
      (divm bcs (Piso.U ps) (Piso.F ps)
            (Field.const (Piso.rho pprm * Piso.viscosity pprm)%R)) in
  let T := Scalar_Transport.T ss in
  let Md := mneg (lap bcs T mu) in
  let F' := flx bcs (Field.scale (Scalar_Transport.rho sprm) Ut) in
  let Mt := msub (divm bcs T F' mu) (lap bcs T mu) in
  let drivers_use
        (after : forall X, Elem X -> MeshMatrix X -> MeshField X ->
                           MeshMatrix X) :=
    Piso.momentum_matrix bcs pprm ctl ps =
      madd (after _ _ Mp (Piso.U ps))
           (ddt bcs (Piso.U ps) (Piso.rho pprm)) /\
    Scalar_Transport.diffusion_body bcs sprm ctl mu ss =
      Scalar_Transport.set_T ss
        (Solve bcs
           (madd (after _ _ Md T) (ddt bcs T (Scalar_Transport.rho sprm)))
           T) /\
    Scalar_Transport.transport_body bcs sprm ctl Ut mu ss =
      Scalar_Transport.set_T (Scalar_Transport.set_F ss F')
        (Solve bcs
           (madd (after _ _ Mt T) (ddt bcs T (Scalar_Transport.rho sprm)))
           T) in
  ((theta < 1)%R ->
   drivers_use
     (fun X E M phi => DriverSpec.crank_nicolson_rewrite theta M phi)) /\
  (theta = 1%R -> drivers_use (fun X E M phi => M)).
Proof.
  intros Hex Htr theta Mp T Md F' Mt drivers_use.
  destruct (transient_not_steady ctl Htr) as [Sp Ss].
  unfold drivers_use, Piso.momentum_matrix, Scalar_Transport.diffusion_body,
    Scalar_Transport.transport_body, Scalar_Transport.relax_or_time.
  rewrite Sp, Ss.
  split.
  - intros Hlt.
    assert (Hne : Controls.time_scheme_factor ctl <> 1%R)
      by (apply Rlt_not_eq; exact Hlt).
    rewrite !(piso_crank_nicolson_rewrites ctl _ _ Hex Hne).
    rewrite !(scalar_crank_nicolson_rewrites ctl _ _ Hex Hne).
    repeat split.
  - intros He.
    rewrite !(piso_crank_nicolson_skips ctl _ _ Hex He).
    rewrite !(scalar_crank_nicolson_skips ctl _ _ Hex He).
    repeat split.
Qed.

Section TimeSchemeSample.

#[local] Existing Instance Sample.lib.

Lemma Req_bool_exact : DriverSpec.equal_is_exact (L := Sample.lib).
Proof.
  intros a b. simpl. unfold Sample.Req_bool.
  destruct (Req_dec_T a b); split; intros; congruence || discriminate.
Qed.

(** C5, witness: the sample library with [theta = 1/2] in a transient
    [diffusion] step. *)
Lemma C5_crank_nicolson_rewrite_witness :
  let ctl := Sample.transient (1 / 2)%R in
  let prm := Sample.scalar_params 0 in
  let ss := Sample.scalar_state in
  let T := Scalar_Transport.T ss in
  let mu : ScalarFacetField := Field.const 1%R in
  Scalar_Transport.diffusion_body (L := Sample.lib) [] prm ctl mu ss =
  Scalar_Transport.set_T ss
    (Solve []
       (madd (DriverSpec.crank_nicolson_rewrite (L := Sample.lib) (1 / 2)%R
                (mneg (lap [] T mu)) T)
             (ddt [] T (Scalar_Transport.rho prm)))
       T).
Proof.
  intros ctl prm ss T mu.
  refine (proj1 (proj2 (proj1
    (C5_crank_nicolson_rewrite (L := Sample.lib) [] ctl
       (Sample.piso_params 0 0 0) prm Sample.piso_state ss
       (Field.const (mkVector 0 0 0)%R) mu Req_bool_exact eq_refl) _))).
  simpl. lra.
Defined.

End TimeSchemeSample.

(* ------------------------------------------------------------------ *)
(** ** Steady runs                                                     *)
(* ------------------------------------------------------------------ *)

Section Steady.

Context {L : FVLib}.
Variables (bcs : Registry) (ctl : Controls.t).
Hypothesis Hsteady : Controls.state ctl = Controls.STEADY.

Lemma piso_n_DEFERRED_forced prm : Piso.n_DEFERRED' prm ctl = 0.
Proof.
  unfold Piso.n_DEFERRED'. now rewrite (proj1 (steady_is_steady ctl Hsteady)).
Qed.

Lemma scalar_n_DEFERRED_forced prm : Scalar_Transport.n_DEFERRED' prm ctl = 0.
Proof.
  unfold Scalar_Transport.n_DEFERRED'.
  now rewrite (proj2 (steady_is_steady ctl Hsteady)).
Qed.

Lemma piso_time_step_steady prm pp i s :
  Piso.time_step bcs prm ctl pp i s =
  Piso.write_result prm ctl i
    (Piso.probe_lines pp i
       (Piso.les_accumulate prm
          (Piso.deferred_body bcs prm ctl (Piso.print_step ctl i s)))).
Proof.
  unfold Piso.time_step. now rewrite piso_n_DEFERRED_forced.
Qed.

Lemma diffusion_time_step_steady prm mu i s :
  Scalar_Transport.diffusion_time_step bcs prm ctl mu i s =
  Scalar_Transport.write_result ctl Scalar_Transport.diffusion_snapshot i
    (Scalar_Transport.diffusion_body bcs prm ctl mu
       (Scalar_Transport.print_step ctl i s)).
Proof.
  unfold Scalar_Transport.diffusion_time_step.
  now rewrite scalar_n_DEFERRED_forced.
Qed.

Lemma transport_time_step_steady prm U mu i s :
  Scalar_Transport.transport_time_step bcs prm ctl U mu i s =
  Scalar_Transport.write_result ctl (Scalar_Transport.transport_snapshot U) i
    (Scalar_Transport.transport_body bcs prm ctl U mu
       (Scalar_Transport.print_step ctl i s)).
Proof.
  unfold Scalar_Transport.transport_time_step.
  now rewrite scalar_n_DEFERRED_forced.
Qed.

Lemma piso_ignores_n_DEFERRED prm n pp s0 :
  Piso.piso bcs (DriverSpec.piso_with_n_DEFERRED prm n) ctl pp s0 =
  Piso.piso bcs prm ctl pp s0.
Proof.
  unfold Piso.piso, for_range. apply for_from_ext. intros i s.
  rewrite !piso_time_step_steady. reflexivity.
Qed.

Lemma diffusion_ignores_n_DEFERRED prm n s0 :
  Scalar_Transport.diffusion bcs
    (DriverSpec.scalar_with_n_DEFERRED prm n) ctl s0 =
  Scalar_Transport.diffusion bcs prm ctl s0.
Proof.
  unfold Scalar_Transport.diffusion, for_range. apply for_from_ext.
  intros i s. rewrite !diffusion_time_step_steady. reflexivity.
Qed.

Lemma transport_ignores_n_DEFERRED prm n U s0 :
  Scalar_Transport.transport bcs
    (DriverSpec.scalar_with_n_DEFERRED prm n) ctl U s0 =
  Scalar_Transport.transport bcs prm ctl U s0.
Proof.
  unfold Scalar_Transport.transport, for_range. apply for_from_ext.
  intros i s. rewrite !transport_time_step_steady. reflexivity.
Qed.

End Steady.

(** C10.  When the controls say [STEADY], [n_DEFERRED] is set to 0 before
    the time loop of [piso], [diffusion] and [transport]; the body of the
    deferred-correction loop then runs exactly once in every outer
    iteration, and the whole run does not depend on the value of
    [n_DEFERRED] in the configuration. *)
Theorem C10_steady_runs_one_deferred_pass {L : FVLib}
    (bcs : Registry) (ctl : Controls.t)
    (pprm : Piso.Params) (sprm : Scalar_Transport.Params)
    (pp : IntVector) (Ut : VectorCellField) (mu : ScalarFacetField)
    (i n : Int) (ps : Piso.State) (ss : Scalar_Transport.State) :
  Controls.state ctl = Controls.STEADY ->
  (Piso.n_DEFERRED' pprm ctl = 0 /\
   Scalar_Transport.n_DEFERRED' sprm ctl = 0) /\
  (Piso.time_step bcs pprm ctl pp i ps =
     Piso.write_result pprm ctl i
       (Piso.probe_lines pp i
          (Piso.les_accumulate pprm
             (Piso.deferred_body bcs pprm ctl (Piso.print_step ctl i ps)))) /\
   Scalar_Transport.diffusion_time_step bcs sprm ctl mu i ss =
     Scalar_Transport.write_result ctl Scalar_Transport.diffusion_snapshot i
       (Scalar_Transport.diffusion_body bcs sprm ctl mu
          (Scalar_Transport.print_step ctl i ss)) /\
   Scalar_Transport.transport_time_step bcs sprm ctl Ut mu i ss =
     Scalar_Transport.write_result ctl
       (Scalar_Transport.transport_snapshot Ut) i
       (Scalar_Transport.transport_body bcs sprm ctl Ut mu
          (Scalar_Transport.print_step ctl i ss))) /\
  (Piso.piso bcs (DriverSpec.piso_with_n_DEFERRED pprm n) ctl pp ps =
     Piso.piso bcs pprm ctl pp ps /\
   Scalar_Transport.diffusion bcs
       (DriverSpec.scalar_with_n_DEFERRED sprm n) ctl ss =
     Scalar_Transport.diffusion bcs sprm ctl ss /\
   Scalar_Transport.transport bcs
       (DriverSpec.scalar_with_n_DEFERRED sprm n) ctl Ut ss =
     Scalar_Transport.transport bcs sprm ctl Ut ss).
Proof.
  intros Hs. repeat split.
  - now apply piso_n_DEFERRED_forced.
  - now apply scalar_n_DEFERRED_forced.
  - now apply piso_time_step_steady.
  - now apply diffusion_time_step_steady.
  - now apply transport_time_step_steady.
  - now apply piso_ignores_n_DEFERRED.
  - now apply diffusion_ignores_n_DEFERRED.
  - now apply transport_ignores_n_DEFERRED.
Qed.

(** C10, witness: a steady [piso] run configured with [n_DEFERRED = 5]. *)
Lemma C10_steady_runs_one_deferred_pass_witness :
  Piso.n_DEFERRED' (Sample.piso_params 5 0 0) Sample.steady = 0 /\
  Piso.piso (L := Sample.lib) [] (Sample.piso_params 5 0 0) Sample.steady []
            Sample.piso_state =
  Piso.piso (L := Sample.lib) [] (Sample.piso_params 0 0 0) Sample.steady []
            Sample.piso_state.
Proof.
  destruct (C10_steady_runs_one_deferred_pass (L := Sample.lib) []
              Sample.steady (Sample.piso_params 0 0 0)
              (Sample.scalar_params 0) [] (Field.const (mkVector 0 0 0)%R)
              (Field.const 1%R) 1 5 Sample.piso_state Sample.scalar_state
              eq_refl) as ((H1 & _) & _ & (H3 & _)).
  split; [reflexivity | exact H3].
Defined.

(* ------------------------------------------------------------------ *)
(** ** LES statistics                                                  *)
(* ------------------------------------------------------------------ *)

Module StatsFacts.

Local Open Scope R_scope.

Lemma deviation_closed_form n sum sumsq :
  n <> 0 -> Stats.deviation n sum sumsq = Stats.closed_form n sum sumsq.
Proof.
  intros Hn. unfold Stats.deviation, Stats.closed_form. cbv zeta.
  f_equal. field. exact Hn.
Qed.

Lemma vdeviation_closed_form n sum sumsq :
  n <> 0 -> Stats.vdeviation n sum sumsq = Stats.vclosed_form n sum sumsq.
Proof.
  intros Hn. unfold Stats.vdeviation, Stats.vclosed_form, vmap2.
  now rewrite !deviation_closed_form.
Qed.

(** What the checkpoint computes for one scalar, from the sums. *)
Lemma checkpoint_scalar n sum sumsq :
  sqrt ((sumsq + sum / n * (n * (sum / n) - 2 * sum)) / n) =
  Stats.deviation n sum sumsq.
Proof.
  unfold Stats.deviation. cbv zeta. f_equal. unfold Rdiv. ring.
Qed.

End StatsFacts.

Section LES.

Local Open Scope R_scope.

Context {L : FVLib}.
Variables (bcs : Registry) (prm : Piso.Params) (ctl : Controls.t)
          (pp : IntVector).

Import DriverSpec.

Lemma same_sums_refl s : same_sums s s.
Proof. now repeat split. Qed.

Lemma same_sums_trans s1 s2 s3 :
  same_sums s1 s2 -> same_sums s2 s3 -> same_sums s1 s3.
Proof.
  unfold same_sums. intros (A1 & A2 & A3 & A4 & A5) (B1 & B2 & B3 & B4 & B5).
  repeat split; congruence.
Qed.

Lemma piso_pass_same_sums M api s :
  same_sums s (Piso.piso_pass bcs prm ctl M api s).
Proof. now repeat split. Qed.

Lemma momentum_and_pressure_same_sums s :
  same_sums s (Piso.momentum_and_pressure bcs prm ctl s).
Proof.
  unfold Piso.momentum_and_pressure.
  apply (repeat_n_invariant (same_sums s)).
  - intros s' H. eapply same_sums_trans; [exact H|].
    apply piso_pass_same_sums.
  - now repeat split.
Qed.

Lemma deferred_body_same_sums s :
  same_sums s (Piso.deferred_body bcs prm ctl s).
Proof.
  unfold Piso.deferred_body.
  eapply same_sums_trans; [apply momentum_and_pressure_same_sums|].
  now repeat split.
Qed.

Lemma after_solves_sums i s :
  let s1 := piso_after_solves bcs prm ctl i s in
  Piso.Uavg s1 = Piso.Uavg s /\ Piso.Ustd s1 = Piso.Ustd s /\
  Piso.pavg s1 = Piso.pavg s /\ Piso.pstd s1 = Piso.pstd s.
Proof.
  intros s1.
  assert (H : same_sums (Piso.print_step ctl i s) s1).
  { apply (repeat_n_invariant (same_sums (Piso.print_step ctl i s))).
    - intros s' H. eapply same_sums_trans; [exact H|].
      apply deferred_body_same_sums.
    - apply same_sums_refl. }
  destruct H as (H1 & H2 & H3 & H4 & _).
  rewrite H1, H2, H3, H4. unfold Piso.print_step.
  destruct (Nat.eqb host_id 0); now repeat split.
Qed.

Lemma time_step_unfold i s :
  Piso.time_step bcs prm ctl pp i s =
  Piso.write_result prm ctl i
    (Piso.probe_lines pp i
       (Piso.les_accumulate prm (piso_after_solves bcs prm ctl i s))).
Proof. reflexivity. Qed.

Lemma probe_lines_fields i s :
  let s' := Piso.probe_lines pp i s in
  Piso.Uavg s' = Piso.Uavg s /\ Piso.Ustd s' = Piso.Ustd s /\
  Piso.pavg s' = Piso.pavg s /\ Piso.pstd s' = Piso.pstd s /\
  Piso.out s' = Piso.out s /\ Piso.U s' = Piso.U s /\ Piso.p s' = Piso.p s.
Proof.
  unfold Piso.probe_lines. destruct pp; now repeat split.
Qed.

End LES.

Section LESCheckpoint.

Local Open Scope R_scope.

Context {L : FVLib}.

Lemma vector_checkpoint n (sum sumsq : Vector) :
  tsqrt (tdivs (tadd sumsq
                  (tmul (tdivs sum n)
                        (tsub (tscale n (tdivs sum n)) (tscale 2 sum)))) n) =
  Stats.vdeviation n sum sumsq.
Proof.
  destruct sum as [a1 a2 a3], sumsq as [b1 b2 b3].
  unfold Stats.vdeviation. simpl. unfold vmap, vmap2. simpl.
  now rewrite !StatsFacts.checkpoint_scalar.
Qed.

(** The LES branch of a write: the sums are as before, and one pair of
    write calls has seen mean and deviation in their place. *)
Lemma les_checkpoint_spec i (s : Piso.State) :
  let s' := Piso.les_checkpoint i s in
  let n := INR i in
  (Piso.Uavg s' = Piso.Uavg s /\ Piso.Ustd s' = Piso.Ustd s /\
   Piso.pavg s' = Piso.pavg s /\ Piso.pstd s' = Piso.pstd s) /\
  exists snap,
    Piso.out s' =
      (Piso.out s ++ [WriteFields (Piso.step s) snap;
                      WriteVtk (Piso.step s) snap])%list /\
    forall c,
      Piso.sUavg snap c = tdivs (Piso.Uavg s c) n /\
      Piso.spavg snap c = Piso.pavg s c / n /\
      Piso.sUstd snap c =
        Stats.vdeviation n (Piso.Uavg s c) (Piso.Ustd s c) /\
      Piso.spstd snap c =
        Stats.deviation n (Piso.pavg s c) (Piso.pstd s c).
Proof.
  intros s' n. split; [now repeat split|].
  eexists. split; [reflexivity|].
  intros c. simpl. split; [reflexivity|]. split; [reflexivity|]. split.
  - unfold Field.sqrt, Field.divs, Field.add, Field.mul, Field.sub,
      Field.scale. apply vector_checkpoint.
  - unfold Field.sqrt, Field.divs, Field.add, Field.mul, Field.sub,
      Field.scale. simpl. apply StatsFacts.checkpoint_scalar.
Qed.

End LESCheckpoint.

(** C9.  With [les_average] on, each time step adds the velocity, the
    pressure and their squares, as they are after the solves of the step, to
    the four running sums, once; this is also what the sums are after a
    write, which puts them back.  At a write in step [i > 0] the files see,
    in place of the sums, the mean [sum / i] and the deviation
    [sqrt((sumsq - 2 mean sum + i mean^2) / i)], which equals
    [sqrt(sumsq / i - mean^2)]. *)
Theorem C9_les_running_statistics {L : FVLib}
    (bcs : Registry) (prm : Piso.Params) (ctl : Controls.t) (pp : IntVector)
    (i : Int) (s : Piso.State) :
  Piso.LESaverage prm <> 0 ->
  0 < i ->
  let s1 := DriverSpec.piso_after_solves bcs prm ctl i s in
  let s' := Piso.time_step bcs prm ctl pp i s in
  let n := INR i in
  (Piso.Uavg s' = Field.add (Piso.Uavg s) (Piso.U s1) /\
   Piso.pavg s' = Field.add (Piso.pavg s) (Piso.p s1) /\
   Piso.Ustd s' =
     Field.add (Piso.Ustd s) (Field.mul (Piso.U s1) (Piso.U s1)) /\
   Piso.pstd s' =
     Field.add (Piso.pstd s) (Field.mul (Piso.p s1) (Piso.p s1))) /\
  (i mod Controls.write_interval ctl = 0 ->
   exists snap,
     Piso.out s' =
       Piso.out s1 ++
       [WriteFields (i / Controls.write_interval ctl) snap;
        WriteVtk (i / Controls.write_interval ctl) snap] /\
     forall c,
       Piso.sUavg snap c = tdivs (Piso.Uavg s' c) n /\
       Piso.spavg snap c = (Piso.pavg s' c / n)%R /\
       Piso.sUstd snap c =
         Stats.vdeviation n (Piso.Uavg s' c) (Piso.Ustd s' c) /\
       Piso.spstd snap c =
         Stats.deviation n (Piso.pavg s' c) (Piso.pstd s' c) /\
       Piso.sUstd snap c =
         Stats.vclosed_form n (Piso.Uavg s' c) (Piso.Ustd s' c) /\
       Piso.spstd snap c =
         Stats.closed_form n (Piso.pavg s' c) (Piso.pstd s' c)).
Proof.
  intros Hles Hi s1 s' n.
  assert (Hn : n <> 0%R) by (apply not_0_INR; lia).
  destruct (after_solves_sums bcs prm ctl i s) as (A1 & A2 & A3 & A4).
  fold s1 in A1, A2, A3, A4.
  unfold s'. rewrite time_step_unfold. fold s1.
  set (s2 := Piso.les_accumulate prm s1).
  assert (B : Piso.Uavg s2 = Field.add (Piso.Uavg s) (Piso.U s1) /\
              Piso.pavg s2 = Field.add (Piso.pavg s) (Piso.p s1) /\
              Piso.Ustd s2 =
                Field.add (Piso.Ustd s) (Field.mul (Piso.U s1) (Piso.U s1)) /\
              Piso.pstd s2 =
                Field.add (Piso.pstd s) (Field.mul (Piso.p s1) (Piso.p s1)) /\
              Piso.out s2 = Piso.out s1).
  { unfold s2, Piso.les_accumulate.
    destruct (Nat.eqb_spec (Piso.LESaverage prm) 0) as [E | _];
      [contradiction|].
    simpl. rewrite A1, A2, A3, A4. now repeat split. }
  destruct B as (B1 & B2 & B3 & B4 & B5).
  destruct (probe_lines_fields pp i s2) as (P1 & P2 & P3 & P4 & P5 & _).
  set (s3 := Piso.probe_lines pp i s2) in *.
  unfold Piso.write_result.
  destruct (Nat.eqb_spec (i mod Controls.write_interval ctl) 0) as [E | E].
  - destruct (Nat.eqb_spec (Piso.LESaverage prm) 0) as [E' | _];
      [contradiction|].
    destruct (les_checkpoint_spec i
                (Piso.set_step s3 (i / Controls.write_interval ctl)))
      as ((C1 & C2 & C3 & C4) & snap & Hout & Hsnap).
    rewrite C1, C2, C3, C4.
    cbn [Piso.set_step Piso.Uavg Piso.Ustd Piso.pavg Piso.pstd Piso.out
         Piso.step] in *.
    rewrite P1, P2, P3, P4.
    split; [now repeat split|].
    intros _. exists snap. split.
    + rewrite Hout. now rewrite P5, B5.
    + intros c. destruct (Hsnap c) as (H1 & H2 & H3 & H4).
      rewrite P1 in H1, H3. rewrite P2 in H3. rewrite P3 in H2, H4.
      rewrite P4 in H4.
      repeat split; try assumption.
      * rewrite H3. now apply StatsFacts.vdeviation_closed_form.
      * rewrite H4. now apply StatsFacts.deviation_closed_form.
  - rewrite P1, P2, P3, P4. split; [now repeat split|].
    intros E'. contradiction.
Qed.

Section LESSample.

#[local] Existing Instance Sample.lib.

(** C9, witness: one steady step of the sample run with [les_average] on. *)
Lemma C9_les_running_statistics_witness :
  let s := Sample.piso_state in
  let prm := Sample.piso_params 0 0 1 in
  Piso.pavg (Piso.time_step [] prm Sample.steady [] 1 s) =
  Field.add (Piso.pavg s)
            (Piso.p (DriverSpec.piso_after_solves [] prm Sample.steady 1 s)).
Proof.
  intros s prm.
  refine (proj1 (proj2 (proj1
    (C9_les_running_statistics [] prm Sample.steady [] 1 s _ _)))).
  - simpl. discriminate.
  - lia.
Defined.

End LESSample.

(* ------------------------------------------------------------------ *)
(** ** Wall distance and potential flow                                *)
(* ------------------------------------------------------------------ *)

Module WalldistFacts.

Import DriverSpec.
Local Open Scope string_scope.

Lemma is_wall_iff bname :
  Walldist.is_wall bname = true <-> contains_WALL bname.
Proof.
  unfold Walldist.is_wall, Walldist.find, contains_WALL.
  destruct (index 0 "WALL" bname) as [m |] eqn:E.
  - split; [intros _ | reflexivity].
    exists m. exact (index_correct1 0 m "WALL" bname E).
  - split; [discriminate|].
    intros [m Hm]. exfalso.
    apply (index_correct3 0 m "WALL" bname E); [discriminate | lia | exact Hm].
Qed.

Lemma fold_left_push {A B} (f : A -> B) (l : list A) (acc : list B) :
  fold_left (fun acc x => (acc ++ [f x])%list) l acc = (acc ++ map f l)%list.
Proof.
  revert acc. induction l as [| x l IH]; intros acc; simpl.
  - now rewrite app_nil_r.
  - rewrite IH, <- app_assoc. reflexivity.
Qed.

Lemma mag_squared (v : Vector) : (mag v * mag v = dot v v)%R.
Proof.
  unfold mag. apply sqrt_sqrt. unfold dot.
  pose proof (Rle_0_sqr (vx v)). pose proof (Rle_0_sqr (vy v)).
  pose proof (Rle_0_sqr (vz v)). unfold Rsqr in *. lra.
Qed.

End WalldistFacts.

(** C6.  [Mesh::calc_walldist] adds one boundary condition per patch to the
    registry, with value 0 and kind [DIRICHLET] when the patch name contains
    [WALL], [NEUMANN] otherwise; with these it solves [lap(phi,1) == -cV]
    from [phi = 0], and sets
    [yWall = sqrt(|grad phi|^2 + 2 phi) - |grad phi|] in every cell. *)
Theorem C6_wall_distance {L : FVLib}
    (gBoundaries : Boundaries) (phi_fName : string) (bcs0 : Registry)
    (step : Int) :
  let r := Walldist.calc_walldist gBoundaries phi_fName bcs0 step in
  let bcs := Walldist.AllBConditions r in
  let kind := fun bname =>
    if Walldist.is_wall bname then "DIRICHLET"%string
    else "NEUMANN"%string in
  let phi0 := updateExplicitBCs bcs (Field.const 0%R) true true in
  let g := FillBoundaryValues bcs (grad bcs (Walldist.phi r)) in
  bcs = bcs0 ++
        map (fun it =>
               ScalarBC (init_indices gBoundaries
                           (mkBCondition phi_fName (fst it) (kind (fst it))
                                         0%R [])))
            gBoundaries /\
  (forall bname,
      (kind bname = "DIRICHLET"%string <-> DriverSpec.contains_WALL bname) /\
      (kind bname = "NEUMANN"%string <-> ~ DriverSpec.contains_WALL bname)) /\
  Walldist.phi r =
    Solve bcs (meq (lap bcs phi0 (Field.const 1%R)) (fun c => (- cV c)%R))
          phi0 /\
  (forall c,
      Walldist.yWall r c =
      (sqrt (mag (g c) * mag (g c) + 2 * Walldist.phi r c) - mag (g c))%R) /\
  Walldist.out r = [WriteFields step (Walldist.yWall r);
                    WriteVtk step (Walldist.yWall r)].
Proof.
  intros r bcs kind phi0 g.
  split.
  { unfold bcs, r, Walldist.calc_walldist. simpl.
    unfold Walldist.add_wall_bcs.
    rewrite (WalldistFacts.fold_left_push
               (fun it => ScalarBC (Walldist.wall_bc gBoundaries phi_fName
                                                     (fst it)))).
    f_equal. apply map_ext. intros [bname idx]. simpl.
    unfold Walldist.wall_bc, kind. now destruct (Walldist.is_wall bname). }
  split.
  { intros bname. unfold kind.
    pose proof (WalldistFacts.is_wall_iff bname) as H.
    destruct (Walldist.is_wall bname).
    - split; split.
      + intros _. now apply H.
      + reflexivity.
      + discriminate.
      + intros Hn. exfalso. apply Hn. now apply H.
    - split; split.
      + discriminate.
      + intros Hc. apply H in Hc. discriminate.
      + intros _ Hc. apply H in Hc. discriminate.
      + reflexivity. }
  split; [reflexivity|]. split; [|reflexivity].
  intros c. rewrite WalldistFacts.mag_squared. reflexivity.
Qed.

(** The steps of [potential]: it sets velocity and pressure to zero in the
    internal cells and refreshes their boundary values, evaluates [div(U)]
    once, solves [lap(p,1) == div(U)] in [n_ORTHO + 1] passes from the
    latest pressure, and leaves [U - grad(p)] with refreshed boundary values
    as the velocity.  What the divergence of that velocity is rests with
    [grad], [div], [lap], [Solve] and [updateExplicitBCs], none of which is
    among the sources. *)
Lemma potential_flow_steps {L : FVLib}
    (bcs : Registry) (ctl : Controls.t) (n_ORTHO : Int)
    (s0 : Potential.State) :
  let r := Potential.potential bcs ctl n_ORTHO s0 in
  let U0 := updateExplicitBCs bcs
              (fun i => if Nat.ltb i gBCellsStart then (mkVector 0 0 0)%R
                        else Potential.U s0 i) true false in
  let p0 := updateExplicitBCs bcs
              (fun i => if Nat.ltb i gBCellsStart then 0%R
                        else Potential.p s0 i) true false in
  let divU := div bcs U0 in
  let pk := fun k =>
    repeat_n k (fun q => Solve bcs (meq (lap bcs q (Field.const 1%R)) divU) q)
             p0 in
  Potential.p r = pk (S n_ORTHO) /\
  (forall k, pk (S k) =
             Solve bcs (meq (lap bcs (pk k) (Field.const 1%R)) divU) (pk k)) /\
  Potential.U r =
    updateExplicitBCs bcs (Field.sub U0 (grad bcs (Potential.p r)))
                      true false.
Proof.
  intros r U0 p0 divU pk.
  split; [reflexivity|]. split; [|reflexivity].
  intros k. unfold pk. now rewrite repeat_n_S_r.
Qed.

(* ------------------------------------------------------------------ *)
(** ** More about [util.h]                                             *)
(* ------------------------------------------------------------------ *)

Module VectorUtilFacts.

Import VectorUtil.

Section Equal.

Context {T : Type} (eqb : T -> T -> bool).
Hypothesis eqb_eq : forall x y, eqb x y = true <-> x = y.

Lemma inner_loop_le x v2 j : inner_loop eqb x v2 j <= j + List.length v2.
Proof.
  revert j. induction v2 as [| y v2 IH]; intros j; simpl; [lia|].
  destruct (eqb x y); [lia|]. specialize (IH (S j)). lia.
Qed.

Lemma inner_loop_end x v2 j :
  inner_loop eqb x v2 j = j + List.length v2 <-> ~ In x v2.
Proof.
  revert j. induction v2 as [| y v2 IH]; intros j; simpl.
  - split; [tauto | lia].
  - destruct (eqb x y) eqn:E.
    + apply eqb_eq in E. subst y. split; [lia | tauto].
    + assert (Hne : y <> x).
      { intros ->. assert (E' : eqb x x = true) by now apply eqb_eq.
        congruence. }
      specialize (IH (S j)). split.
      * intros H. assert (H' : ~ In x v2) by (apply IH; lia). tauto.
      * intros H. assert (H' : ~ In x v2) by tauto. apply IH in H'. lia.
Qed.

Lemma inner_loop_found x v2 j :
  inner_loop eqb x v2 j < j + List.length v2 -> In x v2.
Proof.
  revert j. induction v2 as [| y v2 IH]; intros j; simpl; [lia|].
  destruct (eqb x y) eqn:E.
  - intros _. left. symmetry. now apply eqb_eq.
  - intros H. right. apply (IH (S j)). lia.
Qed.

Lemma equal_incl v1 v2 :
  equal eqb v1 v2 = true <-> (forall x, In x v1 -> In x v2).
Proof.
  induction v1 as [| x v1 IH]; simpl.
  - split; [intros _ y [] | reflexivity].
  - destruct (Nat.eqb_spec (inner_loop eqb x v2 0) (List.length v2)) as [E | E].
    + assert (Hn : ~ In x v2) by (apply (inner_loop_end x v2 0); lia).
      split; [discriminate|]. intros H. exfalso. apply Hn, H. now left.
    + assert (Hin : In x v2)
        by (apply (inner_loop_found x v2 0);
            pose proof (inner_loop_le x v2 0); lia).
      rewrite IH. split.
      * intros H y [<- | Hy]; auto.
      * intros H y Hy. apply H. now right.
Qed.

End Equal.

Section IO.

Context {T : Type} {IOT : TokenIO T} {IOInt : TokenIO Int}.

Hypothesis get_put_Int :
  forall (n old : Int) (rest : Util.istream),
    get (put n ++ rest) old = (n, rest).
Hypothesis get_put :
  forall (x old : T) (rest : Util.istream),
    get (put x ++ rest) old = (x, rest).

Lemma resize_length (p : list T) n : List.length (resize p n) = n.
Proof.
  unfold resize. rewrite length_app, repeat_length, length_firstn. lia.
Qed.

Lemma get_elements_put (v olds : list T) rest :
  List.length olds = List.length v ->
  get_elements olds (flat_map put v ++ rest) = (v, rest).
Proof.
  revert olds. induction v as [| x v IH]; intros [| o olds] Hl;
    simpl in *; try discriminate; [reflexivity|].
  rewrite <- app_assoc, get_put, IH by lia. reflexivity.
Qed.

Lemma vector_get_put (v old : list T) rest :
  vector_get (vector_put v ++ rest) old = (v, rest).
Proof.
  unfold vector_get, vector_put.
  rewrite <- app_assoc, get_put_Int. simpl.
  rewrite <- app_assoc, get_elements_put by apply resize_length.
  reflexivity.
Qed.

End IO.

End VectorUtilFacts.

(** X1.  [equal(v1, v2)] of [util.h] tests inclusion, not equality: it is
    true exactly when every element of [v1] occurs somewhere in [v2]
    (whatever the order, the multiplicities and the further elements of
    [v2]). *)
Theorem X1_vector_equal_is_inclusion {T : Type} (eqb : T -> T -> bool)
    (v1 v2 : list T) :
  (forall x y, eqb x y = true <-> x = y) ->
  (VectorUtil.equal eqb v1 v2 = true <-> (forall x, In x v1 -> In x v2)) /\
  VectorUtil.equal eqb [] v2 = true /\
  (v1 <> [] -> VectorUtil.equal eqb v1 [] = false).
Proof.
  intros H. split; [now apply VectorUtilFacts.equal_incl|].
  split; [reflexivity|].
  destruct v1 as [| x v1]; [congruence | reflexivity].
Qed.

(** X1, witness: [1;2;2] is "equal" to [2;3;1], but not the other way
    round. *)
Lemma X1_vector_equal_is_inclusion_witness :
  VectorUtil.equal Nat.eqb [1; 2; 2] [2; 3; 1] = true /\
  VectorUtil.equal Nat.eqb [2; 3; 1] [1; 2; 2] = false.
Proof.
  destruct (X1_vector_equal_is_inclusion Nat.eqb [1; 2; 2] [2; 3; 1]
              Nat.eqb_eq) as ((_ & H) & _).
  split; [|reflexivity].
  apply H. intros x Hx. simpl in *. lia.
Defined.

Module DecimalFacts.

(** The digits of a number are all of its token. *)
Lemma digits_prefix_of_digits (d : Decimal.uint) :
  VectorUtil.digits_prefix (NilEmpty.string_of_uint d)
  = (NilEmpty.string_of_uint d, EmptyString).
Proof.
  induction d; simpl; try rewrite IHd; reflexivity.
Qed.

Lemma digits_not_empty (n : nat) :
  NilEmpty.string_of_uint (Nat.to_uint n) <> EmptyString.
Proof.
  destruct (Nat.to_uint n) eqn:E; simpl; try discriminate.
  pose proof (Unsigned.of_to n) as H. rewrite E in H. simpl in H.
  subst n. discriminate E.
Qed.

(** A number that was written is read back, and the stream is left after
    it. *)
Lemma get_put (n o : Int) (r : Util.istream) :
  VectorUtil.get (TokenIO := VectorUtil.decimal_IO)
    (VectorUtil.put (TokenIO := VectorUtil.decimal_IO) n ++ r) o = (n, r).
Proof.
  simpl. rewrite digits_prefix_of_digits.
  pose proof (digits_not_empty n) as H.
  destruct (NilEmpty.string_of_uint (Nat.to_uint n)) eqn:E; [congruence|].
  rewrite <- E, NilEmpty.usu, Unsigned.of_to. reflexivity.
Qed.

End DecimalFacts.

(** X2.  Reading back what [operator <<] wrote: when extraction undoes
    insertion for the size and for every element, [operator >>] on the
    output of [operator <<] for a vector [v], followed by anything, returns
    [v] and leaves that rest, whatever the vector held before. *)
Theorem X2_vector_read_after_write {T : Type}
    {IOT : VectorUtil.TokenIO T} {IOInt : VectorUtil.TokenIO Int}
    (v old : list T) (rest : Util.istream) :
  (forall (n o : Int) r, VectorUtil.get (VectorUtil.put n ++ r) o = (n, r)) ->
  (forall (x o : T) r, VectorUtil.get (VectorUtil.put x ++ r) o = (x, r)) ->
  VectorUtil.vector_get (VectorUtil.vector_put v ++ rest) old = (v, rest).
Proof.
  intros H1 H2. now apply VectorUtilFacts.vector_get_put.
Qed.

(** X2, witness: unsigned numbers written in decimal, with a decimal
    size. *)
Lemma X2_vector_read_after_write_witness :
  VectorUtil.vector_get (IOT := VectorUtil.decimal_IO)
    (IOInt := VectorUtil.decimal_IO)
    (VectorUtil.vector_put (IOT := VectorUtil.decimal_IO)
       (IOInt := VectorUtil.decimal_IO) [10; 20]
     ++ ["next"]%string)
    [7]
  = ([10; 20], ["next"]%string).
Proof.
  apply (X2_vector_read_after_write (IOT := VectorUtil.decimal_IO)
           (IOInt := VectorUtil.decimal_IO));
    intros n o r; apply DecimalFacts.get_put.
Defined.

Module OptionFacts.

Import Util.
Local Open Scope string_scope.

Lemma getID_from_first l str i j :
  getID_from l str i = Some j ->
  forall k e, k < j - i -> nth_error l k = Some e ->
              transform toupper e <> transform toupper str.
Proof.
  revert i. induction l as [| x l IH]; intros i; simpl; [discriminate|].
  destruct (Z.eqb_spec (compare x str) 0) as [E | E].
  - intros [= <-] k e Hk. lia.
  - intros H [| k] e Hk Hn; simpl in Hn.
    + injection Hn as <-. intros K. apply E. now apply UtilFacts.compare_zero_iff.
    + apply (IH _ H k e); [|exact Hn].
      destruct (UtilFacts.getID_from_sound _ _ _ _ H) as [Hle _]. lia.
Qed.

Lemma getID_from_range l str i j :
  getID_from l str i = Some j -> j < i + List.length l.
Proof.
  revert i. induction l as [| x l IH]; intros i; simpl; [discriminate|].
  destruct (Z.eqb (compare x str) 0).
  - intros [= <-]. lia.
  - intros H. apply IH in H. lia.
Qed.

Lemma compare_refl s : compare s s = 0%Z.
Proof. now apply UtilFacts.compare_zero_iff. Qed.

Lemma getID_from_nth l i v e :
  NoDup (map (transform toupper) l) -> nth_error l v = Some e ->
  getID_from l e i = Some (i + v).
Proof.
  revert i v. induction l as [| x l IH]; intros i v Hnd Hn.
  - destruct v; discriminate.
  - simpl in Hnd. apply NoDup_cons_iff in Hnd. destruct Hnd as [Hx Hnd].
    destruct v as [| v]; simpl in Hn |- *.
    + injection Hn as ->. rewrite compare_refl. simpl. f_equal. lia.
    + destruct (Z.eqb_spec (compare x e) 0) as [E | E].
      * exfalso. apply Hx. apply UtilFacts.compare_zero_iff in E. rewrite E.
        apply in_map. eapply nth_error_In. exact Hn.
      * rewrite (IH (S i) v Hnd Hn). f_equal. lia.
Qed.

End OptionFacts.

(** X3.  [Option::getID] returns the first match and stays in range: with
    a non-empty list of names the result is a valid index; when some name
    equals the string up to case, nothing is printed, the name at the
    returned index is such a name, and no earlier name is. *)
Theorem X3_getID_first_match_in_range (p : Util.Option) (str : string) :
  let up := Util.transform Util.toupper in
  let i := fst (Util.getID p str) in
  (Util.list p <> [] -> i < List.length (Util.list p)) /\
  ((exists e, In e (Util.list p) /\ up e = up str) ->
   snd (Util.getID p str) = [] /\
   (exists e, nth_error (Util.list p) i = Some e /\ up e = up str) /\
   (forall j e, j < i -> nth_error (Util.list p) j = Some e ->
                up e <> up str)).
Proof.
  intros up i. unfold i, Util.getID.
  destruct (Util.getID_from (Util.list p) str 0) as [j |] eqn:E; simpl.
  - split.
    + intros _. apply OptionFacts.getID_from_range in E. lia.
    + intros _.
      destruct (UtilFacts.getID_from_sound _ _ _ _ E) as (_ & e & Hn & He).
      rewrite Nat.sub_0_r in Hn.
      split; [reflexivity|]. split; [now exists e|].
      intros k e' Hk. apply (OptionFacts.getID_from_first _ _ _ _ E). lia.
  - split.
    + intros Hne. destruct (Util.list p); [congruence | simpl; lia].
    + intros (e & Hin & He).
      destruct (UtilFacts.getID_from_complete _ _ 0 e Hin He) as [j Hj].
      congruence.
Qed.

(** X3, witness: with the names [KE], [ke], [KW], the string [Ke] selects
    index 0. *)
Lemma X3_getID_first_match_in_range_witness :
  snd (Util.getID (Util.mkOption 2 ["KE"; "ke"; "KW"]%string) "Ke") = [] /\
  fst (Util.getID (Util.mkOption 2 ["KE"; "ke"; "KW"]%string) "Ke") < 3.
Proof.
  destruct (X3_getID_first_match_in_range
              (Util.mkOption 2 ["KE"; "ke"; "KW"]%string) "Ke") as [R F].
  split.
  - apply F. exists "ke"%string. split; [simpl; tauto | reflexivity].
  - apply R. discriminate.
Defined.

Module TokenFacts.

Import UtilSpec.
Local Open Scope string_scope.

Lemma append_empty (s : string) : s ++ "" = s.
Proof. induction s; simpl; congruence. Qed.

Lemma append_step (w : string) (c : ascii) (s : string) :
  (w ++ String c "") ++ s = w ++ String c s.
Proof. induction w; simpl; congruence. Qed.

Lemma tokens_of_blank_free (s word : string) :
  blank_free s = true ->
  tokens_from s word = close_word (word ++ s).
Proof.
  revert word. induction s as [|c s IH]; intros word H; simpl in *.
  - now rewrite append_empty.
  - apply andb_prop in H. destruct H as [Hc Hs].
    destruct (is_blank c); [discriminate|].
    rewrite (IH _ Hs). now rewrite append_step.
Qed.

(** A token is written as itself. *)
Lemma written_token (s : string) (inp : Util.istream) :
  is_token s -> written s inp = s :: inp.
Proof.
  intros [Hne Hbf]. unfold written.
  rewrite (tokens_of_blank_free _ _ Hbf). simpl.
  now destruct s.
Qed.

End TokenFacts.

(** X4.  Writing an option and reading it back: when the stored value is a
    valid index, the name that [operator <<] prints is a single word (not
    empty and without white space, so that [is >> str] reads all of it) and
    the names differ pairwise even when case is ignored, extracting from
    the text that was written gives the same option back, with nothing
    printed, and leaves the stream after that text. *)
Theorem X4_option_read_after_write (p : Util.Option) (inp : Util.istream) :
  Util.val p < List.length (Util.list p) ->
  UtilSpec.is_token (Util.Option_show p) ->
  NoDup (map (Util.transform Util.toupper) (Util.list p)) ->
  Util.Option_extract (UtilSpec.written (Util.Option_show p) inp) p
  = (p, inp, []).
Proof.
  intros Hv Ht Hnd. rewrite (TokenFacts.written_token _ _ Ht).
  unfold Util.Option_extract, Util.Option_show. simpl.
  assert (Hn : nth_error (Util.list p) (Util.val p) =
               Some (nth (Util.val p) (Util.list p) ""%string))
    by now apply nth_error_nth'.
  unfold Util.getID.
  rewrite (OptionFacts.getID_from_nth _ 0 _ _ Hnd Hn). simpl.
  now destruct p.
Qed.

(** X4, witness: the [turbulence_model] option with its initial value. *)
Lemma X4_option_read_after_write_witness :
  Util.Option_extract
    (UtilSpec.written (Util.Option_show PisoSetup.turbulence_model_option)
       ["les_average"]%string)
    PisoSetup.turbulence_model_option =
  (PisoSetup.turbulence_model_option, ["les_average"]%string, []).
Proof.
  apply (X4_option_read_after_write PisoSetup.turbulence_model_option
           ["les_average"]%string).
  - simpl. lia.
  - split; [discriminate | reflexivity].
  - vm_compute. repeat constructor; simpl; intuition discriminate.
Defined.

Module SetupFacts.

Import Util.
Local Open Scope string_scope.

Lemma compare_eqb x s :
  Z.eqb (compare x s) 0 =
  String.eqb (transform toupper x) (transform toupper s).
Proof.
  unfold compare.
  now destruct (String.eqb (transform toupper x) (transform toupper s)).
Qed.

Lemma toupper_idempotent c : toupper (toupper c) = toupper c.
Proof.
  destruct (le_lt_dec 97 (nat_of_ascii c)) as [H1 | H1];
    [destruct (le_lt_dec (nat_of_ascii c) 122) as [H2 | H2]|].
  - rewrite (UtilFacts.toupper_of_lower c) by lia.
    apply UtilFacts.toupper_of_other. left.
    rewrite nat_ascii_embedding by lia. lia.
  - rewrite (UtilFacts.toupper_of_other c) by lia.
    apply UtilFacts.toupper_of_other. lia.
  - rewrite (UtilFacts.toupper_of_other c) by lia.
    apply UtilFacts.toupper_of_other. lia.
Qed.

Lemma transform_toupper_idempotent s :
  transform toupper (transform toupper s) = transform toupper s.
Proof.
  induction s as [| c s IH]; simpl; [reflexivity|].
  now rewrite toupper_idempotent, IH.
Qed.

End SetupFacts.

(** X5.  [les_average] switches the averaging on exactly when its token is
    [YES] in any mixture of cases; every other token, known or not, leaves
    [LESaverage] at 0; and a diagnostic is printed exactly when the token is
    neither [YES] nor [NO]. *)
Theorem X5_les_average_on_iff_yes (token : string) :
  let up := Util.transform Util.toupper token in
  (fst (PisoSetup.read_les_average token) <> 0 <-> up = "YES"%string) /\
  (fst (PisoSetup.read_les_average token) = 1 \/
   fst (PisoSetup.read_les_average token) = 0) /\
  (snd (PisoSetup.read_les_average token) = [] <->
   up = "YES"%string \/ up = "NO"%string).
Proof.
  intros up.
  unfold PisoSetup.read_les_average, Util.Option_extract, Util.getID. simpl.
  rewrite !SetupFacts.compare_eqb. fold up.
  change (Util.transform Util.toupper "NO") with "NO"%string.
  change (Util.transform Util.toupper "YES") with "YES"%string.
  destruct (String.eqb_spec "NO" up) as [E1 | E1];
    [| destruct (String.eqb_spec "YES" up) as [E2 | E2]]; simpl.
  all: try rewrite <- E1; try rewrite <- E2; repeat split; intros;
    try discriminate; try congruence; try lia; auto.
  exfalso. destruct H as [H | H]; [apply E2 | apply E1]; now rewrite H.
Qed.

(** X6.  The choice of the turbulence model from the [turbulence_model]
    token: the wall distance is needed exactly for [MIXING_LENGTH] and [LES]
    (in any case); the plain [Turbulence_Model] is constructed exactly when
    the token is none of the six model names, so an unknown token selects no
    model (as [NONE] does) and not the initial [KE]; and a diagnostic is
    printed exactly when the token is none of the seven names. *)
Theorem X6_turbulence_model_selection (token : string) :
  let up := Util.transform Util.toupper token in
  let turb_model := fst (PisoSetup.read_turbulence_model token) in
  (snd (PisoSetup.select_model turb_model) = true <->
   up = "MIXING_LENGTH"%string \/ up = "LES"%string) /\
  (fst (PisoSetup.select_model turb_model) = PisoSetup.Turbulence_Model_class
   <-> ~ In up ["MIXING_LENGTH"; "KE"; "RNG_KE"; "REALIZABLE_KE"; "KW";
                "LES"]%string) /\
  (snd (PisoSetup.read_turbulence_model token) = [] <->
   In up ["NONE"; "MIXING_LENGTH"; "KE"; "RNG_KE"; "REALIZABLE_KE"; "KW";
          "LES"]%string).
Proof.
  intros up turb_model. unfold turb_model.
  unfold PisoSetup.read_turbulence_model, Util.Option_extract, Util.getID.
  simpl. rewrite !SetupFacts.compare_eqb. fold up.
  change (Util.transform Util.toupper "NONE") with "NONE"%string.
  change (Util.transform Util.toupper "MIXING_LENGTH")
    with "MIXING_LENGTH"%string.
  change (Util.transform Util.toupper "KE") with "KE"%string.
  change (Util.transform Util.toupper "RNG_KE") with "RNG_KE"%string.
  change (Util.transform Util.toupper "REALIZABLE_KE")
    with "REALIZABLE_KE"%string.
  change (Util.transform Util.toupper "KW") with "KW"%string.
  change (Util.transform Util.toupper "LES") with "LES"%string.
  destruct (String.eqb_spec "NONE" up) as [E0 | E0];
  [| destruct (String.eqb_spec "MIXING_LENGTH" up) as [E1 | E1];
  [| destruct (String.eqb_spec "KE" up) as [E2 | E2];
  [| destruct (String.eqb_spec "RNG_KE" up) as [E3 | E3];
  [| destruct (String.eqb_spec "REALIZABLE_KE" up) as [E4 | E4];
  [| destruct (String.eqb_spec "KW" up) as [E5 | E5];
  [| destruct (String.eqb_spec "LES" up) as [E6 | E6]]]]]]];
  simpl;
  try rewrite <- E0; try rewrite <- E1; try rewrite <- E2;
  try rewrite <- E3; try rewrite <- E4; try rewrite <- E5;
  try rewrite <- E6;
  (split; [|split]); split; intros H;
  try discriminate; try reflexivity; try tauto;
  try (intuition discriminate);
  try (exfalso; apply H; simpl; tauto);
  try (exfalso; intuition congruence).
Qed.

(** X7.  [Util::compare] is case-insensitive equality: it returns 0 or 1,
    0 on equal strings, the same value with the arguments exchanged or with
    an argument put into upper case, and 0 for [s1], [s3] whenever it is 0
    for [s1], [s2] and for [s2], [s3]. *)
Theorem X7_compare_is_an_equivalence (s1 s2 s3 : string) :
  (Util.compare s1 s2 = 0%Z \/ Util.compare s1 s2 = 1%Z) /\
  Util.compare s1 s1 = 0%Z /\
  Util.compare s1 s2 = Util.compare s2 s1 /\
  Util.compare (Util.transform Util.toupper s1) s2 = Util.compare s1 s2 /\
  (Util.compare s1 s2 = 0%Z -> Util.compare s2 s3 = 0%Z ->
   Util.compare s1 s3 = 0%Z).
Proof.
  split; [|split; [|split; [|split]]].
  - unfold Util.compare. destruct (String.eqb _ _); tauto.
  - apply OptionFacts.compare_refl.
  - unfold Util.compare. now rewrite String.eqb_sym.
  - unfold Util.compare.
    now rewrite SetupFacts.transform_toupper_idempotent.
  - rewrite !UtilFacts.compare_zero_iff. congruence.
Qed.

(** X7, witness: [piso], [Piso] and [PISO]. *)
Lemma X7_compare_is_an_equivalence_witness :
  Util.compare "piso" "PISO" = 0%Z.
Proof.
  apply (proj2 (proj2 (proj2 (proj2
           (X7_compare_is_an_equivalence "piso" "Piso" "PISO")))));
    reflexivity.
Defined.

Module ParametersFacts.

Import Util.
Local Open Scope string_scope.

Lemma find_store_same {T} (l : Parameters T) k v w :
  find l k = Some w -> find (store l k v) k = Some v.
Proof.
  induction l as [| [k' x] l IH]; simpl; [discriminate|].
  destruct (String.eqb_spec k' k) as [-> | Hne]; simpl.
  - intros _. now rewrite String.eqb_refl.
  - intros H. destruct (String.eqb_spec k' k) as [E | _]; [contradiction|].
    now apply IH.
Qed.

Lemma find_store_other {T} (l : Parameters T) k k' v :
  k' <> k -> find (store l k v) k' = find l k'.
Proof.
  intros Hne. induction l as [| [k0 x] l IH]; simpl; [reflexivity|].
  destruct (String.eqb_spec k0 k) as [-> | H0]; simpl.
  - destruct (String.eqb_spec k k') as [E | _]; [congruence | reflexivity].
  - destruct (String.eqb k0 k'); [reflexivity | exact IH].
Qed.

Lemma keys_store {T} (l : Parameters T) k v :
  map fst (store l k v) = map fst l.
Proof.
  induction l as [| [k0 x] l IH]; simpl; [reflexivity|].
  destruct (String.eqb k0 k); simpl; [reflexivity | now rewrite IH].
Qed.

Lemma find_none_not_key {T} (l : Parameters T) k :
  find l k = None -> ~ In k (map fst l).
Proof.
  induction l as [| [k0 x] l IH]; simpl; [tauto|].
  destruct (String.eqb_spec k0 k) as [-> | Hne]; [discriminate|].
  intros H [E | Hin]; [contradiction | now apply IH].
Qed.

Lemma find_enroll_same {T} (l : Parameters T) k v :
  find (Parameters_enroll l k v) k = Some v.
Proof.
  unfold Parameters_enroll. destruct (find l k) as [w |] eqn:E.
  - now apply find_store_same with w.
  - simpl. now rewrite String.eqb_refl.
Qed.

Lemma find_enroll_other {T} (l : Parameters T) k k' v :
  k' <> k -> find (Parameters_enroll l k v) k' = find l k'.
Proof.
  intros Hne. unfold Parameters_enroll. destruct (find l k) as [w |].
  - now apply find_store_other.
  - simpl. destruct (String.eqb_spec k k') as [E | _];
      [congruence | reflexivity].
Qed.

Lemma keys_enroll_NoDup {T} (l : Parameters T) k v :
  NoDup (map fst l) -> NoDup (map fst (Parameters_enroll l k v)).
Proof.
  intros Hnd. unfold Parameters_enroll. destruct (find l k) as [w |] eqn:E.
  - now rewrite keys_store.
  - simpl. constructor; [now apply find_none_not_key | exact Hnd].
Qed.

End ParametersFacts.

(** X8.  [Parameters<T>::enroll] and [read] behave as a map with one entry
    per key: after [enroll(k, v)] the key [k] stands for [v], also when it
    was enrolled before, every other key stands for what it stood for, and
    the keys stay pairwise distinct; a later [read(k)] succeeds, stores the
    extracted value under [k] and leaves every other key alone. *)
Theorem X8_enroll_then_read {T : Type} {ST : Util.Streamable T}
    (l : Util.Parameters T) (k k' : string) (v : T)
    (inp : Util.istream) (out : bool) :
  k' <> k ->
  NoDup (map fst l) ->
  let l1 := Util.Parameters_enroll l k v in
  let r := Util.Parameters_read l1 k inp out in
  let l2 := snd (fst (fst r)) in
  Util.find l1 k = Some v /\
  Util.find l1 k' = Util.find l k' /\
  NoDup (map fst l1) /\
  fst (fst (fst r)) = true /\
  Util.find l2 k = Some (fst (fst (Util.extract inp v))) /\
  Util.find l2 k' = Util.find l k' /\
  snd (fst r) = snd (fst (Util.extract inp v)).
Proof.
  intros Hne Hnd l1 r l2.
  assert (F1 : Util.find l1 k = Some v)
    by apply ParametersFacts.find_enroll_same.
  split; [exact F1|].
  split; [now apply ParametersFacts.find_enroll_other|].
  split; [now apply ParametersFacts.keys_enroll_NoDup|].
  unfold l2, r, Util.Parameters_read. rewrite F1.
  destruct (Util.extract inp v) as [[v' inp'] o]. simpl.
  split; [reflexivity|].
  split; [now apply ParametersFacts.find_store_same with v|].
  split; [|reflexivity].
  rewrite ParametersFacts.find_store_other by exact Hne.
  now apply ParametersFacts.find_enroll_other.
Qed.

(** X8, witness: the [les_average] option enrolled beside
    [turbulence_model]. *)
Lemma X8_enroll_then_read_witness :
  let l := [("turbulence_model", PisoSetup.turbulence_model_option)]%string in
  Util.find (Util.Parameters_enroll l "les_average"
               PisoSetup.les_average_option) "turbulence_model" =
  Some PisoSetup.turbulence_model_option.
Proof.
  intros l.
  assert (H1 : "turbulence_model"%string <> "les_average"%string)
    by (intros H; discriminate H).
  assert (H2 : NoDup (map fst l))
    by (repeat constructor; simpl; tauto).
  exact (proj1 (proj2 (X8_enroll_then_read (ST := Util.Streamable_Option)
     l "les_average"
     "turbulence_model" PisoSetup.les_average_option ["YES"]%string true
     H1 H2))).
Defined.

(** X9.  Reading an option through its parameter list: when no [Int] and no
    [string] parameter has the key and the option member maps it to [p],
    [ParamList::read] takes exactly one token, stores the index chosen by
    [getID] in that option, leaves every other member as it was, and prints
    the diagnostic of [getID] followed, when echoing, by the name of the
    chosen enumerator. *)
Theorem X9_ParamList_reads_an_option
    {SInt : Util.Streamable Int} {SScalar : Util.Streamable Scalar}
    {SVector : Util.Streamable Vector} {SSTensor : Util.Streamable STensor}
    {STensor' : Util.Streamable Tensor}
    {Svec_int : Util.Streamable (list Int)}
    {Svec_string : Util.Streamable (list string)}
    {Svec_scalar : Util.Streamable (list Scalar)}
    {Svec_vector : Util.Streamable (list Vector)}
    (pl : Util.ParamList) (key token : string) (p : Util.Option)
    (inp : Util.istream) (out : bool) :
  Util.find (Util.params_Int pl) key = None ->
  Util.find (Util.params_string pl) key = None ->
  Util.find (Util.params_Option pl) key = Some p ->
  let id := fst (Util.getID p token) in
  Util.ParamList_read pl (token :: inp) key out =
    (Util.set_Option pl
       (Util.store (Util.params_Option pl) key
                   (Util.mkOption id (Util.list p))),
     inp,
     snd (Util.getID p token) ++
     (if out then [nth id (Util.list p) ""%string] else [])).
Proof.
  intros HI Hs Ho id. unfold Util.ParamList_read, Util.Parameters_read.
  rewrite HI, Hs, Ho. simpl. unfold Util.Option_extract. simpl.
  unfold id. now destruct (Util.getID p token).
Qed.

Section ParamListSample.

(** X9, witness: [turbulence_model les] in the parameter list of [piso]. *)
Lemma X9_ParamList_reads_an_option_witness :
  snd (Util.ParamList_read
         (SInt := UtilSpec.skip_one _) (SScalar := UtilSpec.skip_one _)
         (SVector := UtilSpec.skip_one _) (SSTensor := UtilSpec.skip_one _)
         (STensor' := UtilSpec.skip_one _) (Svec_int := UtilSpec.skip_one _)
         (Svec_string := UtilSpec.skip_one _)
         (Svec_scalar := UtilSpec.skip_one _)
         (Svec_vector := UtilSpec.skip_one _)
         PisoSetup.piso_ParamList
         ["les"; "les_average"; "YES"]%string "turbulence_model" true) =
  ["LES"]%string.
Proof.
  rewrite (X9_ParamList_reads_an_option
             (SInt := UtilSpec.skip_one _) (SScalar := UtilSpec.skip_one _)
             (SVector := UtilSpec.skip_one _) (SSTensor := UtilSpec.skip_one _)
             (STensor' := UtilSpec.skip_one _)
             (Svec_int := UtilSpec.skip_one _)
             (Svec_string := UtilSpec.skip_one _)
             (Svec_scalar := UtilSpec.skip_one _)
             (Svec_vector := UtilSpec.skip_one _)
             PisoSetup.piso_ParamList
             "turbulence_model" "les" PisoSetup.turbulence_model_option
             ["les_average"; "YES"]%string true eq_refl eq_refl eq_refl).
  reflexivity.
Defined.

End ParamListSample.

(** X10.  The solver [main] calls is decided by the upper-cased name alone:
    each of the four solvers is called exactly for its own name in any
    mixture of cases, and no solver is called exactly when the name is none
    of the four. *)
Theorem X10_solver_dispatch (sname : string) :
  let up := Util.transform Util.toupper sname in
  (Main.call_solver sname = Some Main.Piso <-> up = "PISO"%string) /\
  (Main.call_solver sname = Some Main.Diffusion <-> up = "DIFFUSION"%string) /\
  (Main.call_solver sname = Some Main.Transport <-> up = "TRANSPORT"%string) /\
  (Main.call_solver sname = Some Main.Potential <-> up = "POTENTIAL"%string) /\
  (Main.call_solver sname = None <->
   ~ In up ["PISO"; "DIFFUSION"; "TRANSPORT"; "POTENTIAL"]%string).
Proof.
  intros up. unfold Main.call_solver.
  rewrite !SetupFacts.compare_eqb. fold up.
  change (Util.transform Util.toupper "piso") with "PISO"%string.
  change (Util.transform Util.toupper "diffusion") with "DIFFUSION"%string.
  change (Util.transform Util.toupper "transport") with "TRANSPORT"%string.
  change (Util.transform Util.toupper "potential") with "POTENTIAL"%string.
  destruct (String.eqb_spec up "PISO") as [E0 | E0];
  [| destruct (String.eqb_spec up "DIFFUSION") as [E1 | E1];
  [| destruct (String.eqb_spec up "TRANSPORT") as [E2 | E2];
  [| destruct (String.eqb_spec up "POTENTIAL") as [E3 | E3]]]];
  simpl;
  try rewrite E0; try rewrite E1; try rewrite E2; try rewrite E3;
  repeat split; intros H;
  try discriminate; try reflexivity; try tauto; try congruence;
  try (exfalso; apply H; simpl; tauto);
  try (simpl in H; intuition congruence).
Qed.

(* ------------------------------------------------------------------ *)
(** ** More about the drivers                                          *)
(* ------------------------------------------------------------------ *)

Module RunFacts.

Import OutputSpec.

Lemma written_steps_app {S} (a b : list (Output S)) :
  written_steps (a ++ b) = written_steps a ++ written_steps b.
Proof.
  induction a as [| [i | t | st f | st f] a IH]; simpl; try exact IH.
  - reflexivity.
  - now rewrite IH.
Qed.

(** A log that every pass of the loop extends by [f i]. *)
Lemma for_from_log {S A : Type} (g : S -> list A) (body : Int -> S -> S)
    (f : Int -> list A) :
  (forall i s, g (body i s) = g s ++ f i) ->
  forall count i s,
    g (for_from count i body s) = g s ++ flat_map f (seq i count).
Proof.
  intros H count. induction count as [| n IH]; intros i s; simpl.
  - now rewrite app_nil_r.
  - rewrite IH, H, <- app_assoc. reflexivity.
Qed.

Lemma div_succ_multiple w b :
  0 < w -> (S b) mod w = 0 -> S b / w = S (b / w).
Proof.
  intros Hw Hm.
  pose proof (Nat.div_mod_eq (S b) w) as E1. rewrite Hm in E1.
  pose proof (Nat.div_mod_eq b w) as E2.
  pose proof (Nat.mod_upper_bound b w ltac:(lia)) as B2.
  assert (Hle : b / w < S b / w).
  { apply Nat.Div0.div_lt_upper_bound. nia. }
  assert (Hge : S b / w <= S (b / w)).
  { assert (w * (S b / w) <= w * S (b / w)) by nia. nia. }
  lia.
Qed.

Lemma div_succ_other w b :
  0 < w -> (S b) mod w <> 0 -> S b / w = b / w.
Proof.
  intros Hw Hm.
  pose proof (Nat.div_mod_eq (S b) w) as E1.
  pose proof (Nat.mod_upper_bound (S b) w ltac:(lia)) as B1.
  pose proof (Nat.div_mod_eq b w) as E2.
  pose proof (Nat.mod_upper_bound b w ltac:(lia)) as B2.
  apply (Nat.div_unique b w (S b / w) (S b mod w - 1)); lia.
Qed.

Lemma checkpoints_of_steps w a n :
  0 < w ->
  flat_map (checkpoint_of w) (seq (S a) n) =
  seq (S (a / w)) ((a + n) / w - a / w).
Proof.
  intros Hw. induction n as [| n IH].
  - simpl. now rewrite Nat.add_0_r, Nat.sub_diag.
  - rewrite seq_S, flat_map_app, IH. simpl. rewrite app_nil_r.
    replace (a + S n) with (S (a + n)) by lia.
    assert (Hmono : a / w <= (a + n) / w)
      by (apply Nat.Div0.div_le_mono; lia).
    unfold checkpoint_of.
    destruct (Nat.eqb_spec (S (a + n) mod w) 0) as [E | E].
    + rewrite (div_succ_multiple w (a + n) Hw E).
      replace (S ((a + n) / w) - a / w) with (S ((a + n) / w - a / w))
        by lia.
      rewrite seq_S. f_equal. f_equal. lia.
    + rewrite (div_succ_other w (a + n) Hw E). now rewrite app_nil_r.
Qed.

(** The checkpoints of a run from the step after [w * k] up to [last]. *)
Lemma checkpoints_of_run w k last :
  0 < w ->
  flat_map (checkpoint_of w) (seq (w * k + 1) (last + 1 - (w * k + 1))) =
  seq (S k) (last / w - k).
Proof.
  intros Hw. replace (w * k + 1) with (S (w * k)) by lia.
  rewrite checkpoints_of_steps by exact Hw.
  assert (Hk : w * k / w = k) by (rewrite Nat.mul_comm; now apply Nat.div_mul; lia).
  rewrite Hk. f_equal.
  destruct (le_lt_dec (w * k) last) as [Hle | Hlt].
  - replace (w * k + (last + 1 - S (w * k))) with last by lia. reflexivity.
  - replace (last + 1 - S (w * k)) with 0 by lia. rewrite Nat.add_0_r, Hk.
    assert (last / w <= k).
    { rewrite <- Hk. apply Nat.Div0.div_le_mono. lia. }
    lia.
Qed.

End RunFacts.

Section Checkpoints.

Import OutputSpec.

Context {L : FVLib}.
Variables (bcs : Registry) (ctl : Controls.t).

Let w := Controls.write_interval ctl.

(** *** [diffusion] and [transport] *)

Lemma scalar_print_step_written i (s : Scalar_Transport.State) :
  written_steps (Scalar_Transport.out (Scalar_Transport.print_step ctl i s)) =
  written_steps (Scalar_Transport.out s).
Proof.
  unfold Scalar_Transport.print_step.
  destruct (Nat.eqb host_id 0); [|reflexivity].
  simpl. rewrite RunFacts.written_steps_app.
  destruct (Scalar_Transport.Steady ctl); simpl; now rewrite app_nil_r.
Qed.

Lemma scalar_write_result_written snap i (s : Scalar_Transport.State) :
  written_steps
    (Scalar_Transport.out (Scalar_Transport.write_result ctl snap i s)) =
  written_steps (Scalar_Transport.out s) ++ checkpoint_of w i.
Proof.
  unfold Scalar_Transport.write_result, checkpoint_of, w.
  destruct (Nat.eqb (i mod Controls.write_interval ctl) 0).
  - simpl. now rewrite RunFacts.written_steps_app.
  - now rewrite app_nil_r.
Qed.

Lemma scalar_repeat_out (body : Scalar_Transport.State ->
                                Scalar_Transport.State) n s :
  (forall s, Scalar_Transport.out (body s) = Scalar_Transport.out s) ->
  Scalar_Transport.out (repeat_n n body s) = Scalar_Transport.out s.
Proof.
  intros H.
  apply (repeat_n_invariant
           (fun s' => Scalar_Transport.out s' = Scalar_Transport.out s)).
  - intros s' Hs'. now rewrite H.
  - reflexivity.
Qed.

Lemma diffusion_time_step_written prm mu i s :
  written_steps
    (Scalar_Transport.out
       (Scalar_Transport.diffusion_time_step bcs prm ctl mu i s)) =
  written_steps (Scalar_Transport.out s) ++ checkpoint_of w i.
Proof.
  unfold Scalar_Transport.diffusion_time_step.
  rewrite scalar_write_result_written, scalar_repeat_out by reflexivity.
  now rewrite scalar_print_step_written.
Qed.

Lemma transport_time_step_written prm U mu i s :
  written_steps
    (Scalar_Transport.out
       (Scalar_Transport.transport_time_step bcs prm ctl U mu i s)) =
  written_steps (Scalar_Transport.out s) ++ checkpoint_of w i.
Proof.
  unfold Scalar_Transport.transport_time_step.
  rewrite scalar_write_result_written, scalar_repeat_out by reflexivity.
  now rewrite scalar_print_step_written.
Qed.

(** *** [piso] *)

Lemma piso_emit_written (s : Piso.State) o :
  written_steps (Piso.out (Piso.emit s o)) =
  written_steps (Piso.out s) ++ written_steps o.
Proof. simpl. apply RunFacts.written_steps_app. Qed.

Lemma piso_time_step_written prm pp i s :
  written_steps (Piso.out (Piso.time_step bcs prm ctl pp i s)) =
  written_steps (Piso.out s) ++ checkpoint_of w i.
Proof.
  rewrite time_step_unfold.
  set (s1 := DriverSpec.piso_after_solves bcs prm ctl i s).
  assert (H1 : written_steps (Piso.out s1) = written_steps (Piso.out s)).
  { assert (H : DriverSpec.same_sums (Piso.print_step ctl i s) s1).
    { apply (repeat_n_invariant
               (DriverSpec.same_sums (Piso.print_step ctl i s))).
      - intros s' H. eapply same_sums_trans; [exact H|].
        apply deferred_body_same_sums.
      - apply same_sums_refl. }
    destruct H as (_ & _ & _ & _ & ->).
    unfold Piso.print_step. destruct (Nat.eqb host_id 0); [|reflexivity].
    rewrite piso_emit_written.
    destruct (Piso.Steady ctl); simpl; now rewrite app_nil_r. }
  set (s2 := Piso.les_accumulate prm s1).
  assert (H2 : Piso.out s2 = Piso.out s1).
  { unfold s2, Piso.les_accumulate.
    now destruct (Nat.eqb (Piso.LESaverage prm) 0). }
  destruct (probe_lines_fields pp i s2) as (_ & _ & _ & _ & H3 & _).
  set (s3 := Piso.probe_lines pp i s2) in *.
  unfold Piso.write_result, checkpoint_of, w.
  destruct (Nat.eqb (i mod Controls.write_interval ctl) 0).
  - destruct (Nat.eqb (Piso.LESaverage prm) 0).
    + unfold Piso.write. rewrite piso_emit_written. simpl.
      now rewrite H3, H2, H1.
    + destruct (les_checkpoint_spec i
                  (Piso.set_step s3 (i / Controls.write_interval ctl)))
        as (_ & snap & Hout & _).
      rewrite Hout, RunFacts.written_steps_app. simpl.
      now rewrite H3, H2, H1.
  - now rewrite app_nil_r, H3, H2, H1.
Qed.

End Checkpoints.

Section DriverLog.

Import PisoDriver.

Context {L : FVLib}.
Variables (bcs : Registry) (prm : Piso.Params) (ctl : Controls.t)
          (pp : IntVector).

(** What was written before does not change what a step does. *)
Lemma with_log_emit l (s : Piso.State) o :
  Piso.emit (with_log l s) o = with_log l (Piso.emit s o).
Proof. unfold with_log, Piso.emit. cbn. now rewrite app_assoc. Qed.

Lemma with_log_repeat (body : Piso.State -> Piso.State) l :
  (forall s, body (with_log l s) = with_log l (body s)) ->
  forall n s, repeat_n n body (with_log l s) = with_log l (repeat_n n body s).
Proof.
  intros H n. induction n as [| n IH]; intros s; simpl; [reflexivity|].
  now rewrite H, IH.
Qed.

Lemma with_log_for_from (body : Int -> Piso.State -> Piso.State) l :
  (forall i s, body i (with_log l s) = with_log l (body i s)) ->
  forall n i s,
    for_from n i body (with_log l s) = with_log l (for_from n i body s).
Proof.
  intros H n. induction n as [| n IH]; intros i s; simpl; [reflexivity|].
  now rewrite H, IH.
Qed.

Lemma with_log_momentum_and_pressure l s :
  Piso.momentum_and_pressure bcs prm ctl (with_log l s) =
  with_log l (Piso.momentum_and_pressure bcs prm ctl s).
Proof.
  unfold Piso.momentum_and_pressure. cbv zeta.
  set (M := Piso.momentum_matrix bcs prm ctl s).
  exact (with_log_repeat
           (Piso.piso_pass bcs prm ctl M (Field.inv 1%R (ap M))) l
           (fun s' => eq_refl) (Piso.n_PISO prm)
           (Piso.set_U s (Solve bcs (meq M (Piso.gP s)) (Piso.U s)))).
Qed.

Lemma with_log_deferred_body l s :
  Piso.deferred_body bcs prm ctl (with_log l s) =
  with_log l (Piso.deferred_body bcs prm ctl s).
Proof.
  unfold Piso.deferred_body. rewrite with_log_momentum_and_pressure.
  reflexivity.
Qed.

Lemma with_log_write l s :
  Piso.write (with_log l s) = with_log l (Piso.write s).
Proof. unfold Piso.write. apply with_log_emit. Qed.

Lemma with_log_time_step l i s :
  Piso.time_step bcs prm ctl pp i (with_log l s) =
  with_log l (Piso.time_step bcs prm ctl pp i s).
Proof.
  unfold Piso.time_step. cbv zeta.
  assert (H1 : Piso.print_step ctl i (with_log l s) =
               with_log l (Piso.print_step ctl i s)).
  { unfold Piso.print_step. destruct (Nat.eqb host_id 0); [|reflexivity].
    apply with_log_emit. }
  rewrite H1, (with_log_repeat _ l (with_log_deferred_body l)).
  set (s1 := repeat_n _ _ (Piso.print_step ctl i s)).
  assert (H2 : Piso.les_accumulate prm (with_log l s1) =
               with_log l (Piso.les_accumulate prm s1)).
  { unfold Piso.les_accumulate.
    now destruct (Nat.eqb (Piso.LESaverage prm) 0). }
  rewrite H2. set (s2 := Piso.les_accumulate prm s1).
  assert (H3 : Piso.probe_lines pp i (with_log l s2) =
               with_log l (Piso.probe_lines pp i s2)).
  { unfold Piso.probe_lines. now destruct pp. }
  rewrite H3. set (s3 := Piso.probe_lines pp i s2).
  unfold Piso.write_result.
  destruct (Nat.eqb (i mod Controls.write_interval ctl) 0); [|reflexivity].
  destruct (Nat.eqb (Piso.LESaverage prm) 0).
  - exact (with_log_write l
             (Piso.set_step s3 (i / Controls.write_interval ctl))).
  - unfold Piso.les_checkpoint. cbv zeta.
    change (Piso.write ?x) with (Piso.emit x [WriteFields (Piso.step x) (Piso.snapshot x); WriteVtk (Piso.step x) (Piso.snapshot x)]).
    unfold with_log, Piso.emit, Piso.set_avg, Piso.set_step. cbn.
    now rewrite app_assoc.
Qed.

End DriverLog.

(** The run of [Piso.piso] for the registry that the call of
    [Mesh::calc_walldist] leaves is the run of [PisoDriver.piso] without
    what that call writes: the same fields and probe files, and the same
    lines of [piso] itself. *)
Lemma piso_run_without_walldist_log {L : FVLib}
    (bcs : Registry) (prm : Piso.Params) (ctl : Controls.t) (pp : IntVector)
    (turb_model : Int) (gBoundaries : Boundaries) (phi_fName : string)
    (s0 : Piso.State) :
  let run := PisoDriver.piso turb_model gBoundaries phi_fName bcs prm ctl
                             pp s0 in
  let k := Controls.start_step ctl / Controls.write_interval ctl in
  Piso.piso (PisoDriver.AllBConditions run) prm ctl pp s0 =
  PisoDriver.with_log
    (Piso.out s0 ++ [WriteVtk k (Piso.snapshot (Piso.set_step s0 k))])
    (PisoDriver.final run).
Proof.
  intros run k. unfold run, PisoDriver.piso, Piso.piso, for_range.
  cbv zeta. cbn [PisoDriver.AllBConditions PisoDriver.final].
  rewrite <- with_log_for_from by apply with_log_time_step.
  f_equal. unfold PisoDriver.with_log, PisoDriver.fresh_log. cbn.
  now rewrite app_nil_r.
Qed.


Module DriverLogFacts.

Import PisoDriver.

Lemma write_fields_steps_app (a b : list Written) :
  write_fields_steps (a ++ b) = write_fields_steps a ++ write_fields_steps b.
Proof. apply flat_map_app. Qed.

Lemma write_fields_steps_piso (l : list (Output Piso.Snapshot)) :
  write_fields_steps (map ByPiso l) = OutputSpec.written_steps l.
Proof.
  induction l as [| [i | t | st f | st f] l IH]; simpl; try exact IH.
  - reflexivity.
  - now rewrite <- IH.
Qed.

Lemma write_fields_steps_walldist (l : list (Output ScalarCellField)) :
  write_fields_steps (map ByWalldist l) = OutputSpec.written_steps l.
Proof.
  induction l as [| [i | t | st f | st f] l IH]; simpl; try exact IH.
  - reflexivity.
  - now rewrite <- IH.
Qed.

End DriverLogFacts.

(** X11.  The checkpoints of a run.  With a positive write interval [w]
    a run of [diffusion], [transport] or [piso] resumes after checkpoint
    [start_step / w] and its time loop calls [Mesh::write_fields] once for
    each of the checkpoints [start_step / w + 1], ..., [end_step / w], in
    this order, and for no other; in particular the loop writes nothing
    when [end_step] lies before the next checkpoint.  [diffusion] and
    [transport] write no other checkpoint.  [piso] writes one more: when the
    turbulence model asks for the wall distance ([MIXING_LENGTH] and
    [LES]), [Mesh::calc_walldist] writes checkpoint [start_step / w] again
    before the time loop starts. *)
Theorem X11_checkpoints_of_a_run {L : FVLib}
    (bcs : Registry) (ctl : Controls.t)
    (sprm : Scalar_Transport.Params) (pprm : Piso.Params)
    (Ut : VectorCellField) (pp : IntVector)
    (turb_model : Int) (gBoundaries : Boundaries) (phi_fName : string)
    (ss : Scalar_Transport.State) (ps : Piso.State) :
  0 < Controls.write_interval ctl ->
  let k := Controls.start_step ctl / Controls.write_interval ctl in
  let last := Controls.end_step ctl / Controls.write_interval ctl in
  OutputSpec.written_steps
    (Scalar_Transport.out (Scalar_Transport.diffusion bcs sprm ctl ss)) =
    OutputSpec.written_steps (Scalar_Transport.out ss) ++
    seq (S k) (last - k) /\
  OutputSpec.written_steps
    (Scalar_Transport.out (Scalar_Transport.transport bcs sprm ctl Ut ss)) =
    OutputSpec.written_steps (Scalar_Transport.out ss) ++
    seq (S k) (last - k) /\
  PisoDriver.write_fields_steps
    (PisoDriver.log
       (PisoDriver.piso turb_model gBoundaries phi_fName bcs pprm ctl pp
                        ps)) =
    OutputSpec.written_steps (Piso.out ps) ++
    (if snd (PisoSetup.select_model turb_model) then [k] else []) ++
    seq (S k) (last - k).
Proof.
  intros Hw k last.
  unfold Scalar_Transport.diffusion, Scalar_Transport.transport, for_range.
  split; [|split].
  - rewrite (RunFacts.for_from_log
               (fun s => OutputSpec.written_steps (Scalar_Transport.out s))
               _ (OutputSpec.checkpoint_of (Controls.write_interval ctl))
               (diffusion_time_step_written bcs ctl sprm _)).
    rewrite RunFacts.checkpoints_of_run by exact Hw.
    simpl. rewrite RunFacts.written_steps_app. simpl.
    now rewrite app_nil_r.
  - rewrite (RunFacts.for_from_log
               (fun s => OutputSpec.written_steps (Scalar_Transport.out s))
               _ (OutputSpec.checkpoint_of (Controls.write_interval ctl))
               (transport_time_step_written bcs ctl sprm Ut _)).
    rewrite RunFacts.checkpoints_of_run by exact Hw.
    simpl. rewrite RunFacts.written_steps_app. simpl.
    now rewrite app_nil_r.
  - unfold PisoDriver.piso, for_range. cbn [PisoDriver.log].
    rewrite !DriverLogFacts.write_fields_steps_app,
      !DriverLogFacts.write_fields_steps_piso.
    match goal with
    | |- context [for_from ?n ?i (Piso.time_step ?b _ _ _) ?s1] =>
        rewrite (RunFacts.for_from_log
                   (fun x => OutputSpec.written_steps (Piso.out x))
                   _ (OutputSpec.checkpoint_of (Controls.write_interval ctl))
                   (piso_time_step_written b ctl pprm pp) n i s1)
    end.
    rewrite RunFacts.checkpoints_of_run by exact Hw.
    cbn [PisoDriver.fresh_log Piso.out Piso.emit Piso.set_step Piso.set_gP
         Piso.set_F OutputSpec.written_steps app].
    rewrite RunFacts.written_steps_app. cbn [OutputSpec.written_steps].
    rewrite app_nil_r. f_equal. fold k. f_equal.
    destruct (snd (PisoSetup.select_model turb_model)).
    + now rewrite DriverLogFacts.write_fields_steps_walldist.
    + reflexivity.
Qed.

Section CheckpointSample.

#[local] Existing Instance Sample.lib.

(** X11, witness: [piso] with the [LES] model, steps 1 and 2 with a write
    at every step: checkpoint 0 is written by [Mesh::calc_walldist],
    checkpoints 1 and 2 by the time loop. *)
Lemma X11_checkpoints_of_a_run_witness :
  PisoDriver.write_fields_steps
    (PisoDriver.log
       (PisoDriver.piso 6 [] "phi"%string [] (Sample.piso_params 0 0 0)
                        Sample.steady [] Sample.piso_state)) = [0; 1; 2].
Proof.
  exact (proj2 (proj2 (X11_checkpoints_of_a_run [] Sample.steady
                  (Sample.scalar_params 0) (Sample.piso_params 0 0 0)
                  (Field.const (mkVector 0 0 0)%R) [] 6 [] "phi"%string
                  Sample.scalar_state Sample.piso_state (Nat.lt_0_1)))).
Defined.

End CheckpointSample.

Section PisoRun.

Context {L : FVLib}.
Variables (bcs : Registry) (prm : Piso.Params) (ctl : Controls.t)
          (pp : IntVector).

(** What the loops over [piso_pass] and [deferred_body] never touch: the
    probe files. *)
Lemma piso_repeat_keeps {A : Type} (g : Piso.State -> A)
    (body : Piso.State -> Piso.State) n s :
  (forall s, g (body s) = g s) -> g (repeat_n n body s) = g s.
Proof.
  intros H. apply (repeat_n_invariant (fun s' => g s' = g s)).
  - intros s' Hs'. now rewrite H.
  - reflexivity.
Qed.

Lemma momentum_and_pressure_keeps {A : Type} (g : Piso.State -> A) s :
  (forall s x, g (Piso.set_U s x) = g s) ->
  (forall s x, g (Piso.set_p s x) = g s) ->
  (forall s x, g (Piso.set_gP s x) = g s) ->
  g (Piso.momentum_and_pressure bcs prm ctl s) = g s.
Proof.
  intros HU Hp HgP. unfold Piso.momentum_and_pressure.
  rewrite piso_repeat_keeps.
  - apply HU.
  - intros s'. unfold Piso.piso_pass. now rewrite HgP, Hp, HU.
Qed.

Lemma deferred_body_keeps {A : Type} (g : Piso.State -> A) s :
  (forall s x, g (Piso.set_U s x) = g s) ->
  (forall s x, g (Piso.set_p s x) = g s) ->
  (forall s x, g (Piso.set_gP s x) = g s) ->
  (forall s x, g (Piso.set_F s x) = g s) ->
  (forall s x, g (Piso.set_turb s x) = g s) ->
  g (Piso.deferred_body bcs prm ctl s) = g s.
Proof.
  intros HU Hp HgP HF Ht. unfold Piso.deferred_body.
  rewrite Ht, HF, HU. now apply momentum_and_pressure_keeps.
Qed.

(** The fields after the solves of a step are the fields of the step. *)
Lemma after_solves_fields i s :
  let s1 := DriverSpec.piso_after_solves bcs prm ctl i s in
  let s' := Piso.time_step bcs prm ctl pp i s in
  Piso.U s' = Piso.U s1 /\ Piso.p s' = Piso.p s1 /\
  Piso.gP s' = Piso.gP s1 /\ Piso.F s' = Piso.F s1.
Proof.
  intros s1 s'. unfold s'. rewrite time_step_unfold. fold s1.
  unfold Piso.write_result, Piso.les_accumulate, Piso.probe_lines.
  destruct (Nat.eqb (i mod Controls.write_interval ctl) 0);
    destruct (Nat.eqb (Piso.LESaverage prm) 0); destruct pp;
    now repeat split.
Qed.

Import OutputSpec.

Lemma print_step_fields i s :
  let s' := Piso.print_step ctl i s in
  Piso.U s' = Piso.U s /\ Piso.p s' = Piso.p s /\
  Piso.gP s' = Piso.gP s /\ Piso.F s' = Piso.F s /\
  Piso.oUi s' = Piso.oUi s /\ Piso.opi s' = Piso.opi s.
Proof.
  unfold Piso.print_step. destruct (Nat.eqb host_id 0); now repeat split.
Qed.

Lemma momentum_and_pressure_consistent s :
  Piso.gP s = Field.neg (gradV bcs (Piso.p s)) ->
  let s' := Piso.momentum_and_pressure bcs prm ctl s in
  Piso.gP s' = Field.neg (gradV bcs (Piso.p s')).
Proof.
  intros H. unfold Piso.momentum_and_pressure.
  apply (repeat_n_invariant
           (fun s' => Piso.gP s' = Field.neg (gradV bcs (Piso.p s')))).
  - intros s' _. reflexivity.
  - exact H.
Qed.

Lemma deferred_body_consistent s :
  Piso.gP s = Field.neg (gradV bcs (Piso.p s)) ->
  gP_and_F_consistent bcs prm (Piso.deferred_body bcs prm ctl s).
Proof.
  intros H. split; [|reflexivity].
  apply (momentum_and_pressure_consistent s H).
Qed.

Lemma time_step_consistent i s :
  Piso.gP s = Field.neg (gradV bcs (Piso.p s)) ->
  gP_and_F_consistent bcs prm (Piso.time_step bcs prm ctl pp i s).
Proof.
  intros H.
  destruct (after_solves_fields i s) as (HU & Hp & HgP & HF).
  unfold gP_and_F_consistent. rewrite HU, Hp, HgP, HF.
  unfold DriverSpec.piso_after_solves. rewrite repeat_n_S_r.
  apply deferred_body_consistent.
  apply (repeat_n_invariant
           (fun s' => Piso.gP s' = Field.neg (gradV bcs (Piso.p s')))).
  - intros s' Hs'. now apply deferred_body_consistent.
  - destruct (print_step_fields i s) as (_ & -> & -> & _). exact H.
Qed.

End PisoRun.

(** X12.  Two invariants of the time loop of [piso]: after every time
    step, and at the end of a run of any length, the pressure-gradient field
    [gP] is [-gradV(p)] of the pressure as it stands, and the mass flux [F]
    is [flx(rho * U)] of the velocity as it stands (a time step makes the
    flux consistent whatever it was before). *)
Theorem X12_piso_keeps_gP_and_F_consistent {L : FVLib}
    (bcs : Registry) (prm : Piso.Params) (ctl : Controls.t) (pp : IntVector)
    (i : Int) (s s0 : Piso.State) :
  (Piso.gP s = Field.neg (gradV bcs (Piso.p s)) ->
   OutputSpec.gP_and_F_consistent bcs prm
     (Piso.time_step bcs prm ctl pp i s)) /\
  OutputSpec.gP_and_F_consistent bcs prm (Piso.piso bcs prm ctl pp s0).
Proof.
  split; [apply time_step_consistent|].
  unfold Piso.piso, for_range.
  apply (for_from_invariant (OutputSpec.gP_and_F_consistent bcs prm) _ 0).
  - intros j s' _ [H _]. now apply time_step_consistent.
  - lia.
  - now split.
Qed.

Section PisoRunSample.

#[local] Existing Instance Sample.lib.

(** X12, witness: one more step after a sample run. *)
Lemma X12_piso_keeps_gP_and_F_consistent_witness :
  let prm := Sample.piso_params 0 0 0 in
  OutputSpec.gP_and_F_consistent [] prm
    (Piso.time_step [] prm Sample.steady [] 3
       (Piso.piso [] prm Sample.steady [] Sample.piso_state)).
Proof.
  intros prm.
  pose proof (X12_piso_keeps_gP_and_F_consistent [] prm Sample.steady [] 3
                (Piso.piso [] prm Sample.steady [] Sample.piso_state)
                Sample.piso_state) as [Hstep Hrun].
  apply Hstep. exact (proj1 Hrun).
Defined.

End PisoRunSample.

Section PisoEdge.

Context {L : FVLib}.
Variables (bcs : Registry) (prm : Piso.Params) (ctl : Controls.t)
          (pp : IntVector).

Lemma deferred_body_without_correctors s :
  Piso.n_PISO prm = 0 ->
  let M := Piso.momentum_matrix bcs prm ctl s in
  let s' := Piso.deferred_body bcs prm ctl s in
  Piso.p s' = Piso.p s /\ Piso.gP s' = Piso.gP s /\
  Piso.U s' =
    updateExplicitBCs bcs (Solve bcs (meq M (Piso.gP s)) (Piso.U s))
                      true true.
Proof.
  intros H0. unfold Piso.deferred_body, Piso.momentum_and_pressure.
  rewrite H0. now repeat split.
Qed.

Lemma time_step_without_correctors i s :
  Piso.n_PISO prm = 0 ->
  let s' := Piso.time_step bcs prm ctl pp i s in
  Piso.p s' = Piso.p s /\ Piso.gP s' = Piso.gP s.
Proof.
  intros H0.
  destruct (after_solves_fields bcs prm ctl pp i s) as (_ & Hp & HgP & _).
  cbv zeta. rewrite Hp, HgP. unfold DriverSpec.piso_after_solves.
  destruct (print_step_fields ctl i s) as (_ & Ep & EgP & _).
  rewrite <- Ep, <- EgP.
  apply (repeat_n_invariant
           (fun s' => Piso.p s' = Piso.p (Piso.print_step ctl i s) /\
                      Piso.gP s' = Piso.gP (Piso.print_step ctl i s))).
  - intros s' [H1 H2].
    destruct (deferred_body_without_correctors s' H0) as (-> & -> & _).
    now split.
  - now split.
Qed.

End PisoEdge.

(** X13.  [piso] with [n_PISO = 0] never corrects: a pass of the
    deferred-correction loop leaves the velocity of the momentum solve, with
    refreshed boundary values, and over a whole run the pressure stays the
    field that was read and [gP] stays its negated gradient. *)
Theorem X13_piso_without_corrector_passes {L : FVLib}
    (bcs : Registry) (prm : Piso.Params) (ctl : Controls.t) (pp : IntVector)
    (s s0 : Piso.State) :
  Piso.n_PISO prm = 0 ->
  Piso.U (Piso.deferred_body bcs prm ctl s) =
    updateExplicitBCs bcs
      (Solve bcs (meq (Piso.momentum_matrix bcs prm ctl s) (Piso.gP s))
             (Piso.U s)) true true /\
  Piso.p (Piso.piso bcs prm ctl pp s0) = Piso.p s0 /\
  Piso.gP (Piso.piso bcs prm ctl pp s0) =
    Field.neg (gradV bcs (Piso.p s0)).
Proof.
  intros H0.
  split; [apply (deferred_body_without_correctors bcs prm ctl s H0)|].
  unfold Piso.piso, for_range.
  apply (for_from_invariant
           (fun s' => Piso.p s' = Piso.p s0 /\
                      Piso.gP s' = Field.neg (gradV bcs (Piso.p s0))) _ 0).
  - intros j s' _ [H1 H2].
    destruct (time_step_without_correctors bcs prm ctl pp j s' H0)
      as [-> ->].
    now split.
  - lia.
  - now split.
Qed.

Section PisoEdgeSample.

#[local] Existing Instance Sample.lib.

(** X13, witness: the sample run with [n_PISO = 0]. *)
Lemma X13_piso_without_corrector_passes_witness :
  let prm := Piso.mkParams 1%R (1 / 100000)%R (8 / 10)%R (5 / 10)%R 0 2 1 0 in
  Piso.p (Piso.piso [] prm (Sample.transient 1%R) [] Sample.piso_state) =
  Piso.p Sample.piso_state.
Proof.
  intros prm.
  exact (proj1 (proj2 (X13_piso_without_corrector_passes [] prm
                         (Sample.transient 1%R) [] Sample.piso_state
                         Sample.piso_state eq_refl))).
Defined.

End PisoEdgeSample.

Section Probes.

Context {L : FVLib}.
Variables (bcs : Registry) (prm : Piso.Params) (ctl : Controls.t)
          (pp : IntVector).

Lemma after_solves_probes i s :
  let s1 := DriverSpec.piso_after_solves bcs prm ctl i s in
  Piso.oUi s1 = Piso.oUi s /\ Piso.opi s1 = Piso.opi s.
Proof.
  unfold DriverSpec.piso_after_solves.
  destruct (print_step_fields ctl i s) as (_ & _ & _ & _ & E1 & E2).
  rewrite <- E1, <- E2. split.
  - apply (piso_repeat_keeps Piso.oUi). intros s'.
    now apply (deferred_body_keeps bcs prm ctl Piso.oUi).
  - apply (piso_repeat_keeps Piso.opi). intros s'.
    now apply (deferred_body_keeps bcs prm ctl Piso.opi).
Qed.

Lemma time_step_probes i s :
  let s' := Piso.time_step bcs prm ctl pp i s in
  Piso.oUi s' =
    Piso.oUi s ++
    match pp with [] => [] | _ => [(i, map (Piso.U s') pp)] end /\
  Piso.opi s' =
    Piso.opi s ++
    match pp with [] => [] | _ => [(i, map (Piso.p s') pp)] end.
Proof.
  intros s'.
  destruct (after_solves_fields bcs prm ctl pp i s) as (HU & Hp & _).
  fold s' in HU, Hp. rewrite HU, Hp.
  destruct (after_solves_probes i s) as [E1 E2].
  rewrite <- E1, <- E2.
  unfold s'. rewrite time_step_unfold.
  unfold Piso.write_result, Piso.les_accumulate, Piso.probe_lines.
  destruct (Nat.eqb (i mod Controls.write_interval ctl) 0);
    destruct (Nat.eqb (Piso.LESaverage prm) 0); destruct pp;
    simpl; rewrite ?app_nil_r; now split.
Qed.

End Probes.

(** X14.  The probe files of [piso]: every time step appends one line to
    [Ui] and one to [pi], labelled with the step number and holding the
    velocity and the pressure the step ends with at each probe cell, in the
    order of the probe points; over a run the labels are the consecutive
    step numbers from the first step on; without probe points nothing is
    written. *)
Theorem X14_probe_files {L : FVLib}
    (bcs : Registry) (prm : Piso.Params) (ctl : Controls.t) (pp : IntVector)
    (i : Int) (s s0 : Piso.State) :
  let s' := Piso.time_step bcs prm ctl pp i s in
  let final := Piso.piso bcs prm ctl pp s0 in
  let w := Controls.write_interval ctl in
  let start := w * (Controls.start_step ctl / w) + 1 in
  let steps := match pp with
               | [] => []
               | _ => seq start (Controls.end_step ctl + 1 - start)
               end in
  Piso.oUi s' =
    Piso.oUi s ++
    match pp with [] => [] | _ => [(i, map (Piso.U s') pp)] end /\
  Piso.opi s' =
    Piso.opi s ++
    match pp with [] => [] | _ => [(i, map (Piso.p s') pp)] end /\
  map fst (Piso.oUi final) = map fst (Piso.oUi s0) ++ steps /\
  map fst (Piso.opi final) = map fst (Piso.opi s0) ++ steps.
Proof.
  intros s' final w start steps.
  destruct (time_step_probes bcs prm ctl pp i s) as [H1 H2].
  split; [exact H1|]. split; [exact H2|].
  unfold final, Piso.piso, for_range. fold w. fold start.
  split.
  - rewrite (RunFacts.for_from_log (fun s => map fst (Piso.oUi s)) _
               (fun j => match pp with [] => [] | _ => [j] end)).
    + simpl. f_equal. unfold steps. destruct pp; simpl.
      * induction (seq start (Controls.end_step ctl + 1 - start));
          [reflexivity | exact IHl].
      * induction (seq start (Controls.end_step ctl + 1 - start));
          simpl; [reflexivity | now rewrite IHl].
    + intros j s1.
      destruct (time_step_probes bcs prm ctl pp j s1) as [-> _].
      rewrite map_app. f_equal. now destruct pp.
  - rewrite (RunFacts.for_from_log (fun s => map fst (Piso.opi s)) _
               (fun j => match pp with [] => [] | _ => [j] end)).
    + simpl. f_equal. unfold steps. destruct pp; simpl.
      * induction (seq start (Controls.end_step ctl + 1 - start));
          [reflexivity | exact IHl].
      * induction (seq start (Controls.end_step ctl + 1 - start));
          simpl; [reflexivity | now rewrite IHl].
    + intros j s1.
      destruct (time_step_probes bcs prm ctl pp j s1) as [_ ->].
      rewrite map_app. f_equal. now destruct pp.
Qed.

(** X15.  [potential] does not look at the internal values it reads: two
    initial states that agree in the cells from [Mesh::gBCellsStart] on (the
    boundary cells) and in what was written before give the same result. *)
Theorem X15_potential_ignores_internal_values {L : FVLib}
    (bcs : Registry) (ctl : Controls.t) (n_ORTHO : Int)
    (s0 s0' : Potential.State) :
  (forall c, gBCellsStart <= c ->
             Potential.U s0 c = Potential.U s0' c /\
             Potential.p s0 c = Potential.p s0' c) ->
  Potential.out s0 = Potential.out s0' ->
  Potential.potential bcs ctl n_ORTHO s0 =
  Potential.potential bcs ctl n_ORTHO s0'.
Proof.
  intros Hb Ho.
  assert (EU : Potential.zero_internal (mkVector 0 0 0)%R (Potential.U s0) =
               Potential.zero_internal (mkVector 0 0 0)%R (Potential.U s0')).
  { apply functional_extensionality. intros c. unfold Potential.zero_internal.
    destruct (Nat.ltb_spec c gBCellsStart); [reflexivity|].
    now apply Hb. }
  assert (Ep : Potential.zero_internal 0%R (Potential.p s0) =
               Potential.zero_internal 0%R (Potential.p s0')).
  { apply functional_extensionality. intros c. unfold Potential.zero_internal.
    destruct (Nat.ltb_spec c gBCellsStart); [reflexivity|].
    now apply Hb. }
  unfold Potential.potential, Potential.initial_U, Potential.initial_p.
  now rewrite EU, Ep, Ho.
Qed.

Section PotentialSample2.

#[local] Existing Instance Sample.lib.

(** X15, witness: two states that differ in the one internal cell of the
    sample mesh. *)
Lemma X15_potential_ignores_internal_values_witness :
  Potential.potential [] Sample.steady 1
    (Potential.mkState
       (fun c => if Nat.eqb c 0 then mkVector 7 7 7 else mkVector 3 0 0)%R
       (fun c => if Nat.eqb c 0 then 9 else 2)%R []) =
  Potential.potential [] Sample.steady 1
    (Potential.mkState (Field.const (mkVector 3 0 0)%R) (Field.const 2%R) []).
Proof.
  apply X15_potential_ignores_internal_values; [|reflexivity].
  intros c Hc. simpl in Hc. unfold Field.const. simpl.
  destruct c as [| c]; [lia | now split].
Defined.

End PotentialSample2.

Section WallDistanceRoot.

Local Open Scope R_scope.

Lemma dot_self_nonneg (v : Vector) : 0 <= dot v v.
Proof.
  unfold dot.
  pose proof (Rle_0_sqr (vx v)). pose proof (Rle_0_sqr (vy v)).
  pose proof (Rle_0_sqr (vz v)). unfold Rsqr in *. lra.
Qed.

Lemma wall_distance_root (d phi : R) :
  0 <= d -> 0 <= phi ->
  let y := sqrt (d + 2 * phi) - sqrt d in
  0 <= y /\ y * (y + 2 * sqrt d) = 2 * phi /\ (phi = 0 -> y = 0).
Proof.
  intros Hd Hphi y.
  assert (Hle : sqrt d <= sqrt (d + 2 * phi)) by (apply sqrt_le_1_alt; lra).
  pose proof (sqrt_sqrt d Hd) as S1.
  pose proof (sqrt_sqrt (d + 2 * phi) ltac:(lra)) as S2.
  unfold y. repeat split.
  - lra.
  - nra.
  - intros ->. replace (d + 2 * 0) with d by ring. lra.
Qed.

End WallDistanceRoot.

(** X16.  Where the solved [phi] is not negative, the wall distance that
    [Mesh::calc_walldist] stores is not negative, it is the root [y] of
    [y^2 + 2 |g| y = 2 phi] with [g] the gradient of [phi], and it is 0
    where [phi] is 0. *)
Theorem X16_wall_distance_is_the_nonnegative_root {L : FVLib}
    (gBoundaries : Boundaries) (phi_fName : string) (bcs0 : Registry)
    (step c : Int) :
  let r := Walldist.calc_walldist gBoundaries phi_fName bcs0 step in
  let bcs := Walldist.AllBConditions r in
  let g := FillBoundaryValues bcs (grad bcs (Walldist.phi r)) in
  let y := Walldist.yWall r c in
  (0 <= Walldist.phi r c)%R ->
  (0 <= y)%R /\
  (y * (y + 2 * mag (g c)) = 2 * Walldist.phi r c)%R /\
  (Walldist.phi r c = 0%R -> y = 0%R).
Proof.
  intros r bcs g y Hphi.
  exact (wall_distance_root (dot (g c) (g c)) (Walldist.phi r c)
           (dot_self_nonneg (g c)) Hphi).
Qed.

Section WallDistanceSample.

#[local] Existing Instance Sample2.lib.

(** X16, witness: with a solver that does no iteration [phi] stays 0. *)
Lemma X16_wall_distance_is_the_nonnegative_root_witness :
  let r := Walldist.calc_walldist [("WALL_top", [0]); ("inlet", [1])]%string
                                  "phi" [] 0 in
  (0 <= Walldist.yWall r 0%nat)%R.
Proof.
  intros r.
  refine (proj1 (X16_wall_distance_is_the_nonnegative_root
                   [("WALL_top", [0]); ("inlet", [1])]%string
                   "phi" [] 0 0 _)).
  simpl. unfold Field.const. lra.
Defined.

End WallDistanceSample.

(** X17.  [ke.h]: the eddy viscosity of [calcEddyMu] is not negative in a
    cell where [x] is positive, for non-negative [rho] and [Cmu] and any
    [k]; it vanishes where [k] does; and [calcX] is positive for positive
    arguments and falls as [1 / y]. *)
Theorem X17_eddy_viscosity_is_not_negative
    (rho Cmu ustar kappa y : Scalar) (k x : ScalarCellField) (c : Int) :
  (0 <= rho)%R -> (0 <= Cmu)%R -> (0 < x c)%R ->
  (0 < ustar)%R -> (0 < kappa)%R -> (0 < y)%R ->
  (0 <= KE.calcEddyMu rho Cmu k x c)%R /\
  (k c = 0%R -> KE.calcEddyMu rho Cmu k x c = 0%R) /\
  (0 < KE.calcX ustar kappa y)%R /\
  (KE.calcX ustar kappa (2 * y) = KE.calcX ustar kappa y / 2)%R.
Proof.
  intros Hr HC Hx Hu Hk Hy. unfold KE.calcEddyMu, KE.calcX, Scalar in *.
  split; [|split; [|split]].
  - apply Rle_mult_inv_pos; [|exact Hx].
    replace (rho * Cmu * k c * k c)%R with (rho * Cmu * (k c * k c))%R
      by ring.
    apply Rmult_le_pos; [now apply Rmult_le_pos | apply Rle_0_sqr].
  - intros ->. unfold Rdiv. ring.
  - apply Rdiv_lt_0_compat; [apply pow_lt; exact Hu|].
    now apply Rmult_lt_0_compat.
  - field. split; lra.
Qed.

(** X17, witness. *)
Lemma X17_eddy_viscosity_is_not_negative_witness :
  (0 <= KE.calcEddyMu 1 (9 / 100) (Field.const (-2)) (Field.const 4) 0%nat)%R.
Proof.
  refine (proj1 (X17_eddy_viscosity_is_not_negative 1%R (9 / 100)%R 1%R
                   (41 / 100)%R 1%R (Field.const (-2)%R) (Field.const 4%R)
                   0 _ _ _ _ _ _));
    unfold Field.const; lra.
Defined.

(** X18.  An option that has been read prints one of its names: for a
    non-empty list of names, [operator <<] after [operator >>] yields a
    member of the list, whatever the token was and whatever the option held
    before; it is a name equal to the token up to case when there is one,
    and the first name otherwise. *)
Theorem X18_option_prints_a_name_after_reading
    (p : Util.Option) (inp : Util.istream) :
  Util.list p <> [] ->
  let p' := fst (fst (Util.Option_extract inp p)) in
  let token := fst (Util.read_token inp) in
  let up := Util.transform Util.toupper in
  In (Util.Option_show p') (Util.list p) /\
  Util.list p' = Util.list p /\
  ((exists e, In e (Util.list p) /\ up e = up token) ->
   up (Util.Option_show p') = up token) /\
  ((forall e, In e (Util.list p) -> up e <> up token) ->
   Util.Option_show p' = hd ""%string (Util.list p)).
Proof.
  intros Hne p' token up.
  assert (Hp' : p' = Util.mkOption (fst (Util.getID p token)) (Util.list p)).
  { unfold p', token, Util.Option_extract.
    destruct (Util.read_token inp) as [t r]. simpl.
    now destruct (Util.getID p t). }
  destruct (X3_getID_first_match_in_range p token) as [Hrange Hfirst].
  rewrite Hp'. unfold Util.Option_show. simpl.
  split; [apply nth_In; now apply Hrange|].
  split; [reflexivity|]. split.
  - intros Hex. destruct (Hfirst Hex) as (_ & (e & Hn & He) & _).
    now rewrite (nth_error_nth _ _ _ Hn).
  - intros Hnone. unfold Util.getID.
    rewrite UtilFacts.getID_from_none by exact Hnone. simpl.
    now destruct (Util.list p).
Qed.

(** X18, witness: an unknown token leaves [NONE] to be printed. *)
Lemma X18_option_prints_a_name_after_reading_witness :
  In (Util.Option_show
        (fst (fst (Util.Option_extract ["SST"]%string
                     PisoSetup.turbulence_model_option))))
     (Util.list PisoSetup.turbulence_model_option).
Proof.
  refine (proj1 (X18_option_prints_a_name_after_reading
                   PisoSetup.turbulence_model_option ["SST"]%string _)).
  discriminate.
Defined.

Module MainFacts.

Local Open Scope string_scope.

Lemma append_inj_l (s a b : string) : s ++ a = s ++ b -> a = b.
Proof.
  induction s as [| c s IH]; simpl; [auto|].
  intros [= H]. now apply IH.
Qed.

Lemma decimal_inj (m n : nat) :
  NilEmpty.string_of_uint (Nat.to_uint m) =
  NilEmpty.string_of_uint (Nat.to_uint n) -> m = n.
Proof.
  intros H.
  assert (E : Some (Nat.to_uint m) = Some (Nat.to_uint n))
    by (rewrite <- !NilEmpty.usu; now rewrite H).
  injection E as E.
  rewrite <- (Unsigned.of_to m), <- (Unsigned.of_to n). now rewrite E.
Qed.

End MainFacts.

(** X19.  The per-rank mesh directories of [main] never collide: for one
    mesh name, two processes get the same directory name only when their
    host ids are equal; and with a single host the mesh name is used as it
    is. *)
Theorem X19_rank_directories_are_distinct (pr1 pr2 : Main.Process) :
  Main.gMeshName pr1 = Main.gMeshName pr2 ->
  (Main.rank_mesh_name pr1 = Main.rank_mesh_name pr2 ->
   Main.host_id pr1 = Main.host_id pr2) /\
  (Main.n_hosts pr1 <= 1 ->
   Main.meshName (Main.main pr1) = Main.gMeshName pr1) /\
  (1 < Main.n_hosts pr1 ->
   Main.meshName (Main.main pr1) = Main.rank_mesh_name pr1).
Proof.
  intros Hm. unfold Main.rank_mesh_name, Main.main.
  split; [|split].
  - rewrite Hm. intros H. apply MainFacts.append_inj_l in H.
    now apply MainFacts.decimal_inj.
  - intros Hn. destruct (Nat.ltb_spec 1 (Main.n_hosts pr1)); [lia|].
    reflexivity.
  - intros Hn. destruct (Nat.ltb_spec 1 (Main.n_hosts pr1)); [|lia].
    now destruct (Main.cd pr1 _).
Qed.

(** X19, witness: host 3 of 4. *)
Lemma X19_rank_directories_are_distinct_witness :
  Main.meshName
    (Main.main (Main.mkProcess 4 3 (fun _ => true) "piso" "grid")) =
  "grid3"%string.
Proof.
  exact (proj2 (proj2 (X19_rank_directories_are_distinct
           (Main.mkProcess 4 3 (fun _ => true) "piso" "grid")
           (Main.mkProcess 4 3 (fun _ => true) "piso" "grid") eq_refl))
         ltac:(simpl; lia)).
Defined.
